(** * ArvoMath pseudo-random number generators (src/nvtt/bc7/arvo/Rand.cpp)

    A shallow embedding of the three generators [RandGen_1], [RandGen_2],
    [RandGen_3] and of [RandGen::Perm], followed by the properties of the
    specification that concern them.

    Conventions of the embedding.
    - A C++ [long] is a [Z] kept in the two's-complement range of its width;
      every arithmetic result is reduced by [wrap].  Signed overflow is
      undefined in C++: the reduction is what a two's-complement machine
      computes, and the statements about the range of the results are made
      for the runs without overflow ([fitsL]).  The width of [long] is
      not fixed by the language: [long_model] lists the two widths in use
      (32 bits on ILP32/LLP64 targets, 64 bits on LP64 targets) and every
      definition is parameterised by it.  [int] is 32 bits wide.
    - [/] and [%] truncate towards zero ([Z.quot], [Z.rem]); [>>] on a signed
      value is the arithmetic shift ([Z.shiftr]); [&] is [Z.land].
    - [float] and [double] are IEEE-754 binary32 and binary64 values, modelled
      by [spec_float] of the standard library with round-to-nearest-even.
    - An access outside an array is undefined in C++; reads and writes return
      [None] there, and so does a float-to-int conversion out of range. *)

From Stdlib Require Import ZArith Lia Bool QArith Qpower.
From Stdlib Require Import Floats.SpecFloat.
From stdpp Require Import base option list.

Local Open Scope Z_scope.

(** ** Machine integers *)

Module CInt.

(** Two's-complement reduction to [w] bits. *)
Definition wrap (w x : Z) : Z := (x + 2 ^ (w - 1)) mod 2 ^ w - 2 ^ (w - 1).

Inductive long_model := Long32 | Long64.

Definition long_bits (dm : long_model) : Z :=
  match dm with Long32 => 32 | Long64 => 64 end.

Definition LONG_MAX (dm : long_model) : Z := 2 ^ (long_bits dm - 1) - 1.
Definition LONG_MIN (dm : long_model) : Z := - 2 ^ (long_bits dm - 1).
Definition INT_MAX : Z := 2 ^ 31 - 1.
Definition INT_MIN : Z := - 2 ^ 31.

Definition is_long (dm : long_model) (x : Z) : Prop :=
  LONG_MIN dm <= x <= LONG_MAX dm.
Definition is_int (x : Z) : Prop := INT_MIN <= x <= INT_MAX.

Section Long.
Variable dm : long_model.

Definition wrapL (x : Z) : Z := wrap (long_bits dm) x.
Definition ladd (a b : Z) : Z := wrapL (a + b).
Definition lsub (a b : Z) : Z := wrapL (a - b).
Definition lmul (a b : Z) : Z := wrapL (a * b).
Definition lneg (a : Z) : Z := wrapL (- a).
Definition lshl (a n : Z) : Z := wrapL (Z.shiftl a n).

(** [#define ABS( x ) ((x) > 0 ? (x) : -(x))] at type [long]. *)
Definition ABS (x : Z) : Z := if x >? 0 then x else lneg x.
End Long.

Definition wrapI (x : Z) : Z := wrap 32 x.
Definition iadd (a b : Z) : Z := wrapI (a + b).
Definition isub (a b : Z) : Z := wrapI (a - b).

(** Array cells addressed by a C index; [None] outside the array. *)
Definition rd {A} (l : list A) (i : Z) : option A :=
  if (0 <=? i) && (i <? Z.of_nat (length l)) then l !! Z.to_nat i else None.

Definition wr {A} (l : list A) (i : Z) (v : A) : option (list A) :=
  if (0 <=? i) && (i <? Z.of_nat (length l))
  then Some (<[Z.to_nat i := v]> l) else None.

End CInt.

(** ** Floating point *)

Module IEEE.

Definition float32 := spec_float.
Definition float64 := spec_float.

Definition f64_of_Z (x : Z) : float64 := binary_normalize 53 1024 x 0 false.
Definition f64_mul : float64 -> float64 -> float64 := SFmul 53 1024.
Definition f64_div : float64 -> float64 -> float64 := SFdiv 53 1024.

(** The decimal literal [m]E[-d] of type [double]: the binary64 value
    nearest to m / 10^d.  Both operands are exact for the three literals of
    the source (m < 2^53, and 10^12 and 10^19 = 5^19 * 2^19 have odd parts
    below 2^53), so the correctly rounded quotient is that value. *)
Definition f64_lit (m d : Z) : float64 := f64_div (f64_of_Z m) (f64_of_Z (10 ^ d)).

(** Conversion [double] to [float]. *)
Definition f32_of_f64 (x : float64) : float32 :=
  match x with
  | S754_finite s m e => binary_round 24 128 s m e
  | _ => x
  end.

Definition f32_of_Z (x : Z) : float32 := binary_normalize 24 128 x 0 false.
Definition f32_mul : float32 -> float32 -> float32 := SFmul 24 128.

(** Conversion [(int) r]: truncation towards zero; undefined when the
    truncated value is not an [int], or for an infinity or a NaN. *)
Definition f32_to_int (r : float32) : option Z :=
  match r with
  | S754_zero _ => Some 0
  | S754_finite s m e =>
      let v := cond_Zopp s (Z.shiftl (Zpos m) e) in
      if (CInt.INT_MIN <=? v) && (v <=? CInt.INT_MAX) then Some v else None
  | _ => None
  end.

Definition is_finite (x : spec_float) : bool :=
  match x with
  | S754_zero _ | S754_finite _ _ _ => true
  | _ => false
  end.

(** The rational number a finite float denotes (0 for the others). *)
Definition F2Q (x : spec_float) : Q :=
  match x with
  | S754_finite s m e => (inject_Z (cond_Zopp s (Zpos m)) * 2 ^ e)%Q
  | _ => 0%Q
  end.

Definition is_f32 (x : spec_float) : Prop := valid_binary 24 128 x = true.
Definition is_f64 (x : spec_float) : Prop := valid_binary 53 1024 x = true.

(** Membership in [0,1) and in [0,1]. *)
Definition in_unit (x : spec_float) : Prop :=
  is_finite x = true /\ (0 <= F2Q x)%Q /\ (F2Q x < 1)%Q.
Definition in_unit_closed (x : spec_float) : Prop :=
  is_finite x = true /\ (0 <= F2Q x)%Q /\ (F2Q x <= 1)%Q.

Definition f32_one : float32 := S754_finite false 8388608 (-23).

(** Order on dyadic numbers: m * 2^e <= m' * 2^e', stated over [Z] by
    scaling both sides to the smaller exponent. *)
Definition dle (m e m' e' : Z) : Prop :=
  m * 2 ^ (e - Z.min e e') <= m' * 2 ^ (e' - Z.min e e').

(** [x] is a zero, or a valid number of the format [prec], [emax] with the
    sign [s] and magnitude at most [mb * 2^eb]. *)
Definition bounded_by (prec emax : Z) (s : bool) (mb : positive) (eb : Z)
  (x : spec_float) : Prop :=
  match x with
  | S754_zero _ => True
  | S754_finite s' m e =>
      s' = s /\ bounded prec emax m e = true /\ dle (Zpos m) e (Zpos mb) eb
  | _ => False
  end.

End IEEE.

Import CInt IEEE.

(** ** Method 1 (Numerical Recipes shuffle generator) *)

Module RandGen_1.

Definition M1 : Z := 714025.
Definition IA : Z := 1366.
Definition IC : Z := 150889.
(** [static const double RM = 1.400512E-6;] *)
Definition RM : float64 := f64_lit 1400512 12.

(** The data members [long index; long seed; long shuffle[98]]. *)
Record state := { index : Z; seed : Z; shuffle : list Z }.

Definition wf (g : state) : Prop := length (shuffle g) = 98%nat.

Section Gen.
Variable dm : long_model.

(** Lines 60-62 and 76-78: the table offset derived from [index]. *)
Definition offset_of (index : Z) : Z :=
  let offset := ladd dm 1 (Z.quot (lmul dm 97 index) M1) in
  let offset := if offset >? 97 then 97 else offset in
  if offset <? 1 then 1 else offset.

(** [float RandGen_1::Eval()] *)
Definition Eval (g : state) : option (float32 * state) :=
  let offset := offset_of (index g) in
  elem ← rd (shuffle g) offset;
  let rand := f32_of_f64 (f64_mul (f64_of_Z elem) RM) in
  let seed' := Z.rem (ladd dm (lmul dm IA (seed g)) IC) M1 in
  shuffle' ← wr (shuffle g) offset seed';
  Some (rand, {| index := elem; seed := seed'; shuffle := shuffle' |}).

(** [void RandGen_1::Eval( int n, float *array )]; [p] is the distance of
    the moving pointer [array] from the start of the buffer. *)
Fixpoint Eval_loop (cnt : nat) (array : list float32) (p : Z) (g : state)
  : option (list float32 * state) :=
  match cnt with
  | O => Some (array, g)
  | S cnt' =>
      let offset := offset_of (index g) in
      elem ← rd (shuffle g) offset;
      array' ← wr array p (f32_of_f64 (f64_mul (f64_of_Z elem) RM));
      let seed' := Z.rem (ladd dm (lmul dm IA (seed g)) IC) M1 in
      shuffle' ← wr (shuffle g) offset seed';
      Eval_loop cnt' array' (p + 1)
        {| index := elem; seed := seed'; shuffle := shuffle' |}
  end.

Definition Eval_n (n : Z) (array : list float32) (g : state)
  : option (list float32 * state) :=
  Eval_loop (Z.to_nat n) array 0 g.

(** The loop [for( k = 1; k <= 97; k++ )] of [Seed]. *)
Fixpoint Seed_loop (cnt : nat) (k t : Z) (shuffle : list Z)
  : option (Z * list Z) :=
  match cnt with
  | O => Some (t, shuffle)
  | S cnt' =>
      let t := Z.rem (ladd dm (lmul dm IA t) IC) M1 in
      shuffle' ← wr shuffle k (ABS dm t);
      Seed_loop cnt' (k + 1) t shuffle'
  end.

(** [void RandGen_1::Seed( long seed )].  The parameter is named [seed]
    like the data member, and hides it inside the function body: the
    assignment [seed = ABS( t )] of line 94 stores into the parameter
    (here [seed_param], dead afterwards), while [index = ABS( t )] stores
    into the member.  The member [seed] keeps the value it had. *)
Definition Seed (seed_param : Z) (g : state) : option state :=
  let t := Z.rem (ladd dm (ladd dm IC (ABS dm seed_param)) 1) M1 in
  '(t, shuffle') ← Seed_loop 97 1 t (shuffle g);
  let t := Z.rem (ladd dm (lmul dm IA t) IC) M1 in
  let seed_param := ABS dm t in
  Some {| index := ABS dm t; seed := seed g; shuffle := shuffle' |}.
End Gen.

End RandGen_1.

(** ** Method 2 (Haas multiple-prime generator) *)

Module RandGen_2.

(** The literal [1.00010001E-4]. *)
Definition scale : float64 := f64_lit 100010001 12.

(** The data members [long r, m, i, j]. *)
Record state := { r : Z; m : Z; i : Z; j : Z }.

Section Gen.
Variable dm : long_model.

(** The four statements shared by both forms of [Eval]. *)
Definition step (g : state) : state :=
  let m := ladd dm (m g) 7 in
  let m := if m >=? 9973 then lsub dm m 9871 else m in
  let i := ladd dm (i g) 1907 in
  let i := if i >=? 99991 then lsub dm i 89989 else i in
  let j := ladd dm (j g) 73939 in
  let j := if j >=? 224729 then lsub dm j 96233 else j in
  let r := Z.quot (Z.rem (ladd dm (ladd dm (lmul dm (r g) m) i) j) 100000) 10 in
  {| r := r; m := m; i := i; j := j |}.

Definition Eval (g : state) : float32 * state :=
  let g' := step g in
  (f32_of_f64 (f64_mul (f64_of_Z (r g')) scale), g').

Fixpoint Eval_loop (cnt : nat) (array : list float32) (p : Z) (g : state)
  : option (list float32 * state) :=
  match cnt with
  | O => Some (array, g)
  | S cnt' =>
      let g' := step g in
      array' ← wr array p (f32_of_f64 (f64_mul (f64_of_Z (r g')) scale));
      Eval_loop cnt' array' (p + 1) g'
  end.

Definition Eval_n (n : Z) (array : list float32) (g : state)
  : option (list float32 * state) :=
  Eval_loop (Z.to_nat n) array 0 g.

Definition Seed (seed : Z) (g : state) : state :=
  let r := ABS dm seed in
  let m := ABS dm (lmul dm seed 7) in
  let i := ABS dm (lmul dm seed 11) in
  let j := ABS dm (lmul dm seed 13) in
  let m := if m <? 100 then ladd dm m 100 else m in
  let i := if i <? 10000 then ladd dm i 10000 else i in
  let j := if j <? 128000 then ladd dm j 128000 else j in
  {| r := r; m := m; i := i; j := j |}.
End Gen.

End RandGen_2.

(** ** Method 3 (Schrage's portable multiplicative generator) *)

Module RandGen_3.

Definition A3 : Z := 16807.
Definition P3 : Z := 2147483647.
(** The literal [4.656612875E-10]. *)
Definition scale : float64 := f64_lit 4656612875 19.

(** The data member [long ix]. *)
Record state := { ix : Z }.

Section Gen.
Variable dm : long_model.

(** Lines 151-158 (and 168-175): the update of [ix]. *)
Definition step (ix : Z) : Z :=
  let xhi := Z.shiftr ix 16 in
  let xalo := lmul dm (Z.land ix 65535) A3 in
  let leftlo := Z.shiftr xalo 16 in
  let fhi := ladd dm (lmul dm xhi A3) leftlo in
  let k := Z.shiftr fhi 15 in
  let ix := ladd dm (ladd dm (lsub dm (lsub dm xalo (lshl dm leftlo 16)) P3)
                             (lshl dm (lsub dm fhi (lshl dm k 15)) 16)) k in
  if ix <? 0 then ladd dm ix P3 else ix.

Definition Eval (g : state) : float32 * state :=
  let ix' := step (ix g) in
  (f32_of_f64 (f64_mul (f64_of_Z ix') scale), {| ix := ix' |}).

Fixpoint Eval_loop (cnt : nat) (array : list float32) (p : Z) (g : state)
  : option (list float32 * state) :=
  match cnt with
  | O => Some (array, g)
  | S cnt' =>
      let ix' := step (ix g) in
      array' ← wr array p (f32_of_f64 (f64_mul (f64_of_Z ix') scale));
      Eval_loop cnt' array' (p + 1) {| ix := ix' |}
  end.

Definition Eval_n (n : Z) (array : list float32) (g : state)
  : option (list float32 * state) :=
  Eval_loop (Z.to_nat n) array 0 g.

Definition Seed (seed : Z) (g : state) : state := {| ix := ABS dm seed |}.
End Gen.

End RandGen_3.

(** ** The abstract base class and [Perm] *)

(** [class RandGen] with its three virtual member functions. *)
Record RandGen := {
  gen_state : Type;
  gen_Seed : Z -> gen_state -> option gen_state;
  gen_Eval : gen_state -> option (float32 * gen_state);
  gen_Eval_n : Z -> list float32 -> gen_state -> option (list float32 * gen_state)
}.

Inductive variant := Method1 | Method2 | Method3.

Definition generator (dm : long_model) (v : variant) : RandGen :=
  match v with
  | Method1 =>
      {| gen_state := RandGen_1.state;
         gen_Seed := RandGen_1.Seed dm;
         gen_Eval := RandGen_1.Eval dm;
         gen_Eval_n := RandGen_1.Eval_n dm |}
  | Method2 =>
      {| gen_state := RandGen_2.state;
         gen_Seed := fun s g => Some (RandGen_2.Seed dm s g);
         gen_Eval := fun g => Some (RandGen_2.Eval dm g);
         gen_Eval_n := RandGen_2.Eval_n dm |}
  | Method3 =>
      {| gen_state := RandGen_3.state;
         gen_Seed := fun s g => Some (RandGen_3.Seed dm s g);
         gen_Eval := fun g => Some (RandGen_3.Eval dm g);
         gen_Eval_n := RandGen_3.Eval_n dm |}
  end.

(** [N] successive scalar calls [Eval()]: the values returned, in order, and
    the state reached. *)
Fixpoint draws (G : RandGen) (N : nat) (g : gen_state G)
  : option (list float32 * gen_state G) :=
  match N with
  | O => Some ([], g)
  | S N' =>
      '(x, g') ← gen_Eval G g;
      '(xs, g'') ← draws G N' g';
      Some (x :: xs, g'')
  end.

Section Perm.
Variable G : RandGen.

Definition Nmax : Z := 20.

(** [for( int j = 0; j < len; j++ ) perm[j] = j;] *)
Fixpoint Perm_init (cnt : nat) (j : Z) (perm : list Z) : option (list Z) :=
  match cnt with
  | O => Some perm
  | S cnt' => perm' ← wr perm j j; Perm_init cnt' (iadd j 1) perm'
  end.

(** [for( int i = len - 1; i > 0; i-- )]: [cnt] counts the iterations that
    remain, which is [i] as long as [i > 0]. *)
Fixpoint Perm_loop (cnt : nat) (i L N n : Z) (R : list float32)
  (perm : list Z) (g : gen_state G) : option (list Z * gen_state G) :=
  match cnt with
  | O => Some (perm, g)
  | S cnt' =>
      '(L, N, n, R, g) ←
        (if n =? N then
           let N := if L <? Nmax then L else Nmax in
           '(R, g) ← gen_Eval_n G N R g;
           Some (isub L N, N, 0, R, g)
         else Some (L, N, n, R, g));
      Rn ← rd R n;
      let r := f32_mul (f32_of_Z (iadd i 1)) Rn in
      let n := iadd n 1 in
      k ← f32_to_int r;
      perm ←
        (if k <? i then
           tmp ← rd perm i;
           pk ← rd perm k;
           perm ← wr perm i pk;
           wr perm k tmp
         else Some perm);
      Perm_loop cnt' (isub i 1) L N n R perm g
  end.

(** [void RandGen::Perm( int len, int perm[] )].  [R] is the local buffer
    [float R[ Nmax ]], whose initial contents are indeterminate. *)
Definition Perm (len : Z) (perm : list Z) (R : list float32) (g : gen_state G)
  : option (list Z * gen_state G) :=
  let L := isub len 1 in
  perm ← Perm_init (Z.to_nat len) 0 perm;
  let i := isub len 1 in
  Perm_loop (Z.to_nat i) i L 0 0 R perm g.
End Perm.

(** ** Notions used by the statements *)

(** The sequence of the specification of [RandGen_1::Seed], in the words of
    the specification: t_0 = (IC + |s| + 1) mod M1 and
    t_k = (IA * t_(k-1) + IC) mod M1, over the mathematical integers. *)
Fixpoint t_spec (s : Z) (k : nat) : Z :=
  match k with
  | O => (RandGen_1.IC + Z.abs s + 1) mod RandGen_1.M1
  | S k' => (RandGen_1.IA * t_spec s k' + RandGen_1.IC) mod RandGen_1.M1
  end.

(** The bounds the specification gives for the state of Method 2. *)
Definition method2_bounds (g : RandGen_2.state) : Prop :=
  100 <= RandGen_2.m g < 9973 /\
  10000 <= RandGen_2.i g < 99991 /\
  128000 <= RandGen_2.j g < 224729.

(** The state of Method 2 after [k] scalar calls [Eval()]. *)
Definition method2_after (dm : long_model) (k : nat) (g : RandGen_2.state)
  : RandGen_2.state :=
  Nat.iter k (fun g => snd (RandGen_2.Eval dm g)) g.

(** What the specification requires of [Eval(n, array)]: the values of [n]
    successive scalar calls, in order, in [array[0..n-1]]; the rest of the
    buffer as it was; the state those calls reach. *)
Definition batch_spec (G : RandGen) (n : Z) (array : list float32) (g : gen_state G)
  : option (list float32 * gen_state G) :=
  '(xs, g') ← draws G (Z.to_nat n) g;
  Some (xs ++ drop (Z.to_nat n) array, g').

(** [cnt] scalar calls, each result stored at the moving position [p]. *)
Fixpoint fill (G : RandGen) (cnt : nat) (array : list float32) (p : Z)
  (g : gen_state G) : option (list float32 * gen_state G) :=
  match cnt with
  | O => Some (array, g)
  | S cnt' =>
      '(x, g') ← gen_Eval G g;
      array' ← wr array p x;
      fill G cnt' array' (p + 1) g'
  end.

(** The sequence of values returned by [Seed(s)] followed by [N] scalar calls
    [Eval()], on an instance found in state [g]. *)
Definition seeded_draws (G : RandGen) (s : Z) (N : nat) (g : gen_state G)
  : option (list float32) :=
  g' ← gen_Seed G s g;
  '(xs, _) ← draws G N g';
  Some xs.

(** An instance of Method 1 whose member [seed] holds [seed0] (a data member
    holds whatever was stored last, or an indeterminate value if nothing
    was), with a zeroed table. *)
Definition method1_instance (seed0 : Z) : RandGen_1.state :=
  {| RandGen_1.index := 0; RandGen_1.seed := seed0; RandGen_1.shuffle := replicate 98 0 |}.

(** Instances and seeds from which [Seed] reaches a state of [good_state]
    below.  Method 1: the member [seed], which [Seed] leaves alone, holds a
    value of the range [0, M1) that [Eval] keeps it in.  Method 2: a seed
    from which the state is within the bounds of the method after one call.
    Method 3: |s| is a state of the generator. *)
Definition seed_ok (dm : long_model) (v : variant) (s : Z)
  : gen_state (generator dm v) -> Prop :=
  match v with
  | Method1 => fun g => RandGen_1.wf g /\ 0 <= RandGen_1.seed g < RandGen_1.M1
  | Method2 => fun _ => Z.abs s <= 2833
  | Method3 => fun _ => Z.abs s <= 2147483647
  end.

(** The invariant behind it: states that [Eval] does not leave and in
    which it returns a value of [0, 1]. *)
Definition good_state (dm : long_model) (v : variant)
  : gen_state (generator dm v) -> Prop :=
  match v with
  | Method1 => fun g =>
      RandGen_1.wf g /\ 0 <= RandGen_1.seed g < RandGen_1.M1 /\
      forall k x, (1 <= k <= 97)%nat -> RandGen_1.shuffle g !! k = Some x ->
                  0 <= x < RandGen_1.M1
  | Method2 => fun g =>
      0 <= RandGen_2.r g <= 9999 /\ 0 <= RandGen_2.m g <= 19831 /\
      0 <= RandGen_2.i g <= 99990 /\ 0 <= RandGen_2.j g <= 224728
  | Method3 => fun g => 0 <= RandGen_3.ix g <= 2147483647
  end.

(** A generator whose draws all lie in [0,1): on the states of [Inv], a set
    of states it does not leave, its array form [Eval(n, array)] succeeds and
    stores [n] floats of [0, 1) in [array[0..n-1]]. *)
Definition unit_generator (G : RandGen) (Inv : gen_state G -> Prop) : Prop :=
  forall (g : gen_state G) (n : Z) (array : list float32),
    Inv g -> 0 <= n <= Z.of_nat (length array) ->
    exists array' g',
      gen_Eval_n G n array g = Some (array', g') /\ Inv g' /\
      length array' = length array /\
      forall (k : nat) (x : float32),
        (k < Z.to_nat n)%nat -> array' !! k = Some x -> is_f32 x /\ in_unit x.

(** A generator whose array form agrees with its scalar form, as the
    specification requires of every generator. *)
Definition batch_equivalent (G : RandGen) : Prop :=
  forall (n : Z) (array : list float32) (g : gen_state G),
    n <= Z.of_nat (length array) ->
    gen_Eval_n G n array g = batch_spec G n array g.

(** Two instances of Method 1 that differ at most in the unused table slot
    [shuffle[0]]. *)
Definition same_but_slot0 (g1 g2 : RandGen_1.state) : Prop :=
  RandGen_1.index g1 = RandGen_1.index g2 /\
  RandGen_1.seed g1 = RandGen_1.seed g2 /\
  RandGen_1.wf g1 /\ RandGen_1.wf g2 /\
  forall k : nat, (1 <= k)%nat ->
    RandGen_1.shuffle g1 !! k = RandGen_1.shuffle g2 !! k.

(** ** Runs in which no operation on [long] overflows *)

(** Signed overflow is undefined in C++, so the range of the values
    returned is stated for the runs in which every result of an operation
    on [long] is a value of the type.  [fitsL] is that test for one
    result. *)
Definition fitsL (dm : long_model) (x : Z) : bool :=
  (LONG_MIN dm <=? x) && (x <=? LONG_MAX dm).

(** [ABS( x )] negates [x] unless x > 0. *)
Definition ABS_fits (dm : long_model) (x : Z) : bool :=
  if x >? 0 then true else fitsL dm (- x).

(** The operations of [RandGen_2::Seed( seed )], lines 129-135, in the
    order of the source, on the mathematical values. *)
Definition Seed_2_fits (dm : long_model) (seed : Z) : bool :=
  let m := Z.abs (seed * 7) in
  let i := Z.abs (seed * 11) in
  let j := Z.abs (seed * 13) in
  fitsL dm seed && ABS_fits dm seed &&
  fitsL dm (seed * 7) && ABS_fits dm (seed * 7) &&
  fitsL dm (seed * 11) && ABS_fits dm (seed * 11) &&
  fitsL dm (seed * 13) && ABS_fits dm (seed * 13) &&
  (if m <? 100 then fitsL dm (m + 100) else true) &&
  (if i <? 10000 then fitsL dm (i + 10000) else true) &&
  (if j <? 128000 then fitsL dm (j + 128000) else true).

(** The operations of one [RandGen_2::Eval], lines 108-111, from the state
    [g]. *)
Definition step_2_fits (dm : long_model) (g : RandGen_2.state) : bool :=
  let m := RandGen_2.m g + 7 in
  let m' := if m >=? 9973 then m - 9871 else m in
  let i := RandGen_2.i g + 1907 in
  let i' := if i >=? 99991 then i - 89989 else i in
  let j := RandGen_2.j g + 73939 in
  let j' := if j >=? 224729 then j - 96233 else j in
  fitsL dm m && fitsL dm m' && fitsL dm i && fitsL dm i' &&
  fitsL dm j && fitsL dm j' &&
  fitsL dm (RandGen_2.r g * m') && fitsL dm (RandGen_2.r g * m' + i') &&
  fitsL dm (RandGen_2.r g * m' + i' + j').

(** [K] successive calls of [RandGen_2::Eval] from the state [g]. *)
Fixpoint run_2_fits (dm : long_model) (K : nat) (g : RandGen_2.state) : bool :=
  match K with
  | O => true
  | S K' => step_2_fits dm g && run_2_fits dm K' (RandGen_2.step dm g)
  end.

(** The runs [Seed(s)], then [K] draws, on which the range of the results
    is stated.  Method 1: IC + |s| + 1 does not overflow, and the member
    [seed], which [Seed] leaves alone, holds a value from which the first
    update IA * seed + IC is neither negative nor too large (any value of
    [0, M1) is one).  Method 2: no operation of [Seed] or of the [K] calls
    of [Eval] overflows.  Method 3: |s| is a state of the generator. *)
Definition run_ok (dm : long_model) (v : variant) (s : Z) (K : nat)
  : gen_state (generator dm v) -> Prop :=
  match v with
  | Method1 => fun g =>
      RandGen_1.wf g /\
      RandGen_1.IC + Z.abs s + 1 <= LONG_MAX dm /\
      0 <= RandGen_1.IA * RandGen_1.seed g + RandGen_1.IC <= LONG_MAX dm
  | Method2 => fun g =>
      Seed_2_fits dm s = true /\ run_2_fits dm K (RandGen_2.Seed dm s g) = true
  | Method3 => fun _ => Z.abs s <= 2147483647
  end.

(** The invariant behind it: the states from which [K] more draws return
    values of [0, 1]. *)
Definition range_inv (dm : long_model) (v : variant) (K : nat)
  : gen_state (generator dm v) -> Prop :=
  match v with
  | Method1 => fun g =>
      RandGen_1.wf g /\
      0 <= RandGen_1.IA * RandGen_1.seed g + RandGen_1.IC <= LONG_MAX dm /\
      forall k x, (1 <= k <= 97)%nat -> RandGen_1.shuffle g !! k = Some x ->
                  0 <= x < RandGen_1.M1
  | Method2 => fun g =>
      (0 <= RandGen_2.r g /\ 0 <= RandGen_2.m g /\
       0 <= RandGen_2.i g /\ 0 <= RandGen_2.j g) /\
      run_2_fits dm K g = true
  | Method3 => fun g => 0 <= RandGen_3.ix g <= 2147483647
  end.

(** The states that the calls after the first one go through when
    |s| <= 18232. *)
Definition settled_2 (g : RandGen_2.state) : Prop :=
  0 <= RandGen_2.r g <= 9999 /\ 0 <= RandGen_2.m g <= 127631 /\
  0 <= RandGen_2.i g <= 210000 /\ 0 <= RandGen_2.j g <= 256000.

(** * Properties *)

(** ** Machine integers *)

Section LongFacts.
Variable dm : long_model.

Lemma wrapL_small (x : Z) : - 2 ^ 31 <= x < 2 ^ 31 -> wrapL dm x = x.
Proof.
  intros Hx. unfold wrapL, wrap.
  destruct dm; cbn [long_bits]; rewrite Z.mod_small; lia.
Qed.

Lemma wrapL_range (x : Z) : is_long dm (wrapL dm x).
Proof.
  unfold is_long, LONG_MIN, LONG_MAX, wrapL, wrap.
  destruct dm; cbn [long_bits].
  - pose proof (Z.mod_pos_bound (x + 2 ^ (32 - 1)) (2 ^ 32)); lia.
  - pose proof (Z.mod_pos_bound (x + 2 ^ (64 - 1)) (2 ^ 64)); lia.
Qed.

Lemma ABS_small (x : Z) : - 2 ^ 31 < x < 2 ^ 31 -> ABS dm x = Z.abs x.
Proof.
  intros Hx. unfold ABS, lneg.
  destruct (Z.gtb_spec x 0); [lia|]. rewrite wrapL_small; lia.
Qed.
End LongFacts.

Lemma wrapI_small (x : Z) : is_int x -> wrapI x = x.
Proof.
  unfold is_int, INT_MIN, INT_MAX, wrapI, wrap. intros Hx.
  rewrite Z.mod_small; lia.
Qed.

Lemma rd_Some {A} (l : list A) (i : Z) :
  0 <= i < Z.of_nat (length l) -> is_Some (rd l i).
Proof.
  intros Hi. unfold rd.
  destruct (Z.leb_spec 0 i); [|lia].
  destruct (Z.ltb_spec i (Z.of_nat (length l))); [|lia].
  apply lookup_lt_is_Some. lia.
Qed.

Lemma wr_Some {A} (l : list A) (i : Z) (v : A) :
  0 <= i < Z.of_nat (length l) -> wr l i v = Some (<[Z.to_nat i := v]> l).
Proof.
  intros Hi. unfold wr.
  destruct (Z.leb_spec 0 i); [|lia].
  destruct (Z.ltb_spec i (Z.of_nat (length l))); [reflexivity|lia].
Qed.

(** Removes every reduction [wrapL dm x] whose argument [lia] bounds by the
    32-bit range, innermost first. *)
Ltac small :=
  repeat match goal with
    | |- context [wrapL ?d ?x] => rewrite (wrapL_small d x) by lia
    end.

(** ** Method 1: the table offset *)

Section Method1_offset.
Variable dm : long_model.

Lemma offset_of_range (idx : Z) : 1 <= RandGen_1.offset_of dm idx <= 97.
Proof.
  unfold RandGen_1.offset_of.
  set (o := ladd dm 1 _).
  destruct (Z.gtb_spec o 97); destruct (Z.ltb_spec 97 1);
    try destruct (Z.ltb_spec o 1); lia.
Qed.

Lemma Eval_1_defined (g : RandGen_1.state) :
  RandGen_1.wf g ->
  exists elem,
    rd (RandGen_1.shuffle g) (RandGen_1.offset_of dm (RandGen_1.index g)) = Some elem /\
    RandGen_1.Eval dm g =
      Some (f32_of_f64 (f64_mul (f64_of_Z elem) RandGen_1.RM),
            {| RandGen_1.index := elem;
               RandGen_1.seed :=
                 Z.rem (ladd dm (lmul dm RandGen_1.IA (RandGen_1.seed g)) RandGen_1.IC)
                   RandGen_1.M1;
               RandGen_1.shuffle :=
                 <[Z.to_nat (RandGen_1.offset_of dm (RandGen_1.index g)) :=
                     Z.rem (ladd dm (lmul dm RandGen_1.IA (RandGen_1.seed g)) RandGen_1.IC)
                       RandGen_1.M1]> (RandGen_1.shuffle g) |}).
Proof.
  intros Hwf. unfold RandGen_1.wf in Hwf.
  pose proof (offset_of_range (RandGen_1.index g)) as Ho.
  destruct (rd_Some (RandGen_1.shuffle g)
              (RandGen_1.offset_of dm (RandGen_1.index g))) as [elem He]; [lia|].
  exists elem. split; [exact He|].
  unfold RandGen_1.Eval. rewrite He. cbn [mbind option_bind].
  rewrite wr_Some by lia. reflexivity.
Qed.

Lemma Eval_1_frame (g g' : RandGen_1.state) (x : float32) :
  RandGen_1.wf g -> RandGen_1.Eval dm g = Some (x, g') ->
  RandGen_1.wf g' /\
  RandGen_1.shuffle g' !! 0%nat = RandGen_1.shuffle g !! 0%nat.
Proof.
  intros Hwf HE. destruct (Eval_1_defined g Hwf) as (elem & _ & HE').
  rewrite HE' in HE. injection HE as _ <-. cbn [RandGen_1.shuffle].
  pose proof (offset_of_range (RandGen_1.index g)) as Ho.
  split.
  - unfold RandGen_1.wf. cbn [RandGen_1.shuffle]. rewrite length_insert. exact Hwf.
  - apply list_lookup_insert_ne. lia.
Qed.
End Method1_offset.

(** ** Batch evaluation against scalar evaluation *)

Section Batch.
Variable dm : long_model.

Lemma fill_draws (G : RandGen) (cnt : nat) :
  forall (array : list float32) (p : nat) (g : gen_state G),
    (p + cnt <= length array)%nat ->
    fill G cnt array (Z.of_nat p) g =
      '(xs, g') ← draws G cnt g;
      Some (take p array ++ xs ++ drop (p + cnt) array, g').
Proof.
  induction cnt as [|cnt IH]; intros array p g Hlen.
  - cbn. rewrite Nat.add_0_r, take_drop. reflexivity.
  - cbn [fill draws].
    destruct (gen_Eval G g) as [[x g1]|]; [|reflexivity].
    cbn [mbind option_bind].
    rewrite wr_Some by lia. cbn [mbind option_bind].
    replace (Z.of_nat p + 1) with (Z.of_nat (S p)) by lia.
    rewrite Nat2Z.id, IH by (rewrite length_insert; lia).
    destruct (draws G cnt g1) as [[xs g2]|]; [|reflexivity].
    cbn [mbind option_bind]. do 2 f_equal.
    rewrite drop_insert_lt by lia.
    rewrite (take_S_r _ p x) by (apply list_lookup_insert_eq; lia).
    rewrite take_insert_ge by lia.
    rewrite <- app_assoc. cbn [app].
    replace (S p + cnt)%nat with (p + S cnt)%nat by lia. reflexivity.
Qed.

Lemma fill_batch_spec (G : RandGen) (n : Z) (array : list float32)
  (g : gen_state G) :
  n <= Z.of_nat (length array) ->
  fill G (Z.to_nat n) array 0 g = batch_spec G n array g.
Proof.
  intros Hn. change 0 with (Z.of_nat 0).
  rewrite fill_draws by lia. reflexivity.
Qed.

Lemma Eval_loop_1_fill (cnt : nat) :
  forall array p g,
    RandGen_1.Eval_loop dm cnt array p g = fill (generator dm Method1) cnt array p g.
Proof.
  induction cnt as [|cnt IH]; intros array p g; [reflexivity|].
  cbn [RandGen_1.Eval_loop fill generator gen_Eval].
  unfold RandGen_1.Eval.
  destruct (rd (RandGen_1.shuffle g) _) as [elem|]; [|reflexivity].
  cbn [mbind option_bind].
  destruct (wr (RandGen_1.shuffle g) _ _) as [sh|]; cbn [mbind option_bind].
  - destruct (wr array p _) as [array'|]; cbn [mbind option_bind];
      [apply IH|reflexivity].
  - destruct (wr array p _); reflexivity.
Qed.

Lemma Eval_loop_2_fill (cnt : nat) :
  forall array p g,
    RandGen_2.Eval_loop dm cnt array p g = fill (generator dm Method2) cnt array p g.
Proof.
  induction cnt as [|cnt IH]; intros array p g; [reflexivity|].
  cbn [RandGen_2.Eval_loop fill generator gen_Eval].
  unfold RandGen_2.Eval. cbn [mbind option_bind].
  destruct (wr array p _) as [array'|]; cbn [mbind option_bind];
    [apply IH|reflexivity].
Qed.

Lemma Eval_loop_3_fill (cnt : nat) :
  forall array p g,
    RandGen_3.Eval_loop dm cnt array p g = fill (generator dm Method3) cnt array p g.
Proof.
  induction cnt as [|cnt IH]; intros array p g; [reflexivity|].
  cbn [RandGen_3.Eval_loop fill generator gen_Eval].
  unfold RandGen_3.Eval. cbn [mbind option_bind].
  destruct (wr array p _) as [array'|]; cbn [mbind option_bind];
    [apply IH|reflexivity].
Qed.

Lemma Eval_n_fill (v : variant) (n : Z) (array : list float32)
  (g : gen_state (generator dm v)) :
  gen_Eval_n (generator dm v) n array g =
  fill (generator dm v) (Z.to_nat n) array 0 g.
Proof.
  destruct v; cbn [generator gen_Eval_n].
  - apply Eval_loop_1_fill.
  - apply Eval_loop_2_fill.
  - apply Eval_loop_3_fill.
Qed.
End Batch.

(** C3. For each of the three generators, every state, every count [n] and
    every buffer holding at least [n] floats, the array form [Eval(n, array)]
    stores in [array[0..n-1]] the values that [n] successive scalar calls
    return from the same state, in the same order, leaves the rest of the
    buffer alone and ends in the state those calls reach; for [n = 0] the
    buffer and the state are returned as they were. *)
Theorem Eval_n_is_n_scalar_calls (dm : long_model) (v : variant) (n : Z)
  (array : list float32) (g : gen_state (generator dm v)) :
  n <= Z.of_nat (length array) ->
  gen_Eval_n (generator dm v) n array g = batch_spec (generator dm v) n array g /\
  gen_Eval_n (generator dm v) 0 array g = Some (array, g).
Proof.
  intros Hn. split.
  - rewrite Eval_n_fill. apply fill_batch_spec. exact Hn.
  - rewrite Eval_n_fill. reflexivity.
Qed.

(** ** Method 3: Schrage's decomposition *)

Section Method3_step.
Variable dm : long_model.

Lemma step_3_mod (ix : Z) :
  0 <= ix <= 2 ^ 31 - 1 ->
  RandGen_3.step dm ix = (RandGen_3.A3 * ix) mod RandGen_3.P3.
Proof.
  intros Hix. unfold RandGen_3.step, RandGen_3.A3, RandGen_3.P3, lmul, ladd, lsub, lshl.
  change 65535 with (Z.ones 16).
  rewrite Z.land_ones by lia.
  rewrite !Z.shiftr_div_pow2 by lia.
  change (2 ^ 16) with 65536. change (2 ^ 15) with 32768.
  set (xhi := ix / 65536). set (xlo := ix mod 65536).
  assert (Hxhi : 0 <= xhi < 32768) by (subst xhi; split; [apply Z.div_pos; lia| apply Z.div_lt_upper_bound; lia]).
  assert (Hxlo : 0 <= xlo < 65536) by (subst xlo; apply Z.mod_pos_bound; lia).
  assert (Hix' : ix = 65536 * xhi + xlo) by (subst xhi xlo; apply Z.div_mod; lia).
  rewrite (wrapL_small dm (xlo * 16807)) by lia.
  set (xalo := xlo * 16807).
  set (leftlo := xalo / 65536).
  assert (Hleft : 0 <= leftlo <= 16807)
    by (subst leftlo xalo; split; [apply Z.div_pos; lia| apply Z.div_le_upper_bound; lia]).
  pose proof (Z.div_mod xalo 65536 ltac:(lia)) as Hxalo. fold leftlo in Hxalo.
  pose proof (Z.mod_pos_bound xalo 65536 ltac:(lia)) as Hxalo'.
  rewrite (wrapL_small dm (xhi * 16807)) by lia.
  rewrite (wrapL_small dm (xhi * 16807 + leftlo)) by lia.
  set (fhi := xhi * 16807 + leftlo).
  set (k := fhi / 32768).
  assert (Hk : 0 <= k <= 16807)
    by (subst k fhi; split; [apply Z.div_pos; lia| apply Z.div_le_upper_bound; lia]).
  pose proof (Z.div_mod fhi 32768 ltac:(lia)) as Hfhi. fold k in Hfhi.
  pose proof (Z.mod_pos_bound fhi 32768 ltac:(lia)) as Hfhi'.
  rewrite !Z.shiftl_mul_pow2 by lia.
  change (2 ^ 16) with 65536. change (2 ^ 15) with 32768.
  rewrite (wrapL_small dm (leftlo * 65536)) by lia.
  rewrite (wrapL_small dm (xalo - leftlo * 65536)) by lia.
  rewrite (wrapL_small dm (xalo - leftlo * 65536 - 2147483647)) by lia.
  rewrite (wrapL_small dm (k * 32768)) by lia.
  rewrite (wrapL_small dm (fhi - k * 32768)) by lia.
  rewrite (wrapL_small dm ((fhi - k * 32768) * 65536)) by lia.
  rewrite (wrapL_small dm (_ + (fhi - k * 32768) * 65536)) by lia.
  rewrite (wrapL_small dm (_ + k)) by lia.
  set (v := xalo - leftlo * 65536 - 2147483647 + (fhi - k * 32768) * 65536 + k).
  assert (Hv : 16807 * ix = k * 2147483647 + (v + 2147483647)) by (subst v; lia).
  destruct (Z.ltb_spec v 0) as [Hneg|Hpos].
  - rewrite wrapL_small by lia.
    apply (Z.mod_unique_pos _ _ k); lia.
  - apply (Z.mod_unique_pos _ _ (k + 1)); lia.
Qed.
End Method3_step.

(** C7. For every [ix] in [0, 2^31-2], one call [RandGen_3::Eval()] replaces
    [ix] by (16807 * ix) mod 2147483647 and returns the new [ix] multiplied
    (in [double], then converted to [float]) by the literal 4.656612875E-10;
    after [Seed(1)] the first call leaves [ix = 16807]. *)
Theorem Eval_3_schrage (dm : long_model) (g : RandGen_3.state) :
  0 <= RandGen_3.ix g <= 2 ^ 31 - 2 ->
  let ix' := (16807 * RandGen_3.ix g) mod 2147483647 in
  RandGen_3.Eval dm g =
    (f32_of_f64 (f64_mul (f64_of_Z ix') RandGen_3.scale), {| RandGen_3.ix := ix' |}) /\
  RandGen_3.ix (snd (RandGen_3.Eval dm (RandGen_3.Seed dm 1 g))) = 16807.
Proof.
  intros Hix ix'. split.
  - unfold RandGen_3.Eval. rewrite step_3_mod by lia. reflexivity.
  - unfold RandGen_3.Eval, RandGen_3.Seed. cbn [snd RandGen_3.ix].
    rewrite step_3_mod by (destruct dm; vm_compute; split; discriminate).
    destruct dm; reflexivity.
Qed.

Lemma Eval_3_schrage_witness :
  0 <= 12345 <= 2 ^ 31 - 2 /\
  RandGen_3.ix (snd (RandGen_3.Eval Long32 {| RandGen_3.ix := 12345 |})) = 207482415.
Proof.
  split; [lia|].
  rewrite (proj1 (Eval_3_schrage Long32 {| RandGen_3.ix := 12345 |} ltac:(cbn; lia))).
  reflexivity.
Defined.

(** ** Method 2: the bounds of the state *)

Section Method2_bounds.
Variable dm : long_model.

Lemma step_2_bounds (g : RandGen_2.state) :
  method2_bounds g -> method2_bounds (RandGen_2.step dm g).
Proof.
  unfold method2_bounds, RandGen_2.step, ladd, lsub.
  destruct g as [r m i j]; cbn [RandGen_2.m RandGen_2.i RandGen_2.j].
  intros (Hm & Hi & Hj).
  rewrite (wrapL_small dm (m + 7)), (wrapL_small dm (i + 1907)),
    (wrapL_small dm (j + 73939)) by lia.
  repeat split;
    repeat match goal with
      | |- context [?a >=? ?b] => destruct (Z.geb_spec a b)
      end; small; lia.
Qed.

Lemma Seed_2_first_step (s : Z) (g : RandGen_2.state) :
  Z.abs s <= 2833 ->
  method2_bounds (RandGen_2.step dm (RandGen_2.Seed dm s g)).
Proof.
  intros Hs. unfold method2_bounds, RandGen_2.step, RandGen_2.Seed, ladd, lsub, lmul.
  cbn [RandGen_2.m RandGen_2.i RandGen_2.j RandGen_2.r].
  rewrite (wrapL_small dm (s * 7)), (wrapL_small dm (s * 11)),
    (wrapL_small dm (s * 13)) by lia.
  rewrite !ABS_small by lia.
  repeat match goal with
    | |- context [?a <? ?b] => destruct (Z.ltb_spec a b)
    end; small;
  repeat match goal with
    | |- context [?a >=? ?b] => destruct (Z.geb_spec a b)
    end; small; lia.
Qed.

Lemma method2_after_bounds (k : nat) (g : RandGen_2.state) :
  method2_bounds g -> method2_bounds (method2_after dm k g).
Proof.
  intros Hg. induction k as [|k IH]; [exact Hg|].
  unfold method2_after in *. cbn [Nat.iter]. apply step_2_bounds, IH.
Qed.
End Method2_bounds.

(** C6, as the code has it.  For every seed [s] with |s| <= 2833, after
    [RandGen_2::Seed(s)] and any number k >= 1 of calls [Eval()], the state
    satisfies m in [100, 9973), i in [10000, 99991) and j in [128000, 224729).
    ([Seed] only raises values that are too small; [step_2_bounds] is the
    underlying fact that [Eval] keeps a state that is within the bounds
    within them.) *)
Theorem method2_bounds_after_seed (dm : long_model) (s : Z) (k : nat)
  (g : RandGen_2.state) :
  Z.abs s <= 2833 -> (1 <= k)%nat ->
  method2_bounds (method2_after dm k (RandGen_2.Seed dm s g)).
Proof.
  intros Hs Hk. destruct k as [|k]; [lia|].
  unfold method2_after. rewrite Nat.iter_succ_r.
  apply method2_after_bounds, Seed_2_first_step, Hs.
Qed.

Lemma method2_bounds_after_seed_witness :
  Z.abs 690 <= 2833 /\ (1 <= 6)%nat /\
  method2_bounds
    (method2_after Long32 6
       (RandGen_2.Seed Long32 690
          {| RandGen_2.r := 0; RandGen_2.m := 0; RandGen_2.i := 0; RandGen_2.j := 0 |})).
Proof.
  split; [lia|]. split; [lia|].
  apply (method2_bounds_after_seed Long32 690 6); lia.
Defined.

(** C6 as stated fails: after [Seed(3000)] and one call [Eval()], m = 11136,
    which is not below 9973. *)
Lemma method2_bounds_counterexample :
  ~ method2_bounds
      (method2_after Long64 1
         (RandGen_2.Seed Long64 3000
            {| RandGen_2.r := 0; RandGen_2.m := 0; RandGen_2.i := 0; RandGen_2.j := 0 |})).
Proof.
  unfold method2_bounds. vm_compute. intros [[_ H] _]. discriminate H.
Qed.

(** ** Method 1: every table access stays within [shuffle[1..97]] *)

Section Method1_access.
Variable dm : long_model.

Lemma Eval_loop_1_defined (cnt : nat) :
  forall (array : list float32) (p : nat) (g : RandGen_1.state),
    RandGen_1.wf g -> (p + cnt <= length array)%nat ->
    exists array' g',
      RandGen_1.Eval_loop dm cnt array (Z.of_nat p) g = Some (array', g') /\
      RandGen_1.wf g' /\
      RandGen_1.shuffle g' !! 0%nat = RandGen_1.shuffle g !! 0%nat.
Proof.
  induction cnt as [|cnt IH]; intros array p g Hwf Hlen.
  - exists array, g. auto.
  - rewrite Eval_loop_1_fill. cbn [fill].
    change (gen_Eval (generator dm Method1) g) with (RandGen_1.Eval dm g).
    destruct (Eval_1_defined dm g Hwf) as (elem & _ & HE).
    destruct (Eval_1_frame dm g _ _ Hwf HE) as [Hwf' H0].
    rewrite HE. cbn [mbind option_bind].
    rewrite wr_Some by lia. cbn [mbind option_bind].
    rewrite <- Eval_loop_1_fill.
    replace (Z.of_nat p + 1) with (Z.of_nat (S p)) by lia.
    match goal with
    | |- context [RandGen_1.Eval_loop dm cnt ?a _ ?g1] =>
        destruct (IH a (S p) g1) as (a' & g' & HL & Hw & Hs);
          [exact Hwf' | rewrite length_insert; lia |]
    end.
    exists a', g'. split; [exact HL|]. split; [exact Hw|].
    rewrite Hs. exact H0.
Qed.
End Method1_access.

(** C10. In both forms of [RandGen_1::Eval], whatever the value of [index],
    the offset left by the two clamping comparisons lies in [1, 97].  On the
    98-entry table the scalar call therefore succeeds, reading
    [shuffle[offset]] and writing that same slot and no other; the array form
    succeeds as well; [shuffle[0]] keeps its value in both. *)
Theorem Eval_1_offset_in_table (dm : long_model) (g : RandGen_1.state) (n : Z)
  (array : list float32) :
  RandGen_1.wf g -> n <= Z.of_nat (length array) ->
  (forall idx : Z, 1 <= RandGen_1.offset_of dm idx <= 97) /\
  (exists x g',
      RandGen_1.Eval dm g = Some (x, g') /\
      rd (RandGen_1.shuffle g) (RandGen_1.offset_of dm (RandGen_1.index g)) =
        Some (RandGen_1.index g') /\
      RandGen_1.shuffle g' =
        <[Z.to_nat (RandGen_1.offset_of dm (RandGen_1.index g)) := RandGen_1.seed g']>
          (RandGen_1.shuffle g) /\
      RandGen_1.wf g' /\
      RandGen_1.shuffle g' !! 0%nat = RandGen_1.shuffle g !! 0%nat) /\
  (exists array' g',
      RandGen_1.Eval_n dm n array g = Some (array', g') /\
      RandGen_1.wf g' /\
      RandGen_1.shuffle g' !! 0%nat = RandGen_1.shuffle g !! 0%nat).
Proof.
  intros Hwf Hn. split; [apply offset_of_range|]. split.
  - destruct (Eval_1_defined dm g Hwf) as (elem & Hrd & HE).
    destruct (Eval_1_frame dm g _ _ Hwf HE) as [Hwf' H0].
    eexists _, _. split; [exact HE|]. cbn [RandGen_1.index RandGen_1.shuffle RandGen_1.seed].
    split; [exact Hrd|]. split; [reflexivity|]. split; [exact Hwf'|exact H0].
  - unfold RandGen_1.Eval_n. change 0 with (Z.of_nat 0).
    apply Eval_loop_1_defined; [exact Hwf|lia].
Qed.

Lemma Eval_1_offset_in_table_witness :
  let g := {| RandGen_1.index := 714024; RandGen_1.seed := 1;
              RandGen_1.shuffle := replicate 98 5 |} in
  let array := replicate 3 (S754_zero false) in
  RandGen_1.wf g /\ 3 <= Z.of_nat (length array) /\
  (forall idx : Z, 1 <= RandGen_1.offset_of Long64 idx <= 97) /\
  (exists array' g', RandGen_1.Eval_n Long64 3 array g = Some (array', g')).
Proof.
  intros g array.
  assert (Hwf : RandGen_1.wf g) by reflexivity.
  assert (Hlen : 3 <= Z.of_nat (length array)) by (cbn; lia).
  destruct (Eval_1_offset_in_table Long64 g 3 array Hwf Hlen)
    as (Ho & _ & array' & g' & HE & _).
  split; [exact Hwf|]. split; [exact Hlen|]. split; [exact Ho|].
  exists array', g'. exact HE.
Defined.

(** ** [Perm] on a negative length *)

(** C9, as the code has it.  For every [len] with INT_MIN < len < 0, every
    generator, buffer and state, [Perm(len, perm)] runs neither loop: [perm]
    is returned as it was, and so is the state of the generator, whatever the
    generator is (so [Eval] is not called). *)
Theorem Perm_negative_len (G : RandGen) (len : Z) (perm : list Z)
  (R : list float32) (g : gen_state G) :
  INT_MIN < len < 0 ->
  Perm G len perm R g = Some (perm, g).
Proof.
  unfold INT_MIN. intros Hlen. unfold Perm.
  assert (Z.to_nat len = 0%nat) as -> by lia.
  cbn [Perm_init mbind option_bind].
  unfold isub. rewrite wrapI_small by (unfold is_int, INT_MIN, INT_MAX; lia).
  assert (Z.to_nat (len - 1) = 0%nat) as -> by lia.
  reflexivity.
Qed.

Lemma Perm_negative_len_witness :
  INT_MIN < -1 < 0 /\
  Perm (generator Long32 Method3) (-1) [7; 7; 7] (replicate 20 (S754_zero false))
    {| RandGen_3.ix := 1 |} = Some ([7; 7; 7], {| RandGen_3.ix := 1 |}).
Proof.
  split; [unfold INT_MIN; lia|].
  apply (Perm_negative_len (generator Long32 Method3)). unfold INT_MIN; lia.
Defined.

(** C9 as stated fails at len = INT_MIN: [len - 1] wraps to INT_MAX, the
    shuffle loop is entered, twenty values are drawn and [perm[INT_MAX]] is
    read, outside the buffer. *)
Lemma Perm_negative_len_counterexample :
  ~ (Perm (generator Long32 Method3) (-2147483648) [7; 7; 7]
       (replicate 20 (S754_zero false)) {| RandGen_3.ix := 1 |}
     = Some ([7; 7; 7], {| RandGen_3.ix := 1 |})).
Proof.
  unfold Perm. cbn [Z.to_nat Perm_init mbind option_bind].
  replace (isub (-2147483648) 1) with 2147483647 by (vm_compute; reflexivity).
  change 2147483647 with (Z.succ 2147483646) at 1.
  rewrite Z2Nat.inj_succ by lia.
  generalize (Z.to_nat 2147483646). intros c.
  cbn [Perm_loop]. vm_compute. discriminate.
Qed.

(** ** Method 1: what [Seed] stores *)

Section Method1_seed.
Variable dm : long_model.

Lemma t_spec_range (s : Z) (k : nat) : 0 <= t_spec s k < RandGen_1.M1.
Proof. destruct k; cbn [t_spec]; apply Z.mod_pos_bound; reflexivity. Qed.

Lemma t_spec_S (s : Z) (k : nat) :
  t_spec s (S k) = (RandGen_1.IA * t_spec s k + RandGen_1.IC) mod RandGen_1.M1.
Proof. reflexivity. Qed.

Lemma next_t_spec (t : Z) :
  0 <= t < RandGen_1.M1 ->
  Z.rem (ladd dm (lmul dm RandGen_1.IA t) RandGen_1.IC) RandGen_1.M1 =
  (RandGen_1.IA * t + RandGen_1.IC) mod RandGen_1.M1.
Proof.
  unfold RandGen_1.M1, RandGen_1.IA, RandGen_1.IC, ladd, lmul. intros Ht.
  small. apply Z.rem_mod_nonneg; lia.
Qed.

Lemma Seed_loop_spec (s : Z) (cnt : nat) :
  forall (k : nat) (sh : list Z),
    (k + cnt < length sh)%nat ->
    exists sh',
      RandGen_1.Seed_loop dm cnt (Z.of_nat (S k)) (t_spec s k) sh =
        Some (t_spec s (k + cnt), sh') /\
      length sh' = length sh /\
      (forall j, (j <= k)%nat -> sh' !! j = sh !! j) /\
      (forall j, (k < j <= k + cnt)%nat -> sh' !! j = Some (Z.abs (t_spec s j))).
Proof.
  induction cnt as [|cnt IH]; intros k sh Hlen.
  - exists sh. rewrite Nat.add_0_r. cbn [RandGen_1.Seed_loop].
    repeat split; auto. intros j Hj. lia.
  - cbn [RandGen_1.Seed_loop].
    pose proof (t_spec_range s k) as Hk.
    pose proof (t_spec_range s (S k)) as HSk.
    rewrite next_t_spec by exact Hk.
    rewrite <- t_spec_S.
    unfold RandGen_1.M1 in HSk.
    rewrite ABS_small by lia.
    rewrite wr_Some by lia. cbn [mbind option_bind].
    rewrite Nat2Z.id.
    replace (Z.of_nat (S k) + 1) with (Z.of_nat (S (S k))) by lia.
    destruct (IH (S k) (<[S k := Z.abs (t_spec s (S k))]> sh))
      as (sh' & HL & Hlen' & Hlow & Hhigh); [rewrite length_insert; lia|].
    exists sh'. replace (k + S cnt)%nat with (S k + cnt)%nat by lia.
    split; [exact HL|]. split; [rewrite Hlen', length_insert; reflexivity|].
    split.
    + intros j Hj. rewrite Hlow by lia. apply list_lookup_insert_ne. lia.
    + intros j Hj. destruct (decide (j = S k)) as [->|Hne].
      * rewrite Hlow by lia. apply list_lookup_insert_eq. lia.
      * apply Hhigh. lia.
Qed.

(** What [Seed(s)] does when IC + |s| + 1 does not overflow: the table and
    [index] are as the specification says, the member [seed] is not
    assigned. *)
Lemma Seed_1_spec (s : Z) (g : RandGen_1.state) :
  RandGen_1.wf g -> Z.abs s <= 2147332757 ->
  exists g',
    RandGen_1.Seed dm s g = Some g' /\
    RandGen_1.wf g' /\
    (forall k, (1 <= k <= 97)%nat ->
       RandGen_1.shuffle g' !! k = Some (Z.abs (t_spec s k))) /\
    RandGen_1.shuffle g' !! 0%nat = RandGen_1.shuffle g !! 0%nat /\
    RandGen_1.index g' = Z.abs (t_spec s 98) /\
    RandGen_1.seed g' = RandGen_1.seed g.
Proof.
  intros Hwf Hs. unfold RandGen_1.wf in Hwf. unfold RandGen_1.Seed.
  assert (Z.rem (ladd dm (ladd dm RandGen_1.IC (ABS dm s)) 1) RandGen_1.M1
          = t_spec s 0) as ->.
  { cbn [t_spec]. unfold RandGen_1.IC, RandGen_1.M1, ladd.
    rewrite ABS_small by lia. small. apply Z.rem_mod_nonneg; lia. }
  destruct (Seed_loop_spec s 97 0 (RandGen_1.shuffle g))
    as (sh' & HL & Hlen' & Hlow & Hhigh); [lia|].
  change (Z.of_nat 1) with 1 in HL. rewrite Nat.add_0_l in HL.
  rewrite HL. cbn [mbind option_bind].
  eexists. split; [reflexivity|].
  cbn [RandGen_1.shuffle RandGen_1.index RandGen_1.seed].
  pose proof (t_spec_range s 97) as H97.
  pose proof (t_spec_range s 98) as H98.
  rewrite next_t_spec by exact H97.
  rewrite <- (t_spec_S s 97).
  unfold RandGen_1.M1 in H98. rewrite ABS_small by lia.
  split; [unfold RandGen_1.wf; cbn [RandGen_1.shuffle]; lia|].
  split; [intros k Hk; apply Hhigh; lia|].
  split; [apply Hlow; lia|]. split; reflexivity.
Qed.

(** After [Seed], for any argument, the 97 active entries are
    non-negative. *)
Lemma Seed_loop_nonneg (cnt : nat) :
  forall (k : nat) (t : Z) (sh : list Z),
    (k + cnt < length sh)%nat ->
    exists t' sh',
      RandGen_1.Seed_loop dm cnt (Z.of_nat (S k)) t sh = Some (t', sh') /\
      length sh' = length sh /\
      (forall j, (j <= k)%nat -> sh' !! j = sh !! j) /\
      (forall j, (k < j <= k + cnt)%nat ->
         exists x, sh' !! j = Some x /\ 0 <= x < RandGen_1.M1).
Proof.
  induction cnt as [|cnt IH]; intros k t sh Hlen.
  - exists t, sh. cbn [RandGen_1.Seed_loop].
    repeat split; auto. intros j Hj. lia.
  - cbn [RandGen_1.Seed_loop].
    set (t1 := Z.rem _ RandGen_1.M1).
    assert (Ht1 : - RandGen_1.M1 < t1 < RandGen_1.M1).
    { subst t1. pose proof (Z.rem_bound_abs (ladd dm (lmul dm RandGen_1.IA t) RandGen_1.IC)
        RandGen_1.M1 ltac:(discriminate)) as Hb.
      unfold RandGen_1.M1 in *. lia. }
    unfold RandGen_1.M1 in Ht1.
    rewrite ABS_small by lia.
    rewrite wr_Some by lia. cbn [mbind option_bind].
    rewrite Nat2Z.id.
    replace (Z.of_nat (S k) + 1) with (Z.of_nat (S (S k))) by lia.
    destruct (IH (S k) t1 (<[S k := Z.abs t1]> sh))
      as (t' & sh' & HL & Hlen' & Hlow & Hhigh); [rewrite length_insert; lia|].
    exists t', sh'.
    split; [exact HL|]. split; [rewrite Hlen', length_insert; reflexivity|].
    split.
    + intros j Hj. rewrite Hlow by lia. apply list_lookup_insert_ne. lia.
    + intros j Hj. destruct (decide (j = S k)) as [->|Hne].
      * exists (Z.abs t1). split; [|unfold RandGen_1.M1; lia].
        rewrite Hlow by lia. apply list_lookup_insert_eq. lia.
      * apply Hhigh. lia.
Qed.
End Method1_seed.

Lemma Seed_1_spec_witness :
  RandGen_1.wf (method1_instance 5) /\ Z.abs 1 <= 2147332757 /\
  exists g',
    RandGen_1.Seed Long32 1 (method1_instance 5) = Some g' /\
    RandGen_1.index g' = Z.abs (t_spec 1 98) /\
    RandGen_1.seed g' = 5.
Proof.
  assert (Hwf : RandGen_1.wf (method1_instance 5)) by reflexivity.
  assert (Hs : Z.abs 1 <= 2147332757) by lia.
  split; [exact Hwf|]. split; [exact Hs|].
  destruct (Seed_1_spec Long32 1 (method1_instance 5) Hwf Hs)
    as (g' & HS & _ & _ & _ & Hi & Hseed).
  exists g'. split; [exact HS|]. split; [exact Hi|exact Hseed].
Defined.

(** ** Method 1: the member [seed] after [Seed] *)

(** C2, evaluated.  On an instance whose member [seed] holds 5, [Seed(1)]
    fills the table and sets [index] to |t_98| = 231763 as the specification
    says, but the member [seed] still holds 5: line 94 assigns the
    parameter of the same name. *)
Theorem Seed_1_keeps_member_seed (dm : long_model) :
  exists g',
    RandGen_1.Seed dm 1 (method1_instance 5) = Some g' /\
    RandGen_1.shuffle g' !! 1%nat = Some (Z.abs (t_spec 1 1)) /\
    RandGen_1.shuffle g' !! 97%nat = Some (Z.abs (t_spec 1 97)) /\
    Z.abs (t_spec 1 98) = 231763 /\
    RandGen_1.index g' = 231763 /\
    RandGen_1.seed g' = 5.
Proof.
  destruct dm; eexists; (split; [vm_compute; reflexivity|]);
    repeat split; vm_compute; reflexivity.
Qed.

(** C8, evaluated.  On an instance whose member [seed] holds -1000,
    [Seed(1)] followed by one call [Eval()] stores
    (1366 * -1000 + 150889) % 714025 = -501086 in [shuffle[32]]. *)
Theorem Eval_1_stores_negative_entry (dm : long_model) :
  exists g1 x g2,
    RandGen_1.Seed dm 1 (method1_instance (-1000)) = Some g1 /\
    RandGen_1.offset_of dm (RandGen_1.index g1) = 32 /\
    RandGen_1.Eval dm g1 = Some (x, g2) /\
    RandGen_1.shuffle g2 !! 32%nat = Some (-501086).
Proof.
  destruct dm; eexists _, _, _; (split; [vm_compute; reflexivity|]);
    (split; [vm_compute; reflexivity|]);
    (split; [vm_compute; reflexivity|]); vm_compute; reflexivity.
Qed.

(** C1, evaluated.  Two instances of Method 1 whose members [seed] hold 0
    and 1 both receive [Seed(1)]; their first five results agree and the
    sixth differs (about 0.46377 against 0.82053). *)
Theorem seeded_draws_1_depend_on_old_seed (dm : long_model) :
  seeded_draws (generator dm Method1) 1 6 (method1_instance 0) =
    Some [S754_finite false 11242674 (-24); S754_finite false 14451406 (-27);
          S754_finite false 11789700 (-28); S754_finite false 12689060 (-24);
          S754_finite false 13091229 (-28); S754_finite false 15561436 (-25)] /\
  seeded_draws (generator dm Method1) 1 6 (method1_instance 1) =
    Some [S754_finite false 11242674 (-24); S754_finite false 14451406 (-27);
          S754_finite false 11789700 (-28); S754_finite false 12689060 (-24);
          S754_finite false 13091229 (-28); S754_finite false 13766172 (-24)].
Proof. destruct dm; split; vm_compute; reflexivity. Qed.

(** For Methods 2 and 3 [Seed] assigns every data member, so the sequence
    after [Seed(s)] does not depend on the state the instance was in. *)
Lemma seeded_draws_23_deterministic (dm : long_model) (s : Z) (N : nat)
  (g1 g2 : RandGen_2.state) (h1 h2 : RandGen_3.state) :
  seeded_draws (generator dm Method2) s N g1 = seeded_draws (generator dm Method2) s N g2 /\
  seeded_draws (generator dm Method3) s N h1 = seeded_draws (generator dm Method3) s N h2.
Proof. split; reflexivity. Qed.

Lemma Eval_n_is_n_scalar_calls_witness :
  let array := replicate 4 (S754_zero false) in
  let g : gen_state (generator Long32 Method3) := {| RandGen_3.ix := 1 |} in
  3 <= Z.of_nat (length array) /\
  gen_Eval_n (generator Long32 Method3) 3 array g =
    Some ([S754_finite false 8605184 (-40); S754_finite false 8827352 (-26);
           S754_finite false 12676954 (-24); S754_zero false],
          {| RandGen_3.ix := 1622650073 |}).
Proof.
  intros array g.
  assert (Hlen : 3 <= Z.of_nat (length array)) by (cbn; lia).
  split; [exact Hlen|].
  rewrite (proj1 (Eval_n_is_n_scalar_calls Long32 Method3 3 array g Hlen)).
  vm_compute. reflexivity.
Defined.

(** ** Rounding to nearest: an upper bound is kept *)

Lemma dle_scale (z m e m' e' : Z) :
  z <= e -> z <= e' ->
  dle m e m' e' <-> m * 2 ^ (e - z) <= m' * 2 ^ (e' - z).
Proof.
  intros He He'. unfold dle.
  set (k := Z.min e e').
  assert (Hk : 0 <= k - z) by lia.
  replace (e - z) with ((e - k) + (k - z)) by lia.
  replace (e' - z) with ((e' - k) + (k - z)) by lia.
  rewrite !Z.pow_add_r by lia.
  pose proof (Z.pow_pos_nonneg 2 (k - z) ltac:(lia) Hk) as Hp.
  rewrite !Z.mul_assoc. split; intros H.
  - apply Z.mul_le_mono_nonneg_r; lia.
  - apply Z.mul_le_mono_pos_r in H; lia.
Qed.

Lemma digits2_pos_bounds (m : positive) :
  2 ^ (Zpos (digits2_pos m) - 1) <= Zpos m < 2 ^ Zpos (digits2_pos m).
Proof.
  induction m as [m IH|m IH|]; cbn [digits2_pos].
  - rewrite Pos2Z.inj_succ, Pos2Z.inj_xI.
    replace (Z.succ (Zpos (digits2_pos m)) - 1) with (Z.succ (Zpos (digits2_pos m) - 1)) by lia.
    rewrite !Z.pow_succ_r by lia.
    generalize dependent (2 ^ (Zpos (digits2_pos m) - 1)).
    generalize (2 ^ Zpos (digits2_pos m)). intros; lia.
  - rewrite Pos2Z.inj_succ. change (Zpos m~0) with (2 * Zpos m).
    replace (Z.succ (Zpos (digits2_pos m)) - 1) with (Z.succ (Zpos (digits2_pos m) - 1)) by lia.
    rewrite !Z.pow_succ_r by lia.
    generalize dependent (2 ^ (Zpos (digits2_pos m) - 1)).
    generalize (2 ^ Zpos (digits2_pos m)). intros; lia.
  - cbn. lia.
Qed.

Lemma Zdigits2_unique (m d : Z) :
  2 ^ (d - 1) <= m < 2 ^ d -> 0 < m -> Zdigits2 m = d.
Proof.
  intros Hd Hm. destruct m as [|p|p]; try lia. cbn [Zdigits2].
  pose proof (digits2_pos_bounds p) as Hp.
  set (d' := Zpos (digits2_pos p)) in *.
  assert (0 < d) by (destruct (Z.ltb_spec 0 d); [lia|]; rewrite (Z.pow_neg_r 2 (d - 1)) in Hd by lia;
                     destruct (Z.eqb_spec d 0); [subst; cbn in Hd; lia| rewrite (Z.pow_neg_r 2 d) in Hd by lia; lia]).
  destruct (Z.lt_trichotomy d' d) as [Hlt|[Heq|Hgt]]; [|exact Heq|].
  - assert (2 ^ d' <= 2 ^ (d - 1)) by (apply Z.pow_le_mono_r; lia). lia.
  - assert (2 ^ d <= 2 ^ (d' - 1)) by (apply Z.pow_le_mono_r; lia). lia.
Qed.

Lemma iter_pos_nat {A} (f : A -> A) (p : positive) :
  forall x, SpecFloat.iter_pos f p x = Nat.iter (Pos.to_nat p) f x.
Proof.
  induction p as [p IH|p IH|]; intros x; cbn [SpecFloat.iter_pos].
  - rewrite !IH, Pos2Nat.inj_xI.
    replace (S (2 * Pos.to_nat p)) with (Pos.to_nat p + (Pos.to_nat p + 1))%nat by lia.
    rewrite !Nat.iter_add. reflexivity.
  - rewrite !IH, Pos2Nat.inj_xO.
    replace (2 * Pos.to_nat p)%nat with (Pos.to_nat p + Pos.to_nat p)%nat by lia.
    rewrite Nat.iter_add. reflexivity.
  - reflexivity.
Qed.

Lemma shr_1_nonneg (m : Z) (r s : bool) :
  0 <= m ->
  shr_1 (Build_shr_record m r s) = Build_shr_record (m / 2) (Z.odd m) (r || s).
Proof.
  intros Hm. rewrite <- Z.div2_div.
  destruct m as [|[p|p|]|p]; try lia; reflexivity.
Qed.

Lemma iter_shr_1 (k : nat) (m : Z) :
  0 <= m ->
  let mrs := Nat.iter k shr_1 (Build_shr_record m false false) in
  shr_m mrs = m / 2 ^ Z.of_nat k /\
  (m mod 2 ^ Z.of_nat k = 0 -> shr_r mrs = false /\ shr_s mrs = false).
Proof.
  intros Hm. induction k as [|k IH]; cbn zeta.
  - cbn. rewrite Z.div_1_r. auto.
  - rewrite Nat.iter_succ. cbn zeta in IH. destruct IH as [IHm IHx].
    destruct (Nat.iter k shr_1 _) as [mk rk sk]. cbn [shr_m shr_r shr_s] in *.
    assert (Hpk : 0 < 2 ^ Z.of_nat k) by (apply Z.pow_pos_nonneg; lia).
    assert (Hmk : 0 <= mk) by (subst mk; apply Z.div_pos; lia).
    rewrite shr_1_nonneg by exact Hmk. cbn [shr_m shr_r shr_s].
    rewrite Nat2Z.inj_succ, Z.pow_succ_r by lia.
    split.
    + subst mk. rewrite Z.div_div by lia. f_equal. lia.
    + intros H0.
      apply Z.mod_divide in H0; [|lia]. destruct H0 as [q Hq].
      assert (Hk0 : m mod 2 ^ Z.of_nat k = 0).
      { apply Z.mod_divide; [lia|]. exists (q * 2). lia. }
      destruct (IHx Hk0) as [-> ->].
      assert (Hmk' : mk = 2 * q).
      { subst mk. rewrite Hq.
        replace (q * (2 * 2 ^ Z.of_nat k)) with ((2 * q) * 2 ^ Z.of_nat k) by lia.
        apply Z.div_mul. lia. }
      rewrite Hmk', Z.odd_mul. auto.
Qed.

Lemma round_nearest_even_bounds (m : Z) (l : location) :
  m <= round_nearest_even m l <= m + 1 /\
  (l = loc_Exact -> round_nearest_even m l = m).
Proof.
  destruct l as [|[]]; cbn [round_nearest_even];
    try destruct (Z.even m); split; try lia; try discriminate; auto.
Qed.

Section Round.
Variables prec emax : Z.
Hypothesis Hprec : 0 < prec.
Hypothesis Hmax : prec < emax.

Local Abbreviation fexp := (SpecFloat.fexp prec emax).
Local Abbreviation emin := (SpecFloat.emin prec emax).

Lemma fexp_mono (a b : Z) : a <= b -> fexp a <= fexp b.
Proof. unfold SpecFloat.fexp. lia. Qed.

Lemma emin_nonpos : emin <= 0.
Proof. unfold SpecFloat.emin. lia. Qed.

Lemma bounded_facts (m : positive) (e : Z) :
  bounded prec emax m e = true ->
  fexp (Zpos (digits2_pos m) + e) = e /\ e <= emax - prec /\
  Zpos (digits2_pos m) <= prec /\ emin <= e /\
  (e = emin \/ Zpos (digits2_pos m) = prec).
Proof.
  unfold bounded, canonical_mantissa. intros H.
  apply andb_prop in H. destruct H as [Hc He].
  apply Z.eqb_eq in Hc. apply Z.leb_le in He.
  split; [exact Hc|]. split; [exact He|].
  unfold SpecFloat.fexp in Hc. lia.
Qed.

Lemma shr_fexp_exact (m e : Z) :
  0 < m -> e <= fexp (Zdigits2 m + e) ->
  exists mrs,
    shr_fexp prec emax m e loc_Exact = (mrs, fexp (Zdigits2 m + e)) /\
    shr_m mrs = m / 2 ^ (fexp (Zdigits2 m + e) - e) /\
    (m mod 2 ^ (fexp (Zdigits2 m + e) - e) = 0 ->
     loc_of_shr_record mrs = loc_Exact).
Proof.
  intros Hm He. unfold shr_fexp, shr. cbn [shr_record_of_loc].
  set (e' := fexp (Zdigits2 m + e)) in *.
  destruct (e' - e) as [|p|p] eqn:Hn; try lia.
  - exists (Build_shr_record m false false).
    split; [f_equal; lia|]. cbn [shr_m]. rewrite Z.div_1_r. auto.
  - exists (SpecFloat.iter_pos shr_1 p (Build_shr_record m false false)).
    split; [f_equal; lia|]. rewrite iter_pos_nat.
    destruct (iter_shr_1 (Pos.to_nat p) m ltac:(lia)) as [H1 H2].
    rewrite positive_nat_Z in H1, H2.
    split; [exact H1|]. intros H0. destruct (H2 H0) as [Hr Hs].
    destruct (Nat.iter _ _ _) as [mk rk sk]. cbn in Hr, Hs. subst. reflexivity.
Qed.

(** Rounding a positive dyadic number that is at most a number [B] of the
    format gives a number of the format that is at most [B]. *)
Lemma binary_round_aux_le (sx : bool) (mx : positive) (ex : Z)
  (mb : positive) (eb : Z) :
  ex <= fexp (Zdigits2 (Zpos mx) + ex) ->
  bounded prec emax mb eb = true ->
  dle (Zpos mx) ex (Zpos mb) eb ->
  bounded_by prec emax sx mb eb
    (binary_round_aux prec emax sx (Zpos mx) ex loc_Exact).
Proof.
  intros Hpre HB Hle.
  destruct (bounded_facts mb eb HB) as (HBc & HBe & HBd & HBm & _).
  pose proof (digits2_pos_bounds mx) as Hdx.
  pose proof (digits2_pos_bounds mb) as Hdb.
  cbn [Zdigits2] in Hpre.
  set (d := Zpos (digits2_pos mx)) in *.
  set (db := Zpos (digits2_pos mb)) in *.
  set (e1 := fexp (d + ex)) in *.
  (* (a) the exponent after the first shift is at most [eb] *)
  assert (Hde : d + ex <= db + eb).
  { unfold dle in Hle. set (z := Z.min ex eb) in *.
    assert (H1 : 2 ^ (d - 1) * 2 ^ (ex - z) <= Zpos mx * 2 ^ (ex - z))
      by (apply Z.mul_le_mono_nonneg_r; [apply Z.pow_nonneg|]; lia).
    assert (H2 : Zpos mb * 2 ^ (eb - z) < 2 ^ db * 2 ^ (eb - z))
      by (apply Z.mul_lt_mono_pos_r; [apply Z.pow_pos_nonneg|]; lia).
    rewrite <- !Z.pow_add_r in * by lia.
    assert (H3 : 2 ^ (d - 1 + (ex - z)) < 2 ^ (db + (eb - z))) by lia.
    apply Z.pow_lt_mono_r_iff in H3; lia. }
  assert (He1 : e1 <= eb) by (rewrite <- HBc; apply fexp_mono; exact Hde).
  assert (Hemin : emin <= e1) by (subst e1; unfold SpecFloat.fexp; lia).
  set (n := e1 - ex).
  assert (Hn : 0 <= n) by lia.
  assert (Hpn : 0 < 2 ^ n) by (apply Z.pow_pos_nonneg; lia).
  set (c := Zpos mb * 2 ^ (eb - e1)).
  assert (Hc : Zpos mx <= c * 2 ^ n).
  { apply (dle_scale ex) in Hle; [|lia|lia]. rewrite Z.sub_diag, Z.mul_1_r in Hle.
    subst c n. rewrite <- Z.mul_assoc, <- Z.pow_add_r by lia.
    replace (eb - e1 + (e1 - ex)) with (eb - ex) by lia. exact Hle. }
  destruct (shr_fexp_exact (Zpos mx) ex ltac:(lia) Hpre) as (mrs1 & Hs1 & Hm1 & Hx1).
  cbn [Zdigits2] in Hs1, Hm1, Hx1. fold d e1 n in Hs1, Hm1, Hx1.
  unfold binary_round_aux. rewrite Hs1.
  set (m1 := shr_m mrs1) in *.
  pose proof (round_nearest_even_bounds m1 (loc_of_shr_record mrs1)) as [Hq Hqx].
  set (q := round_nearest_even m1 (loc_of_shr_record mrs1)) in *.
  assert (Hm1pos : 0 <= m1) by (rewrite Hm1; apply Z.div_pos; lia).
  (* (b) the rounded mantissa is at most [c] *)
  assert (Hqc : q <= c).
  { destruct (Z.eq_dec (Zpos mx mod 2 ^ n) 0) as [H0|H0].
    - rewrite (Hqx (Hx1 H0)), Hm1. apply Z.div_le_upper_bound; lia.
    - assert (m1 < c); [|lia]. rewrite Hm1. apply Z.div_lt_upper_bound; [lia|].
      assert (Zpos mx <> 2 ^ n * c); [|lia].
      intros Heq. apply H0. rewrite Heq, Z.mul_comm. apply Z.mod_mul. lia. }
  (* (c) the shifted mantissa has at most [prec] digits *)
  assert (Hm1lt : m1 < 2 ^ prec).
  { rewrite Hm1. apply Z.div_lt_upper_bound; [lia|].
    rewrite <- Z.pow_add_r by lia.
    assert (2 ^ d <= 2 ^ (n + prec)); [|lia].
    apply Z.pow_le_mono_r; [lia|]. subst n e1. unfold SpecFloat.fexp. lia. }
  (* (d) and exactly [prec] digits above the smallest exponent *)
  assert (Hm1ge : emin < e1 -> 2 ^ (prec - 1) <= m1).
  { intros Hgt. assert (Hnd : n = d - prec) by (subst n e1; unfold SpecFloat.fexp in *; lia).
    rewrite Hm1. apply Z.div_le_lower_bound; [lia|].
    rewrite <- Z.pow_add_r by lia. replace (n + (prec - 1)) with (d - 1) by lia. lia. }
  assert (Hpp : 2 ^ prec = 2 * 2 ^ (prec - 1)).
  { replace prec with (Z.succ (prec - 1)) at 1 by lia. apply Z.pow_succ_r. lia. }
  assert (Hpp' : 0 < 2 ^ (prec - 1)) by (apply Z.pow_pos_nonneg; lia).
  destruct (Z.eq_dec q 0) as [Hq0|Hq0].
  { (* the result is a zero *)
    rewrite Hq0. unfold shr_fexp, shr. cbn [Zdigits2 shr_record_of_loc].
    destruct (fexp (0 + e1) - e1) as [|p|p] eqn:Hn2;
      [| unfold SpecFloat.fexp in Hn2; lia |]; cbn [shr_m bounded_by]; exact I. }
  assert (Hqpos : 0 < q) by lia.
  destruct (Z.eq_dec q (2 ^ prec)) as [Hq2|Hq2].
  - (* the mantissa overflowed to 2^prec: one more shift *)
    assert (Hdq : Zdigits2 q = prec + 1).
    { apply Zdigits2_unique; [|lia]. rewrite Hq2. replace (prec + 1 - 1) with prec by lia.
      split; [lia|]. apply Z.pow_lt_mono_r; lia. }
    assert (He2 : fexp (Zdigits2 q + e1) = e1 + 1)
      by (rewrite Hdq; unfold SpecFloat.fexp; lia).
    destruct (shr_fexp_exact q e1 Hqpos ltac:(lia)) as (mrs2 & Hs2 & Hm2 & _).
    rewrite Hs2, Hm2, He2. replace (e1 + 1 - e1) with 1 by lia.
    rewrite Hq2, Hpp, Z.pow_1_r, Z.mul_comm, Z.div_mul by lia.
    assert (Hlt : e1 + 1 <= eb).
    { destruct (Z.le_gt_cases (e1 + 1) eb) as [|Hgt]; [assumption|].
      assert (eb = e1) by lia. subst c. replace (eb - e1) with 0 in Hqc by lia.
      rewrite Z.pow_0_r, Z.mul_1_r in Hqc.
      assert (2 ^ db <= 2 ^ prec) by (apply Z.pow_le_mono_r; lia). lia. }
    destruct (2 ^ (prec - 1)) as [|p2|p2] eqn:Hp2; try lia.
    destruct (Z.leb_spec (e1 + 1) (emax - prec)) as [_|Hbad]; [|lia].
    cbn [bounded_by]. split; [reflexivity|]. split.
    + unfold bounded, canonical_mantissa.
      assert (Hd2 : Zpos (digits2_pos p2) = prec).
      { change (Zpos (digits2_pos p2)) with (Zdigits2 (Zpos p2)).
        apply Zdigits2_unique; [|lia]. rewrite <- Hp2. lia. }
      rewrite Hd2. apply andb_true_intro. split.
      * apply Z.eqb_eq. unfold SpecFloat.fexp. lia.
      * apply Z.leb_le. lia.
    + apply (dle_scale (e1 + 1)); [lia|lia|].
      rewrite Z.sub_diag, Z.mul_1_r.
      subst c. rewrite Hq2, Hpp in Hqc.
      replace (eb - e1) with (Z.succ (eb - (e1 + 1))) in Hqc by lia.
      rewrite Z.pow_succ_r in Hqc by lia. lia.
  - (* the mantissa fits: no second shift *)
    assert (Hqlt : q < 2 ^ prec) by lia.
    assert (Hdq : Zdigits2 q <= prec).
    { destruct q as [|pq|pq]; try lia. cbn [Zdigits2].
      pose proof (digits2_pos_bounds pq) as Hpq.
      destruct (Z.le_gt_cases (Zpos (digits2_pos pq)) prec) as [|Hgt]; [assumption|].
      assert (2 ^ prec <= 2 ^ (Zpos (digits2_pos pq) - 1)) by (apply Z.pow_le_mono_r; lia).
      lia. }
    assert (He2 : fexp (Zdigits2 q + e1) = e1).
    { destruct (Z.eq_dec e1 emin) as [Hem|Hem].
      - unfold SpecFloat.fexp. lia.
      - assert (Hqge : 2 ^ (prec - 1) <= q) by (specialize (Hm1ge ltac:(lia)); lia).
        assert (Zdigits2 q = prec); [|unfold SpecFloat.fexp; lia].
        destruct q as [|pq|pq]; try lia. cbn [Zdigits2] in *.
        pose proof (digits2_pos_bounds pq) as Hpq.
        destruct (Z.le_gt_cases prec (Zpos (digits2_pos pq))) as [|Hgt]; [lia|].
        assert (2 ^ Zpos (digits2_pos pq) <= 2 ^ (prec - 1)) by (apply Z.pow_le_mono_r; lia).
        lia. }
    destruct (shr_fexp_exact q e1 Hqpos ltac:(lia)) as (mrs2 & Hs2 & Hm2 & _).
    rewrite Hs2, Hm2, He2, Z.sub_diag, Z.pow_0_r, Z.div_1_r.
    destruct q as [|pq|pq]; try lia.
    destruct (Z.leb_spec e1 (emax - prec)) as [_|Hbad]; [|lia].
    cbn [bounded_by]. split; [reflexivity|]. split.
    + unfold bounded, canonical_mantissa. cbn [Zdigits2] in He2.
      rewrite He2. apply andb_true_intro. split; [apply Z.eqb_refl|apply Z.leb_le; lia].
    + apply (dle_scale e1); [lia|lia|].
      rewrite Z.sub_diag, Z.mul_1_r. exact Hqc.
Qed.

Lemma iter_xO (d m : positive) : Zpos (Pos.iter xO m d) = Zpos m * 2 ^ Zpos d.
Proof.
  induction d as [|d IH] using Pos.peano_ind.
  - cbn [Pos.iter]. lia.
  - rewrite Pos.iter_succ, Pos2Z.inj_xO, IH, Pos2Z.inj_succ, Z.pow_succ_r by lia. lia.
Qed.

Lemma Zdigits2_shift (m : positive) (k : Z) :
  0 <= k -> Zdigits2 (Zpos m * 2 ^ k) = Zpos (digits2_pos m) + k.
Proof.
  intros Hk. pose proof (digits2_pos_bounds m) as Hm.
  assert (0 < 2 ^ k) by (apply Z.pow_pos_nonneg; lia).
  apply Zdigits2_unique; [|lia].
  replace (Zpos (digits2_pos m) + k - 1) with (Zpos (digits2_pos m) - 1 + k) by lia.
  rewrite !Z.pow_add_r by lia. split.
  - apply Z.mul_le_mono_nonneg_r; lia.
  - apply Z.mul_lt_mono_pos_r; lia.
Qed.

Lemma dle_refl (m e : Z) : dle m e m e.
Proof. unfold dle. lia. Qed.

Lemma dle_trans (a ea b eb c ec : Z) :
  dle a ea b eb -> dle b eb c ec -> dle a ea c ec.
Proof.
  intros H1 H2. set (z := Z.min ea (Z.min eb ec)).
  apply (dle_scale z) in H1; [|lia|lia].
  apply (dle_scale z) in H2; [|lia|lia].
  apply (dle_scale z); lia.
Qed.

Lemma dle_mul (a ea b eb c ec d ed : Z) :
  0 <= a -> 0 <= c -> 0 <= b ->
  dle a ea b eb -> dle c ec d ed -> dle (a * c) (ea + ec) (b * d) (eb + ed).
Proof.
  intros Ha Hc Hb H1 H2. unfold dle in H1, H2.
  set (z1 := Z.min ea eb) in *. set (z2 := Z.min ec ed) in *.
  apply (dle_scale (z1 + z2)); [lia|lia|].
  replace (ea + ec - (z1 + z2)) with ((ea - z1) + (ec - z2)) by lia.
  replace (eb + ed - (z1 + z2)) with ((eb - z1) + (ed - z2)) by lia.
  rewrite !Z.pow_add_r by lia.
  assert (0 <= 2 ^ (ea - z1)) by (apply Z.pow_nonneg; lia).
  assert (0 <= 2 ^ (ec - z2)) by (apply Z.pow_nonneg; lia).
  assert (0 <= 2 ^ (eb - z1)) by (apply Z.pow_nonneg; lia).
  assert (0 <= 2 ^ (ed - z2)) by (apply Z.pow_nonneg; lia).
  replace (a * c * (2 ^ (ea - z1) * 2 ^ (ec - z2)))
    with ((a * 2 ^ (ea - z1)) * (c * 2 ^ (ec - z2))) by lia.
  replace (b * d * (2 ^ (eb - z1) * 2 ^ (ed - z2)))
    with ((b * 2 ^ (eb - z1)) * (d * 2 ^ (ed - z2))) by lia.
  apply Z.mul_le_mono_nonneg; lia.
Qed.

Lemma bounded_by_weaken (s : bool) (mb mb' : positive) (eb eb' : Z)
  (x : spec_float) :
  dle (Zpos mb) eb (Zpos mb') eb' ->
  bounded_by prec emax s mb eb x -> bounded_by prec emax s mb' eb' x.
Proof.
  intros Hle. destruct x as [s'|s'| |s' m e]; cbn [bounded_by]; auto.
  intros (Hs & Hb & Hd). repeat split; auto. eapply dle_trans; eassumption.
Qed.

Lemma binary_round_le (sx : bool) (mx : positive) (ex : Z)
  (mb : positive) (eb : Z) :
  bounded prec emax mb eb = true ->
  dle (Zpos mx) ex (Zpos mb) eb ->
  bounded_by prec emax sx mb eb (binary_round prec emax sx mx ex).
Proof.
  intros HB Hle. unfold binary_round, shl_align.
  set (e' := fexp (Zpos (digits2_pos mx) + ex)).
  destruct (e' - ex) as [|p|p] eqn:Hp.
  - apply binary_round_aux_le; [cbn [Zdigits2]; fold e'; lia|exact HB|exact Hle].
  - apply binary_round_aux_le; [cbn [Zdigits2]; fold e'; lia|exact HB|exact Hle].
  - assert (Hz : Zpos (Pos.iter xO mx p) = Zpos mx * 2 ^ (ex - e'))
      by (rewrite iter_xO; f_equal; f_equal; lia).
    apply binary_round_aux_le; [|exact HB|].
    + rewrite Hz, Zdigits2_shift by lia.
      replace (Zpos (digits2_pos mx) + (ex - e') + e') with (Zpos (digits2_pos mx) + ex) by lia.
      fold e'. lia.
    + eapply dle_trans; [|exact Hle]. rewrite Hz.
      apply (dle_scale e'); [lia|lia|]. rewrite Z.sub_diag, Z.mul_1_r. lia.
Qed.

Lemma binary_normalize_le (x : Z) (mb : positive) (eb : Z) :
  0 <= x ->
  bounded prec emax mb eb = true ->
  dle x 0 (Zpos mb) eb ->
  bounded_by prec emax false mb eb (binary_normalize prec emax x 0 false).
Proof.
  intros Hx HB Hle. destruct x as [|p|p]; try lia.
  - exact I.
  - apply binary_round_le; assumption.
Qed.

Lemma SFmul_precondition (mx my : positive) (ex ey : Z) :
  bounded prec emax mx ex = true -> bounded prec emax my ey = true ->
  ex + ey <= fexp (Zdigits2 (Zpos (mx * my)) + (ex + ey)).
Proof.
  intros Hx Hy.
  destruct (bounded_facts mx ex Hx) as (_ & _ & Hdx & Hmx & Hcx).
  destruct (bounded_facts my ey Hy) as (_ & _ & Hdy & Hmy & Hcy).
  pose proof (digits2_pos_bounds mx) as Bx.
  pose proof (digits2_pos_bounds my) as By.
  pose proof (digits2_pos_bounds (mx * my)) as Bxy.
  cbn [Zdigits2].
  set (dx := Zpos (digits2_pos mx)) in *.
  set (dy := Zpos (digits2_pos my)) in *.
  set (d := Zpos (digits2_pos (mx * my))) in *.
  assert (Hd : dx + dy - 1 <= d).
  { rewrite Pos2Z.inj_mul in Bxy.
    assert (2 ^ (dx - 1) * 2 ^ (dy - 1) <= Zpos mx * Zpos my)
      by (apply Z.mul_le_mono_nonneg; try apply Z.pow_nonneg; lia).
    rewrite <- Z.pow_add_r in * by (subst dx dy; lia).
    assert (H3 : 2 ^ (dx - 1 + (dy - 1)) < 2 ^ d) by lia.
    apply Z.pow_lt_mono_r_iff in H3; subst d; lia. }
  pose proof emin_nonpos. unfold SpecFloat.fexp, SpecFloat.emin in *. lia.
Qed.

Lemma SFmul_le (x y : spec_float) (s1 s2 : bool) (b1 b2 mb : positive)
  (f1 f2 eb : Z) :
  bounded_by prec emax s1 b1 f1 x ->
  bounded_by prec emax s2 b2 f2 y ->
  bounded prec emax mb eb = true ->
  dle (Zpos b1 * Zpos b2) (f1 + f2) (Zpos mb) eb ->
  bounded_by prec emax (xorb s1 s2) mb eb (SFmul prec emax x y).
Proof.
  intros Hx Hy HB Hle.
  destruct x as [sx|sx| |sx mx ex]; destruct y as [sy|sy| |sy my ey];
    cbn [bounded_by] in Hx, Hy; try contradiction; cbn [SFmul].
  - exact I.
  - exact I.
  - exact I.
  - destruct Hx as (-> & Hbx & Hdx). destruct Hy as (-> & Hby & Hdy).
    apply binary_round_aux_le; [apply SFmul_precondition; assumption|exact HB|].
    eapply dle_trans; [|exact Hle]. rewrite Pos2Z.inj_mul.
    apply dle_mul; try lia; assumption.
Qed.
End Round.

(** ** Dyadic order and rational values *)

Lemma Qpow2_pos (e : Z) : (0 < 2 ^ e)%Q.
Proof. apply Qpower_0_lt. reflexivity. Qed.

Lemma Qpow2_split (e z : Z) :
  z <= e -> (2 ^ e == inject_Z (2 ^ (e - z)) * 2 ^ z)%Q.
Proof.
  intros Hz. rewrite Zpower_Qpower by lia.
  rewrite <- Qpower_plus by discriminate.
  replace (e - z + z) with e by lia. reflexivity.
Qed.

Lemma dle_Q (m e m' e' : Z) :
  dle m e m' e' <-> (inject_Z m * 2 ^ e <= inject_Z m' * 2 ^ e')%Q.
Proof.
  unfold dle. set (z := Z.min e e').
  rewrite (Qpow2_split e z), (Qpow2_split e' z) by lia.
  rewrite !Qmult_assoc, <- !inject_Z_mult.
  split; intros H.
  - apply Qmult_le_compat_r; [|apply Qlt_le_weak, Qpow2_pos].
    rewrite <- Zle_Qle. exact H.
  - apply Qmult_le_r in H; [|apply Qpow2_pos]. rewrite Zle_Qle. exact H.
Qed.

Lemma bounded_by_finite (prec emax : Z) (s : bool) (mb : positive) (eb : Z)
  (x : spec_float) :
  bounded_by prec emax s mb eb x -> is_finite x = true.
Proof. destruct x; cbn; intros H; try contradiction; reflexivity. Qed.

Lemma bounded_by_nonneg (prec emax : Z) (mb : positive) (eb : Z) (x : spec_float) :
  bounded_by prec emax false mb eb x -> (0 <= F2Q x)%Q.
Proof.
  destruct x as [s|s| |s m e]; cbn [bounded_by F2Q]; intros H; try contradiction.
  - apply Qle_refl.
  - destruct H as (-> & _). cbn [cond_Zopp].
    apply Qmult_le_0_compat; [|apply Qlt_le_weak, Qpow2_pos].
    change 0%Q with (inject_Z 0). rewrite <- Zle_Qle. lia.
Qed.

Lemma bounded_by_F2Q (prec emax : Z) (mb : positive) (eb : Z) (x : spec_float) :
  bounded_by prec emax false mb eb x ->
  (F2Q x <= inject_Z (Zpos mb) * 2 ^ eb)%Q.
Proof.
  destruct x as [s|s| |s m e]; cbn [bounded_by F2Q]; intros H; try contradiction.
  - apply Qmult_le_0_compat; [|apply Qlt_le_weak, Qpow2_pos].
    change 0%Q with (inject_Z 0). rewrite <- Zle_Qle. lia.
  - destruct H as (-> & _ & H). cbn [cond_Zopp]. apply dle_Q. exact H.
Qed.

(** At most 1.0f, and at most the float just below 1.0f. *)
Lemma bounded_by_one (x : spec_float) :
  bounded_by 24 128 false 8388608 (-23) x -> in_unit_closed x /\ is_f32 x.
Proof.
  intros H. split; [split; [|split]|].
  - eapply bounded_by_finite, H.
  - eapply bounded_by_nonneg, H.
  - apply bounded_by_F2Q in H. eapply Qle_trans; [exact H|]. vm_compute. discriminate.
  - destruct x; cbn in H |- *; try contradiction; try reflexivity. apply H.
Qed.

Lemma bounded_by_below_one (x : spec_float) :
  bounded_by 24 128 false 16777215 (-24) x -> in_unit x /\ is_f32 x.
Proof.
  intros H. split; [split; [|split]|].
  - eapply bounded_by_finite, H.
  - eapply bounded_by_nonneg, H.
  - apply bounded_by_F2Q in H. eapply Qle_lt_trans; [exact H|]. vm_compute. reflexivity.
  - destruct x; cbn in H |- *; try contradiction; try reflexivity. apply H.
Qed.

(** The value of [(float)(x * c)] for a [long] x in [0, N] and a positive
    [double] constant c: if N * c is at most a [double] B64, and B64 at most
    a [float] B32, the result is at most B32. *)
Lemma scaled_long_le (x N : Z) (c : float64) (mN mc m64 m32 : positive)
  (eN ec e64 e32 : Z) :
  0 <= x <= N ->
  c = S754_finite false mc ec ->
  bounded 53 1024 mc ec = true ->
  bounded 53 1024 mN eN = true -> dle N 0 (Zpos mN) eN ->
  bounded 53 1024 m64 e64 = true ->
  dle (Zpos mN * Zpos mc) (eN + ec) (Zpos m64) e64 ->
  bounded 24 128 m32 e32 = true -> dle (Zpos m64) e64 (Zpos m32) e32 ->
  bounded_by 24 128 false m32 e32 (f32_of_f64 (f64_mul (f64_of_Z x) c)).
Proof.
  intros Hx -> Hc HN HxN H64 Hprod H32 Hconv.
  assert (Hx64 : bounded_by 53 1024 false mN eN (f64_of_Z x)).
  { apply binary_normalize_le; try lia; [exact HN|].
    eapply dle_trans; [|exact HxN]. unfold dle. rewrite Z.min_id, Z.sub_diag. lia. }
  assert (Hc64 : bounded_by 53 1024 false mc ec (S754_finite false mc ec)).
  { cbn [bounded_by]. repeat split; [exact Hc|apply dle_refl]. }
  pose proof (SFmul_le 53 1024 ltac:(lia) ltac:(lia) _ _ _ _ _ _ _ _ _ _
                Hx64 Hc64 H64 Hprod) as Hp.
  cbn [xorb] in Hp. fold f64_mul in Hp.
  destruct (f64_mul (f64_of_Z x) (S754_finite false mc ec)) as [s|s| |s m e];
    cbn [bounded_by f32_of_f64] in Hp |- *; try contradiction; [exact Hp|].
  destruct Hp as (-> & _ & Hd).
  apply binary_round_le; try lia; [exact H32|].
  eapply dle_trans; [exact Hd|exact Hconv].
Qed.

(** ** The range of the results *)

Ltac by_computation :=
  solve [vm_compute; reflexivity | unfold dle; vm_compute; discriminate].

Lemma scaled_1 (x : Z) :
  0 <= x < RandGen_1.M1 ->
  bounded_by 24 128 false 16777215 (-24)
    (f32_of_f64 (f64_mul (f64_of_Z x) RandGen_1.RM)).
Proof.
  unfold RandGen_1.M1. intros Hx.
  apply (scaled_long_le x 714024 _ 6133419457118208 6613730927656733
           9007198717870080 16777215 (-33) (-72) (-53) (-24));
    [lia | by_computation ..].
Qed.

Lemma scaled_2 (x : Z) :
  0 <= x <= 9999 ->
  bounded_by 24 128 false 8388608 (-23)
    (f32_of_f64 (f64_mul (f64_of_Z x) RandGen_2.scale)).
Proof.
  intros Hx.
  apply (scaled_long_le x 9999 _ 5497008383066112 7379435573033745
           4503599627370496 8388608 (-39) (-66) (-52) (-23));
    [lia | by_computation ..].
Qed.

Lemma scaled_3 (x : Z) :
  0 <= x <= 2147483646 ->
  bounded_by 24 128 false 8388608 (-23)
    (f32_of_f64 (f64_mul (f64_of_Z x) RandGen_3.scale)).
Proof.
  intros Hx.
  apply (scaled_long_le x 2147483646 _ 9007199246352384 4503599629229928
           4503599627370496 8388608 (-22) (-83) (-52) (-23));
    [lia | by_computation ..].
Qed.

Lemma in_unit_weaken (x : spec_float) : in_unit x -> in_unit_closed x.
Proof.
  intros (Hf & H0 & H1). repeat split; auto. apply Qlt_le_weak, H1.
Qed.

Section Range.
Variable dm : long_model.

Lemma Seed_1_table (s : Z) (g : RandGen_1.state) :
  RandGen_1.wf g ->
  exists g',
    RandGen_1.Seed dm s g = Some g' /\ RandGen_1.wf g' /\
    RandGen_1.seed g' = RandGen_1.seed g /\
    forall k, (1 <= k <= 97)%nat ->
      exists x, RandGen_1.shuffle g' !! k = Some x /\ 0 <= x < RandGen_1.M1.
Proof.
  intros Hwf. unfold RandGen_1.wf in Hwf. unfold RandGen_1.Seed.
  set (t0 := Z.rem _ RandGen_1.M1).
  destruct (Seed_loop_nonneg dm 97 0 t0 (RandGen_1.shuffle g))
    as (t' & sh' & HL & Hlen' & _ & Hhigh); [lia|].
  change (Z.of_nat 1) with 1 in HL. rewrite HL. cbn [mbind option_bind].
  eexists. split; [reflexivity|].
  unfold RandGen_1.wf. cbn [RandGen_1.shuffle RandGen_1.seed].
  split; [lia|]. split; [reflexivity|].
  intros k Hk. apply Hhigh. lia.
Qed.

Lemma Eval_good_1 (g : RandGen_1.state) :
  good_state dm Method1 g ->
  exists x g',
    RandGen_1.Eval dm g = Some (x, g') /\ in_unit x /\ is_f32 x /\
    good_state dm Method1 g'.
Proof.
  cbn [good_state]. intros (Hwf & Hseed & Htab).
  destruct (Eval_1_defined dm g Hwf) as (elem & Hrd & HE).
  pose proof (offset_of_range dm (RandGen_1.index g)) as Ho.
  set (o := RandGen_1.offset_of dm (RandGen_1.index g)) in *.
  assert (Helem : 0 <= elem < RandGen_1.M1).
  { apply (Htab (Z.to_nat o)); [lia|].
    unfold rd in Hrd. destruct (_ && _); [exact Hrd|discriminate]. }
  eexists _, _. split; [exact HE|].
  destruct (bounded_by_below_one _ (scaled_1 elem Helem)) as [Hu Hf].
  split; [exact Hu|]. split; [exact Hf|].
  rewrite next_t_spec by exact Hseed.
  set (seed' := (_ mod RandGen_1.M1)).
  assert (Hseed' : 0 <= seed' < RandGen_1.M1)
    by (apply Z.mod_pos_bound; reflexivity).
  unfold RandGen_1.wf in *. cbn [RandGen_1.shuffle RandGen_1.seed].
  split; [rewrite length_insert; exact Hwf|]. split; [exact Hseed'|].
  intros k x Hk Hx.
  destruct (decide (k = Z.to_nat o)) as [->|Hne].
  - rewrite list_lookup_insert_eq in Hx by lia. injection Hx as <-. exact Hseed'.
  - rewrite list_lookup_insert_ne in Hx by congruence. eapply Htab; eassumption.
Qed.

Lemma step_good_2 (g : RandGen_2.state) :
  good_state dm Method2 g -> good_state dm Method2 (RandGen_2.step dm g).
Proof.
  cbn [good_state]. unfold RandGen_2.step, ladd, lsub, lmul.
  destruct g as [r m i j]. cbn [RandGen_2.r RandGen_2.m RandGen_2.i RandGen_2.j].
  intros (Hr & Hm & Hi & Hj).
  rewrite (wrapL_small dm (m + 7)), (wrapL_small dm (i + 1907)),
    (wrapL_small dm (j + 73939)) by lia.
  set (m' := if m + 7 >=? 9973 then _ else _).
  set (i' := if i + 1907 >=? 99991 then _ else _).
  set (j' := if j + 73939 >=? 224729 then _ else _).
  assert (Hm' : 0 <= m' <= 19831)
    by (subst m'; destruct (Z.geb_spec (m + 7) 9973); small; lia).
  assert (Hi' : 0 <= i' <= 99990)
    by (subst i'; destruct (Z.geb_spec (i + 1907) 99991); small; lia).
  assert (Hj' : 0 <= j' <= 224728)
    by (subst j'; destruct (Z.geb_spec (j + 73939) 224729); small; lia).
  assert (Hrm : 0 <= r * m' <= 9999 * 19831) by nia.
  small.
  split; [|auto].
  set (a := r * m' + i' + j') in *.
  assert (Ha : 0 <= a) by (subst a; lia).
  pose proof (Z.rem_bound_pos a 100000 Ha ltac:(lia)) as Hrem.
  split.
  - apply Z.quot_pos; lia.
  - assert (Z.quot (Z.rem a 100000) 10 < 10000); [|lia].
    apply Z.quot_lt_upper_bound; lia.
Qed.

Lemma Eval_good (v : variant) (g : gen_state (generator dm v)) :
  good_state dm v g ->
  exists x g',
    gen_Eval (generator dm v) g = Some (x, g') /\
    in_unit_closed x /\ is_f32 x /\ good_state dm v g'.
Proof.
  destruct v; cbn [generator gen_Eval gen_state] in *; intros Hg.
  - destruct (Eval_good_1 g Hg) as (x & g' & HE & Hu & Hf & Hg').
    exists x, g'. auto using in_unit_weaken.
  - pose proof (step_good_2 g Hg) as Hg'.
    eexists _, _. split; [reflexivity|].
    destruct (bounded_by_one _ (scaled_2 (RandGen_2.r (RandGen_2.step dm g))
                                  (proj1 Hg'))) as [Hu Hf].
    auto.
  - cbn [good_state] in Hg.
    pose proof (step_3_mod dm (RandGen_3.ix g) ltac:(lia)) as Hstep.
    pose proof (Z.mod_pos_bound (RandGen_3.A3 * RandGen_3.ix g) RandGen_3.P3
                  ltac:(reflexivity)) as Hmod.
    unfold RandGen_3.P3, RandGen_3.A3 in Hmod, Hstep.
    eexists _, _. split; [reflexivity|].
    destruct (bounded_by_one _ (scaled_3 (RandGen_3.step dm (RandGen_3.ix g))
                                  ltac:(rewrite Hstep; lia))) as [Hu Hf].
    split; [exact Hu|]. split; [exact Hf|].
    cbn [good_state RandGen_3.ix]. rewrite Hstep. lia.
Qed.

Lemma Seed_good (v : variant) (s : Z) (g : gen_state (generator dm v)) :
  seed_ok dm v s g ->
  exists g1, gen_Seed (generator dm v) s g = Some g1 /\ good_state dm v g1.
Proof.
  destruct v; cbn [generator gen_Seed gen_state seed_ok] in *.
  - intros (Hwf & Hseed).
    destruct (Seed_1_table s g Hwf) as (g' & HS & Hwf' & Hs' & Htab).
    exists g'. split; [exact HS|]. cbn [good_state].
    split; [exact Hwf'|]. split; [rewrite Hs'; exact Hseed|].
    intros k x Hk Hx. destruct (Htab k Hk) as (y & Hy & Hb). congruence.
  - intros Hs. eexists. split; [reflexivity|].
    cbn [good_state]. unfold RandGen_2.Seed, ladd, lmul.
    cbn [RandGen_2.r RandGen_2.m RandGen_2.i RandGen_2.j].
    rewrite (wrapL_small dm (s * 7)), (wrapL_small dm (s * 11)),
      (wrapL_small dm (s * 13)) by lia.
    rewrite !ABS_small by lia.
    repeat match goal with
      | |- context [?a <? ?b] => destruct (Z.ltb_spec a b)
      end; small; lia.
  - intros Hs. eexists. split; [reflexivity|].
    cbn [good_state]. unfold RandGen_3.Seed. cbn [RandGen_3.ix].
    rewrite ABS_small by lia. lia.
Qed.

Lemma draws_good (v : variant) (N : nat) :
  forall g : gen_state (generator dm v),
    good_state dm v g ->
    exists xs g',
      draws (generator dm v) N g = Some (xs, g') /\
      Forall in_unit_closed xs /\ length xs = N /\ good_state dm v g'.
Proof.
  induction N as [|N IH]; intros g Hg.
  - exists [], g. cbn. auto.
  - destruct (Eval_good v g Hg) as (x & g1 & HE & Hu & _ & Hg1).
    destruct (IH g1 Hg1) as (xs & g2 & HD & Hus & Hlen & Hg2).
    exists (x :: xs), g2. cbn [draws]. rewrite HE. cbn [mbind option_bind].
    rewrite HD. cbn [mbind option_bind length].
    split; [reflexivity|]. split; [constructor; assumption|]. split; [lia|exact Hg2].
Qed.
End Range.

(** ** The range of the results, on the runs without overflow *)

Section Fits.
Variable dm : long_model.

Lemma LONG_bounds : LONG_MIN dm <= - 2 ^ 31 /\ 2 ^ 31 - 1 <= LONG_MAX dm.
Proof. unfold LONG_MIN, LONG_MAX. destruct dm; cbn [long_bits]; lia. Qed.

Lemma fitsL_spec (x : Z) : fitsL dm x = true <-> is_long dm x.
Proof. unfold fitsL, is_long. rewrite andb_true_iff, !Z.leb_le. reflexivity. Qed.

Lemma wrapL_is_long (x : Z) : is_long dm x -> wrapL dm x = x.
Proof.
  unfold is_long, LONG_MIN, LONG_MAX, wrapL, wrap.
  destruct dm; cbn [long_bits]; intros Hx; rewrite Z.mod_small; lia.
Qed.

Lemma wrapL_fits (x : Z) : fitsL dm x = true -> wrapL dm x = x.
Proof. intros Hx. apply wrapL_is_long. apply fitsL_spec. exact Hx. Qed.

Lemma ABS_fits_abs (x : Z) : ABS_fits dm x = true -> ABS dm x = Z.abs x.
Proof.
  unfold ABS_fits, ABS, lneg. destruct (Z.gtb_spec x 0) as [Hx|Hx]; intros Hf; [lia|].
  rewrite (wrapL_fits _ Hf). lia.
Qed.

(** Method 1: one call from a state whose member [seed] may still be the
    one [Seed] found. *)
Lemma Eval_range_1 (K : nat) (g : RandGen_1.state) :
  range_inv dm Method1 K g ->
  exists x g',
    RandGen_1.Eval dm g = Some (x, g') /\ in_unit x /\ is_f32 x /\
    good_state dm Method1 g'.
Proof.
  cbn [range_inv]. intros (Hwf & Hseed & Htab).
  destruct (Eval_1_defined dm g Hwf) as (elem & Hrd & HE).
  pose proof (offset_of_range dm (RandGen_1.index g)) as Ho.
  set (o := RandGen_1.offset_of dm (RandGen_1.index g)) in *.
  assert (Helem : 0 <= elem < RandGen_1.M1).
  { apply (Htab (Z.to_nat o)); [lia|].
    unfold rd in Hrd. destruct (_ && _); [exact Hrd|discriminate]. }
  eexists _, _. split; [exact HE|].
  destruct (bounded_by_below_one _ (scaled_1 elem Helem)) as [Hu Hf].
  split; [exact Hu|]. split; [exact Hf|].
  pose proof LONG_bounds as [Hlo Hhi].
  unfold ladd, lmul.
  rewrite (wrapL_is_long (RandGen_1.IA * RandGen_1.seed g))
    by (unfold is_long, RandGen_1.IC in *; lia).
  rewrite wrapL_is_long by (unfold is_long; lia).
  set (seed' := Z.rem _ RandGen_1.M1).
  assert (Hseed' : 0 <= seed' < RandGen_1.M1)
    by (apply Z.rem_bound_pos; [lia|reflexivity]).
  cbn [good_state].
  unfold RandGen_1.wf in *. cbn [RandGen_1.shuffle RandGen_1.seed].
  split; [rewrite length_insert; exact Hwf|]. split; [exact Hseed'|].
  intros k x Hk Hx.
  destruct (decide (k = Z.to_nat o)) as [->|Hne].
  - rewrite list_lookup_insert_eq in Hx by lia. injection Hx as <-. exact Hseed'.
  - rewrite list_lookup_insert_ne in Hx by congruence. eapply Htab; eassumption.
Qed.

Lemma good_range_inv_1 (K : nat) (g : RandGen_1.state) :
  good_state dm Method1 g -> range_inv dm Method1 K g.
Proof.
  cbn [good_state range_inv]. intros (Hwf & Hseed & Htab).
  split; [exact Hwf|]. split; [|exact Htab].
  pose proof LONG_bounds as [_ Hhi].
  unfold RandGen_1.IA, RandGen_1.IC, RandGen_1.M1 in *. lia.
Qed.

(** Method 2: one call whose operations do not overflow, from a state
    with non-negative members. *)
Lemma step_range_2 (g : RandGen_2.state) :
  0 <= RandGen_2.r g -> 0 <= RandGen_2.m g ->
  0 <= RandGen_2.i g -> 0 <= RandGen_2.j g ->
  step_2_fits dm g = true ->
  0 <= RandGen_2.r (RandGen_2.step dm g) <= 9999 /\
  0 <= RandGen_2.m (RandGen_2.step dm g) /\
  0 <= RandGen_2.i (RandGen_2.step dm g) /\
  0 <= RandGen_2.j (RandGen_2.step dm g).
Proof.
  unfold step_2_fits, RandGen_2.step, ladd, lsub, lmul.
  destruct g as [r m i j]. cbn [RandGen_2.r RandGen_2.m RandGen_2.i RandGen_2.j].
  cbv zeta. intros Hr Hm Hi Hj Hfits.
  do 8 (apply andb_true_iff in Hfits; destruct Hfits as [Hfits ?]).
  rewrite (wrapL_fits (m + 7)), (wrapL_fits (i + 1907)),
    (wrapL_fits (j + 73939)) by assumption.
  assert (Hm' : (if m + 7 >=? 9973 then wrapL dm (m + 7 - 9871) else m + 7)
                = (if m + 7 >=? 9973 then m + 7 - 9871 else m + 7)).
  { destruct (m + 7 >=? 9973); [apply wrapL_fits; assumption|reflexivity]. }
  assert (Hi' : (if i + 1907 >=? 99991 then wrapL dm (i + 1907 - 89989) else i + 1907)
                = (if i + 1907 >=? 99991 then i + 1907 - 89989 else i + 1907)).
  { destruct (i + 1907 >=? 99991); [apply wrapL_fits; assumption|reflexivity]. }
  assert (Hj' : (if j + 73939 >=? 224729 then wrapL dm (j + 73939 - 96233)
                 else j + 73939)
                = (if j + 73939 >=? 224729 then j + 73939 - 96233 else j + 73939)).
  { destruct (j + 73939 >=? 224729); [apply wrapL_fits; assumption|reflexivity]. }
  rewrite Hm', Hi', Hj'.
  set (m' := if m + 7 >=? 9973 then _ else _) in *.
  set (i' := if i + 1907 >=? 99991 then _ else _) in *.
  set (j' := if j + 73939 >=? 224729 then _ else _) in *.
  assert (H0m : 0 <= m') by (subst m'; destruct (Z.geb_spec (m + 7) 9973); lia).
  assert (H0i : 0 <= i') by (subst i'; destruct (Z.geb_spec (i + 1907) 99991); lia).
  assert (H0j : 0 <= j') by (subst j'; destruct (Z.geb_spec (j + 73939) 224729); lia).
  rewrite (wrapL_fits (r * m')) by assumption.
  rewrite (wrapL_fits (r * m' + i')) by assumption.
  rewrite (wrapL_fits (r * m' + i' + j')) by assumption.
  split; [|auto].
  set (a := r * m' + i' + j') in *.
  assert (Ha : 0 <= a) by (subst a; nia).
  pose proof (Z.rem_bound_pos a 100000 Ha ltac:(lia)) as Hrem.
  split.
  - apply Z.quot_pos; lia.
  - assert (Z.quot (Z.rem a 100000) 10 < 10000); [|lia].
    apply Z.quot_lt_upper_bound; lia.
Qed.

Lemma Seed_range_2 (s : Z) (g : RandGen_2.state) :
  Seed_2_fits dm s = true ->
  0 <= RandGen_2.r (RandGen_2.Seed dm s g) /\
  0 <= RandGen_2.m (RandGen_2.Seed dm s g) /\
  0 <= RandGen_2.i (RandGen_2.Seed dm s g) /\
  0 <= RandGen_2.j (RandGen_2.Seed dm s g).
Proof.
  unfold Seed_2_fits, RandGen_2.Seed, ladd, lmul.
  cbn [RandGen_2.r RandGen_2.m RandGen_2.i RandGen_2.j].
  cbv zeta. intros Hfits.
  do 10 (apply andb_true_iff in Hfits; destruct Hfits as [Hfits ?]).
  rewrite (wrapL_fits (s * 7)), (wrapL_fits (s * 11)), (wrapL_fits (s * 13))
    by assumption.
  rewrite !ABS_fits_abs by assumption.
  repeat match goal with
    | H : (if ?a <? ?b then _ else _) = true |- _ =>
        destruct (Z.ltb_spec a b); [rewrite (wrapL_fits _ H)|]; clear H
    end; lia.
Qed.

Lemma Eval_range (v : variant) (K : nat) (g : gen_state (generator dm v)) :
  range_inv dm v (S K) g ->
  exists x g',
    gen_Eval (generator dm v) g = Some (x, g') /\
    in_unit_closed x /\ range_inv dm v K g'.
Proof.
  destruct v; cbn [generator gen_Eval gen_state] in *; intros Hg.
  - destruct (Eval_range_1 (S K) g Hg) as (x & g' & HE & Hu & _ & Hg').
    exists x, g'. auto using in_unit_weaken, good_range_inv_1.
  - cbn [range_inv run_2_fits] in Hg. destruct Hg as ((Hr & Hm & Hi & Hj) & Hfits).
    apply andb_true_iff in Hfits. destruct Hfits as [Hstep Hrun].
    destruct (step_range_2 g Hr Hm Hi Hj Hstep) as (Hr' & Hm' & Hi' & Hj').
    eexists _, _. split; [reflexivity|].
    destruct (bounded_by_one _ (scaled_2 (RandGen_2.r (RandGen_2.step dm g)) Hr'))
      as [Hu _].
    split; [exact Hu|]. cbn [range_inv]. split; [lia|exact Hrun].
  - destruct (Eval_good dm Method3 g Hg) as (x & g' & HE & Hu & _ & Hg').
    exists x, g'. auto.
Qed.

Lemma draws_range (v : variant) (N M : nat) :
  forall g : gen_state (generator dm v),
    range_inv dm v (N + M) g ->
    exists xs g',
      draws (generator dm v) N g = Some (xs, g') /\
      Forall in_unit_closed xs /\ length xs = N /\ range_inv dm v M g'.
Proof.
  induction N as [|N IH]; intros g Hg.
  - exists [], g. cbn. auto.
  - destruct (Eval_range v (N + M) g Hg) as (x & g1 & HE & Hu & Hg1).
    destruct (IH g1 Hg1) as (xs & g2 & HD & Hus & Hlen & Hg2).
    exists (x :: xs), g2. cbn [draws]. rewrite HE. cbn [mbind option_bind].
    rewrite HD. cbn [mbind option_bind length].
    split; [reflexivity|]. split; [constructor; assumption|]. split; [lia|exact Hg2].
Qed.

Lemma Seed_range (v : variant) (s : Z) (K : nat) (g : gen_state (generator dm v)) :
  run_ok dm v s K g ->
  exists g1, gen_Seed (generator dm v) s g = Some g1 /\ range_inv dm v K g1.
Proof.
  destruct v; cbn [generator gen_Seed gen_state run_ok] in *.
  - intros (Hwf & _ & Hseed).
    destruct (Seed_1_table dm s g Hwf) as (g' & HS & Hwf' & Hs' & Htab).
    exists g'. split; [exact HS|]. cbn [range_inv].
    split; [exact Hwf'|]. split; [rewrite Hs'; exact Hseed|].
    intros k x Hk Hx. destruct (Htab k Hk) as (y & Hy & Hb). congruence.
  - intros (HS & Hrun). eexists. split; [reflexivity|].
    cbn [range_inv]. split; [exact (Seed_range_2 s g HS)|exact Hrun].
  - intros Hs. eexists. split; [reflexivity|].
    cbn [range_inv]. unfold RandGen_3.Seed. cbn [RandGen_3.ix].
    rewrite ABS_small by lia. lia.
Qed.
End Fits.

(** ** Method 2: the seeds of a 32-bit [long] without overflow *)

Section Method2_fits.
Variable dm : long_model.

Lemma fitsL_small (x : Z) : - 2 ^ 31 <= x <= 2 ^ 31 - 1 -> fitsL dm x = true.
Proof.
  intros Hx. apply fitsL_spec. pose proof (LONG_bounds dm) as [Hlo Hhi].
  unfold is_long. lia.
Qed.

Lemma step_settled_2 (g : RandGen_2.state) :
  settled_2 g -> step_2_fits dm g = true /\ settled_2 (RandGen_2.step dm g).
Proof.
  intros (Hr & Hm & Hi & Hj).
  assert (Hfits : step_2_fits dm g = true).
  { unfold step_2_fits. cbv zeta.
    destruct g as [r m i j]. cbn [RandGen_2.r RandGen_2.m RandGen_2.i RandGen_2.j] in *.
    set (m' := if m + 7 >=? 9973 then _ else _).
    set (i' := if i + 1907 >=? 99991 then _ else _).
    set (j' := if j + 73939 >=? 224729 then _ else _).
    assert (0 <= m' <= 127631) by (subst m'; destruct (Z.geb_spec (m + 7) 9973); lia).
    assert (0 <= i' <= 210000) by (subst i'; destruct (Z.geb_spec (i + 1907) 99991); lia).
    assert (0 <= j' <= 256000)
      by (subst j'; destruct (Z.geb_spec (j + 73939) 224729); lia).
    assert (0 <= r * m' <= 9999 * 127631) by nia.
    rewrite !fitsL_small by lia. reflexivity. }
  split; [exact Hfits|].
  destruct (step_range_2 dm g ltac:(lia) ltac:(lia) ltac:(lia) ltac:(lia) Hfits)
    as (Hr' & _). unfold settled_2. split; [exact Hr'|].
  unfold RandGen_2.step, ladd, lsub.
  destruct g as [r m i j]. cbn [RandGen_2.r RandGen_2.m RandGen_2.i RandGen_2.j] in *.
  rewrite (wrapL_small dm (m + 7)), (wrapL_small dm (i + 1907)),
    (wrapL_small dm (j + 73939)) by lia.
  repeat split;
    repeat match goal with
      | |- context [?a >=? ?b] => destruct (Z.geb_spec a b)
      end; small; lia.
Qed.

Lemma run_settled_2 (N : nat) :
  forall g : RandGen_2.state, settled_2 g -> run_2_fits dm N g = true.
Proof.
  induction N as [|N IH]; intros g Hg; [reflexivity|].
  cbn [run_2_fits]. destruct (step_settled_2 g Hg) as [-> Hg'].
  apply IH, Hg'.
Qed.

Lemma Seed_2_small (s : Z) (g : RandGen_2.state) :
  Z.abs s <= 18232 ->
  Seed_2_fits dm s = true /\
  RandGen_2.Seed dm s g =
    {| RandGen_2.r := Z.abs s;
       RandGen_2.m := if 7 * Z.abs s <? 100 then 7 * Z.abs s + 100 else 7 * Z.abs s;
       RandGen_2.i := if 11 * Z.abs s <? 10000 then 11 * Z.abs s + 10000
                      else 11 * Z.abs s;
       RandGen_2.j := if 13 * Z.abs s <? 128000 then 13 * Z.abs s + 128000
                      else 13 * Z.abs s |}.
Proof.
  intros Hs. split.
  - unfold Seed_2_fits, ABS_fits. cbv zeta.
    repeat match goal with
      | |- context [if ?a <? ?b then _ else _] => destruct (Z.ltb_spec a b)
      | |- context [if ?a >? ?b then _ else _] => destruct (Z.gtb_spec a b)
      end; rewrite !fitsL_small by lia; reflexivity.
  - unfold RandGen_2.Seed, ladd, lmul.
    rewrite (wrapL_small dm (s * 7)), (wrapL_small dm (s * 11)),
      (wrapL_small dm (s * 13)) by lia.
    rewrite !ABS_small by lia.
    replace (Z.abs (s * 7)) with (7 * Z.abs s) by lia.
    replace (Z.abs (s * 11)) with (11 * Z.abs s) by lia.
    replace (Z.abs (s * 13)) with (13 * Z.abs s) by lia.
    repeat match goal with
      | |- context [if ?a <? ?b then _ else _] => destruct (Z.ltb_spec a b)
      end; small; reflexivity.
Qed.

Lemma first_step_2 (a : Z) :
  10000 <= a <= 18232 ->
  let g0 := {| RandGen_2.r := a; RandGen_2.m := 7 * a;
               RandGen_2.i := 11 * a; RandGen_2.j := 13 * a |} in
  step_2_fits dm g0 = true /\ settled_2 (RandGen_2.step dm g0).
Proof.
  intros Ha g0.
  assert (Hp : 0 <= a * (7 * a - 9864) <= 2147000320) by nia.
  assert (Hfits : step_2_fits dm g0 = true).
  { unfold step_2_fits, g0. cbv zeta.
    cbn [RandGen_2.r RandGen_2.m RandGen_2.i RandGen_2.j].
    destruct (Z.geb_spec (7 * a + 7) 9973); [|lia].
    destruct (Z.geb_spec (11 * a + 1907) 99991); [|lia].
    replace (7 * a + 7 - 9871) with (7 * a - 9864) by lia.
    destruct (Z.geb_spec (13 * a + 73939) 224729);
      rewrite !fitsL_small by lia; reflexivity. }
  split; [exact Hfits|].
  destruct (step_range_2 dm g0 ltac:(cbn; lia) ltac:(cbn; lia) ltac:(cbn; lia)
              ltac:(cbn; lia) Hfits) as (Hr' & _).
  unfold settled_2. split; [exact Hr'|].
  unfold RandGen_2.step, ladd, lsub, g0.
  cbn [RandGen_2.r RandGen_2.m RandGen_2.i RandGen_2.j].
  rewrite (wrapL_small dm (7 * a + 7)), (wrapL_small dm (11 * a + 1907)),
    (wrapL_small dm (13 * a + 73939)) by lia.
  repeat split;
    repeat match goal with
      | |- context [?a >=? ?b] => destruct (Z.geb_spec a b)
      end; small; lia.
Qed.

(** With a 32-bit [long] (and so with a wider one) no operation of
    [RandGen_2::Seed(s)] and of any number of calls of [Eval] overflows
    when |s| <= 18232. *)
Lemma Method2_fits_small (s : Z) (N : nat) (g : RandGen_2.state) :
  Z.abs s <= 18232 ->
  Seed_2_fits dm s = true /\ run_2_fits dm N (RandGen_2.Seed dm s g) = true.
Proof.
  intros Hs. destruct (Seed_2_small s g Hs) as [HS ->].
  split; [exact HS|].
  destruct (Z.le_gt_cases (Z.abs s) 9999) as [Hle|Hgt].
  - apply run_settled_2. unfold settled_2.
    cbn [RandGen_2.r RandGen_2.m RandGen_2.i RandGen_2.j].
    repeat match goal with
      | |- context [if ?a <? ?b then _ else _] => destruct (Z.ltb_spec a b)
      end; lia.
  - destruct (Z.ltb_spec (7 * Z.abs s) 100); [lia|].
    destruct (Z.ltb_spec (11 * Z.abs s) 10000); [lia|].
    destruct (Z.ltb_spec (13 * Z.abs s) 128000); [lia|].
    destruct N as [|N]; [reflexivity|]. cbn [run_2_fits].
    destruct (first_step_2 (Z.abs s) ltac:(lia)) as [-> Hg'].
    apply run_settled_2, Hg'.
Qed.
End Method2_fits.

(** The bound is the largest one for a 32-bit [long]: after [Seed(18233)]
    the first [Eval()] computes 18233 * 117767 + 112481 + 214735 =
    2147572927, which is above 2^31 - 1. *)
Lemma Method2_overflow_18233 (g : RandGen_2.state) :
  Seed_2_fits Long32 18233 = true /\
  run_2_fits Long32 1 (RandGen_2.Seed Long32 18233 g) = false.
Proof. split; vm_compute; reflexivity. Qed.

(** For Method 3 the bound on |s| is needed with a 64-bit [long]: a seed
    above 2^31 - 1 is not a state of the generator, and from
    ix = 277144698659481 the first [Eval()] sets ix = 2150353564 without
    overflow and returns a value above 1. *)
Lemma Eval_3_large_seed_64 :
  RandGen_3.ix (snd (RandGen_3.Eval Long64
                  (RandGen_3.Seed Long64 277144698659481 {| RandGen_3.ix := 0 |})))
    = 2150353564 /\
  ~ in_unit_closed (fst (RandGen_3.Eval Long64
                      (RandGen_3.Seed Long64 277144698659481 {| RandGen_3.ix := 0 |}))).
Proof.
  split; [vm_compute; reflexivity|].
  intros (_ & _ & H). vm_compute in H. apply H. reflexivity.
Qed.

(** C5, as the code has it.  [Seed(s)], then [N] draws, then
    [Eval(n, array)], in a run of [run_ok] (Method 1: IC + |s| + 1 does not
    overflow and the first update of the member [seed] is neither negative
    nor too large; Method 2: no operation on [long] overflows; Method 3:
    |s| <= 2^31 - 1): every value returned by the scalar [Eval()] and every
    element stored by [Eval(n, array)] is a finite float of the closed
    range [0, 1]. *)
Theorem draws_in_closed_unit (dm : long_model) (v : variant) (s : Z)
  (g : gen_state (generator dm v)) (N : nat) (n : Z) (array : list float32) :
  run_ok dm v s (N + Z.to_nat n) g -> n <= Z.of_nat (length array) ->
  exists g1 xs g2 array' g3,
    gen_Seed (generator dm v) s g = Some g1 /\
    draws (generator dm v) N g1 = Some (xs, g2) /\
    Forall in_unit_closed xs /\
    gen_Eval_n (generator dm v) n array g2 = Some (array', g3) /\
    Forall in_unit_closed (take (Z.to_nat n) array').
Proof.
  intros Hs Hn.
  destruct (Seed_range dm v s _ g Hs) as (g1 & HS & Hg1).
  destruct (draws_range dm v N (Z.to_nat n) g1 Hg1) as (xs & g2 & HD & Hxs & _ & Hg2).
  rewrite <- (Nat.add_0_r (Z.to_nat n)) in Hg2.
  destruct (draws_range dm v (Z.to_nat n) 0 g2 Hg2) as (ys & g3 & HD' & Hys & Hlen & _).
  exists g1, xs, g2, (ys ++ drop (Z.to_nat n) array), g3.
  split; [exact HS|]. split; [exact HD|]. split; [exact Hxs|].
  split.
  - rewrite Eval_n_fill, fill_batch_spec by exact Hn.
    unfold batch_spec. rewrite HD'. reflexivity.
  - rewrite take_app_length' by (symmetry; exact Hlen). exact Hys.
Qed.

Lemma draws_in_closed_unit_witness :
  let g : gen_state (generator Long32 Method2) :=
    {| RandGen_2.r := 0; RandGen_2.m := 0; RandGen_2.i := 0; RandGen_2.j := 0 |} in
  let array := replicate 2 (S754_zero false) in
  run_ok Long32 Method2 17000 (6 + Z.to_nat 2) g /\ 2 <= Z.of_nat (length array) /\
  exists g1 xs g2 array' g3,
    gen_Seed (generator Long32 Method2) 17000 g = Some g1 /\
    draws (generator Long32 Method2) 6 g1 = Some (xs, g2) /\
    Forall in_unit_closed xs /\
    gen_Eval_n (generator Long32 Method2) 2 array g2 = Some (array', g3) /\
    Forall in_unit_closed (take (Z.to_nat 2) array').
Proof.
  intros g array.
  assert (Hs : run_ok Long32 Method2 17000 (6 + Z.to_nat 2) g)
    by (split; vm_compute; reflexivity).
  assert (Hn : 2 <= Z.of_nat (length array)) by (cbn; lia).
  split; [exact Hs|]. split; [exact Hn|].
  exact (draws_in_closed_unit Long32 Method2 17000 g 6 2 array Hs Hn).
Defined.

(** C5 as stated fails: after [Seed(739806647)] the first [Eval()] of
    Method 3 sets ix = 2147483646 and returns 1.0f, which is not below 1.
    (Method 2 returns 1.0f as the sixth value after [Seed(690)], when
    r = 9999.) *)
Lemma draws_in_unit_counterexample :
  ~ in_unit (fst (RandGen_3.Eval Long32
                    (RandGen_3.Seed Long32 739806647 {| RandGen_3.ix := 0 |}))).
Proof.
  intros (_ & _ & H). vm_compute in H. discriminate H.
Qed.

Lemma Eval_3_returns_one :
  RandGen_3.Eval Long32 (RandGen_3.Seed Long32 739806647 {| RandGen_3.ix := 0 |})
  = (f32_one, {| RandGen_3.ix := 2147483646 |}) /\
  seeded_draws (generator Long32 Method2) 690 6
    {| RandGen_2.r := 0; RandGen_2.m := 0; RandGen_2.i := 0; RandGen_2.j := 0 |}
  = Some [S754_finite false 11397903 (-24); S754_finite false 10275395 (-26);
          S754_finite false 11080782 (-26); S754_finite false 15067447 (-24);
          S754_finite false 11003599 (-25); f32_one].
Proof. split; vm_compute; reflexivity. Qed.

(** ** [Perm]: the candidate index *)

Lemma Q_lt_one (m : positive) (e : Z) :
  (inject_Z (Zpos m) * 2 ^ e < 1)%Q -> e < 0 /\ Zpos m < 2 ^ (- e).
Proof.
  intros H.
  assert (Hn : ~ dle 1 0 (Zpos m) e).
  { intros Hd. apply dle_Q in Hd. apply (Qlt_not_le _ _ H).
    eapply Qle_trans; [|exact Hd]. vm_compute. discriminate. }
  unfold dle in Hn.
  destruct (Z.le_gt_cases 0 e) as [He|He].
  - exfalso. apply Hn. rewrite Z.min_l by lia. rewrite Z.sub_diag, Z.sub_0_r.
    assert (0 < 2 ^ e) by (apply Z.pow_pos_nonneg; lia). cbn. nia.
  - split; [lia|]. rewrite Z.min_r in Hn by lia.
    rewrite Z.sub_diag, Z.pow_0_r, Z.sub_0_l in Hn. lia.
Qed.

Lemma in_unit_bounded_by (R : float32) :
  is_f32 R -> in_unit R -> bounded_by 24 128 false 16777215 (-24) R.
Proof.
  unfold is_f32, in_unit. intros Hv (Hfin & H0 & H1).
  destruct R as [s|s| |s m e]; cbn [is_finite] in Hfin; try discriminate; [exact I|].
  cbn [F2Q valid_binary] in *.
  destruct s.
  { exfalso. cbn [cond_Zopp] in H0.
    assert (Hd : dle 0 0 (- Zpos m) e).
    { apply dle_Q. eapply Qle_trans; [|exact H0]. vm_compute. discriminate. }
    unfold dle in Hd.
    assert (0 < 2 ^ (e - Z.min 0 e)) by (apply Z.pow_pos_nonneg; lia). nia. }
  cbn [cond_Zopp] in H1. apply Q_lt_one in H1. destruct H1 as [He Hm].
  destruct (bounded_facts 24 128 m e Hv) as (Hc & _ & Hd & _ & _).
  pose proof (digits2_pos_bounds m) as Hdm.
  set (d := Zpos (digits2_pos m)) in *.
  assert (Hde : d + e <= 0).
  { assert (H3 : 2 ^ (d - 1) < 2 ^ (- e)) by lia.
    apply Z.pow_lt_mono_r_iff in H3; lia. }
  assert (He24 : e <= -24) by (unfold fexp, emin in Hc; lia).
  cbn [bounded_by]. split; [reflexivity|]. split; [exact Hv|].
  apply (dle_scale e); [lia|lia|]. rewrite Z.sub_diag, Z.mul_1_r.
  assert (2 ^ d <= 2 ^ 24) by (apply Z.pow_le_mono_r; lia).
  assert (0 < 2 ^ (-24 - e)) by (apply Z.pow_pos_nonneg; lia).
  change (2 ^ 24) with 16777216 in *. nia.
Qed.

(** [(int)( (i + 1) * R )] is defined and non-negative for R in [0,1). *)
Lemma trunc_scaled (i1 : Z) (R : float32) :
  1 <= i1 <= INT_MAX -> is_f32 R -> in_unit R ->
  exists k, f32_to_int (f32_mul (f32_of_Z i1) R) = Some k /\ 0 <= k.
Proof.
  unfold INT_MAX. intros Hi Hv Hu.
  assert (Hx : bounded_by 24 128 false 8388608 8 (f32_of_Z i1)).
  { apply binary_normalize_le; try lia; [reflexivity|].
    apply (dle_scale 0); [lia|lia|]. cbn. lia. }
  pose proof (in_unit_bounded_by R Hv Hu) as HR.
  assert (Hp : bounded_by 24 128 false 16777215 7 (f32_mul (f32_of_Z i1) R)).
  { apply (SFmul_le 24 128 ltac:(lia) ltac:(lia) _ _ false false _ _ _ _ _ _ Hx HR);
      [reflexivity|unfold dle; vm_compute; discriminate]. }
  destruct (f32_mul (f32_of_Z i1) R) as [s|s| |s m e]; cbn [bounded_by] in Hp;
    try contradiction.
  - exists 0. split; [reflexivity|lia].
  - destruct Hp as (-> & _ & Hd). cbn [f32_to_int cond_Zopp].
    assert (Hv' : 0 <= Z.shiftl (Zpos m) e <= 2147483520).
    { destruct (Z.le_gt_cases 0 e) as [He|He].
      - rewrite Z.shiftl_mul_pow2 by lia.
        apply (dle_scale 0) in Hd; [|lia|lia]. rewrite !Z.sub_0_r in Hd.
        change (Zpos 16777215 * 2 ^ 7) with 2147483520 in Hd.
        assert (0 < 2 ^ e) by (apply Z.pow_pos_nonneg; lia). nia.
      - rewrite Z.shiftl_div_pow2 by lia.
        apply (dle_scale e) in Hd; [|lia|lia]. rewrite Z.sub_diag, Z.mul_1_r in Hd.
        replace (7 - e) with (7 + - e) in Hd by lia. rewrite Z.pow_add_r in Hd by lia.
        assert (0 < 2 ^ (- e)) by (apply Z.pow_pos_nonneg; lia).
        split; [apply Z.div_pos; lia|].
        apply Z.div_le_upper_bound; [lia|].
        change (2 ^ 7) with 128 in Hd. lia. }
    exists (Z.shiftl (Zpos m) e).
    unfold INT_MIN, INT_MAX.
    destruct (Z.leb_spec (- 2 ^ 31) (Z.shiftl (Zpos m) e)); [|lia].
    destruct (Z.leb_spec (Z.shiftl (Zpos m) e) (2 ^ 31 - 1)); [|lia].
    cbn [andb]. split; [reflexivity|lia].
Qed.

(** ** [Perm]: the two loops *)

Lemma Perm_init_spec (cnt : nat) :
  forall (j : nat) (perm : list Z),
    (j + cnt <= length perm)%nat -> Z.of_nat (j + cnt) <= INT_MAX ->
    Perm_init cnt (Z.of_nat j) perm =
      Some (take j perm ++ seqZ (Z.of_nat j) (Z.of_nat cnt) ++ drop (j + cnt) perm).
Proof.
  unfold INT_MAX.
  induction cnt as [|cnt IH]; intros j perm Hlen Hmax.
  - cbn [Perm_init]. rewrite Nat.add_0_r.
    change (seqZ (Z.of_nat j) (Z.of_nat 0)) with (@nil Z).
    cbn [app]. rewrite take_drop. reflexivity.
  - cbn [Perm_init]. rewrite wr_Some by lia. cbn [mbind option_bind].
    unfold iadd. rewrite wrapI_small by (unfold is_int, INT_MIN, INT_MAX; lia).
    replace (Z.of_nat j + 1) with (Z.of_nat (S j)) by lia.
    rewrite Nat2Z.id, IH by (rewrite ?length_insert; lia).
    f_equal.
    rewrite (take_S_r _ j (Z.of_nat j)) by (apply list_lookup_insert_eq; lia).
    rewrite take_insert_ge, drop_insert_lt by lia.
    rewrite (seqZ_cons (Z.of_nat j) (Z.of_nat (S cnt))) by lia.
    replace (Z.succ (Z.of_nat j)) with (Z.of_nat (S j)) by lia.
    replace (Z.pred (Z.of_nat (S cnt))) with (Z.of_nat cnt) by lia.
    replace (S j + cnt)%nat with (j + S cnt)%nat by lia.
    rewrite <- app_assoc. reflexivity.
Qed.

Section PermLoop.
Variable G : RandGen.
Variable Inv : gen_state G -> Prop.
Hypothesis HG : unit_generator G Inv.
Variable len : Z.
Hypothesis Hlen : len <= INT_MAX.

(** The exchange of [perm[i]] and [perm[k]] for 0 <= k < i < len. *)
Lemma swap_spec (perm : list Z) (i k : Z) :
  0 <= k < i -> i < len -> len <= Z.of_nat (length perm) ->
  exists perm',
    (tmp ← rd perm i; pk ← rd perm k; perm1 ← wr perm i pk; wr perm1 k tmp)
      = Some perm' /\
    length perm' = length perm /\
    take (Z.to_nat len) perm' ≡ₚ take (Z.to_nat len) perm /\
    drop (Z.to_nat len) perm' = drop (Z.to_nat len) perm.
Proof.
  intros Hk Hi Hl.
  destruct (rd_Some perm i ltac:(lia)) as [a Ha].
  destruct (rd_Some perm k ltac:(lia)) as [b Hb].
  rewrite Ha, Hb. cbn [mbind option_bind].
  rewrite wr_Some by lia. cbn [mbind option_bind].
  rewrite wr_Some by (rewrite length_insert; lia).
  eexists. split; [reflexivity|].
  split; [rewrite !length_insert; reflexivity|].
  unfold rd in Ha, Hb.
  destruct (_ && _) in Ha; [|discriminate]. destruct (_ && _) in Hb; [|discriminate].
  split.
  - rewrite !take_insert_lt by lia.
    apply Permutation_insert_swap; rewrite lookup_take_lt by lia; assumption.
  - rewrite !drop_insert_lt by lia. reflexivity.
Qed.

Lemma Perm_loop_spec (cnt : nat) :
  forall (i L N n : Z) (R : list float32) (perm : list Z) (g : gen_state G),
    i = Z.of_nat cnt -> i < len -> len <= Z.of_nat (length perm) ->
    Inv g -> length R = 20%nat ->
    0 <= n <= N -> N <= 20 -> 0 <= L -> N - n + L = i ->
    (forall k : nat, (Z.to_nat n <= k < Z.to_nat N)%nat ->
       exists x, R !! k = Some x /\ is_f32 x /\ in_unit x) ->
    exists perm' g',
      Perm_loop G cnt i L N n R perm g = Some (perm', g') /\ Inv g' /\
      length perm' = length perm /\
      take (Z.to_nat len) perm' ≡ₚ take (Z.to_nat len) perm /\
      drop (Z.to_nat len) perm' = drop (Z.to_nat len) perm.
Proof.
  unfold INT_MAX in Hlen.
  induction cnt as [|cnt IH]; intros i L N n R perm g Hi Hil Hlp Hg HR Hn HN HL Hsum HRk.
  - exists perm, g. cbn [Perm_loop]. auto.
  - cbn [Perm_loop].
    (* the refill of the buffer *)
    assert (Hfill : exists L1 N1 n1 R1 g1,
      (if n =? N
       then '(R, g) ← gen_Eval_n G (if L <? Nmax then L else Nmax) R g;
            Some (isub L (if L <? Nmax then L else Nmax),
                  if L <? Nmax then L else Nmax, 0, R, g)
       else Some (L, N, n, R, g)) = Some (L1, N1, n1, R1, g1) /\
      Inv g1 /\ length R1 = 20%nat /\ 0 <= n1 < N1 /\ N1 <= 20 /\ 0 <= L1 /\
      N1 - n1 + L1 = i /\
      (forall k : nat, (Z.to_nat n1 <= k < Z.to_nat N1)%nat ->
         exists x, R1 !! k = Some x /\ is_f32 x /\ in_unit x)).
    { destruct (Z.eqb_spec n N) as [Heq|Hne].
      - set (N' := if L <? Nmax then L else Nmax).
        assert (HN' : 1 <= N' <= 20 /\ N' <= L)
          by (subst N'; unfold Nmax; destruct (Z.ltb_spec L 20); lia).
        destruct (HG g N' R Hg ltac:(lia)) as (R1 & g1 & HE & Hg1 & HR1 & Hk1).
        rewrite HE. cbn [mbind option_bind].
        exists (isub L N'), N', 0, R1, g1. split; [reflexivity|].
        unfold isub. rewrite wrapI_small by (unfold is_int, INT_MIN, INT_MAX; lia).
        repeat (split; [first [assumption|lia]|]).
        intros k Hk.
        destruct (lookup_lt_is_Some_2 R1 k ltac:(lia)) as [x Hx].
        exists x. split; [exact Hx|]. apply (Hk1 k x); [lia|exact Hx].
      - exists L, N, n, R, g. split; [reflexivity|].
        repeat (split; [first [assumption|lia]|]). exact HRk. }
    destruct Hfill as (L1 & N1 & n1 & R1 & g1 & -> & Hg1 & HR1 & Hn1 & HN1 & HL1 & Hsum1 & HRk1).
    cbn [mbind option_bind].
    destruct (HRk1 (Z.to_nat n1) ltac:(lia)) as (Rn & HRn & Hf & Hu).
    assert (Hrd : rd R1 n1 = Some Rn).
    { unfold rd. destruct (Z.leb_spec 0 n1); [|lia].
      destruct (Z.ltb_spec n1 (Z.of_nat (length R1))); [exact HRn|lia]. }
    rewrite Hrd. cbn [mbind option_bind].
    replace (iadd i 1) with (i + 1)
      by (symmetry; apply wrapI_small; unfold is_int, INT_MIN, INT_MAX; lia).
    replace (iadd n1 1) with (n1 + 1)
      by (symmetry; apply wrapI_small; unfold is_int, INT_MIN, INT_MAX; lia).
    replace (isub i 1) with (i - 1)
      by (symmetry; apply wrapI_small; unfold is_int, INT_MIN, INT_MAX; lia).
    destruct (trunc_scaled (i + 1) Rn ltac:(unfold INT_MAX; lia) Hf Hu) as (k & Hk & Hk0).
    rewrite Hk. cbn [mbind option_bind].
    assert (Hperm : exists perm1,
      (if k <? i
       then tmp ← rd perm i; pk ← rd perm k; perm0 ← wr perm i pk; wr perm0 k tmp
       else Some perm) = Some perm1 /\
      length perm1 = length perm /\
      take (Z.to_nat len) perm1 ≡ₚ take (Z.to_nat len) perm /\
      drop (Z.to_nat len) perm1 = drop (Z.to_nat len) perm).
    { destruct (Z.ltb_spec k i).
      - apply swap_spec; lia.
      - exists perm. auto. }
    destruct Hperm as (perm1 & -> & Hl1 & Hp1 & Hd1).
    cbn [mbind option_bind].
    destruct (IH (i - 1) L1 N1 (n1 + 1) R1 perm1 g1) as (perm' & g' & HL' & Hg' & Hl' & Hp' & Hd');
      try lia; try assumption.
    { intros j Hj. apply HRk1. lia. }
    exists perm', g'. split; [exact HL'|]. split; [exact Hg'|].
    split; [lia|]. split; [etrans; eassumption|congruence].
Qed.
End PermLoop.

(** C4. For every [len] with 0 <= len (an [int]) and every buffer of at least
    [len] entries: for len = 0 and len = 1 the first [len] entries become the
    identity and the generator is returned in the state it was in, whatever
    the generator; and for a generator whose draws all lie in [0,1), [Perm]
    succeeds and leaves in [perm[0..len-1]] a permutation of 0, ..., len-1,
    the entries beyond being untouched. *)
Theorem Perm_is_permutation (G : RandGen) (Inv : gen_state G -> Prop) (len : Z)
  (perm : list Z) (R : list float32) (g : gen_state G) :
  0 <= len <= INT_MAX -> len <= Z.of_nat (length perm) -> length R = 20%nat ->
  (len <= 1 ->
     Perm G len perm R g = Some (seqZ 0 len ++ drop (Z.to_nat len) perm, g)) /\
  (unit_generator G Inv -> Inv g ->
     exists perm' g',
       Perm G len perm R g = Some (perm', g') /\ Inv g' /\
       take (Z.to_nat len) perm' ≡ₚ seqZ 0 len /\
       drop (Z.to_nat len) perm' = drop (Z.to_nat len) perm).
Proof.
  intros Hlen Hperm HR.
  assert (Hinit : Perm_init (Z.to_nat len) 0 perm =
                  Some (seqZ 0 len ++ drop (Z.to_nat len) perm)).
  { change 0 with (Z.of_nat 0) at 1. rewrite Perm_init_spec by lia.
    cbn [take app Nat.add]. rewrite Z2Nat.id by lia. reflexivity. }
  assert (Hsub : isub len 1 = len - 1).
  { apply wrapI_small. unfold is_int, INT_MIN, INT_MAX in *. lia. }
  assert (Hlen' : length (seqZ 0 len) = Z.to_nat len) by apply length_seqZ.
  split.
  - intros H1. unfold Perm. rewrite Hinit. cbn [mbind option_bind]. rewrite Hsub.
    assert (Z.to_nat (len - 1) = 0%nat) as -> by lia. reflexivity.
  - intros HG Hg. unfold Perm. rewrite Hinit. cbn [mbind option_bind]. rewrite Hsub.
    destruct (Z.eq_dec len 0) as [->|Hne].
    + cbn. exists perm, g. auto.
    + destruct (Perm_loop_spec G Inv HG len (proj2 Hlen) (Z.to_nat (len - 1))
                  (len - 1) (len - 1) 0 0 R (seqZ 0 len ++ drop (Z.to_nat len) perm) g)
        as (perm' & g' & HL & Hg' & Hl' & Hp' & Hd'); try lia; try assumption.
      { rewrite length_app, length_drop, Hlen'. lia. }
      exists perm', g'. split; [exact HL|]. split; [exact Hg'|].
      rewrite take_app_length' in Hp' by (symmetry; exact Hlen').
      rewrite drop_app_length' in Hd' by (symmetry; exact Hlen').
      auto.
Qed.

(** Method 1 is such a generator on the states of [good_state]. *)
Lemma draws_good_1 (dm : long_model) (N : nat) :
  forall g : RandGen_1.state,
    good_state dm Method1 g ->
    exists xs g',
      draws (generator dm Method1) N g = Some (xs, g') /\
      Forall (fun x => is_f32 x /\ in_unit x) xs /\ length xs = N /\
      good_state dm Method1 g'.
Proof.
  induction N as [|N IH]; intros g Hg.
  - exists [], g. cbn. auto.
  - destruct (Eval_good_1 dm g Hg) as (x & g1 & HE & Hu & Hf & Hg1).
    destruct (IH g1 Hg1) as (xs & g2 & HD & Hus & Hlen & Hg2).
    exists (x :: xs), g2. cbn [draws generator gen_Eval]. rewrite HE.
    cbn [mbind option_bind].
    change (draws (generator dm Method1) N g1 = Some (xs, g2)) in HD.
    cbn [generator] in HD. rewrite HD. cbn [mbind option_bind length].
    split; [reflexivity|]. split; [constructor; auto|]. split; [lia|exact Hg2].
Qed.

Lemma unit_generator_1 (dm : long_model) :
  unit_generator (generator dm Method1) (good_state dm Method1).
Proof.
  intros g n array Hg Hn.
  destruct (draws_good_1 dm (Z.to_nat n) g Hg) as (xs & g' & HD & Hxs & Hlen & Hg').
  exists (xs ++ drop (Z.to_nat n) array), g'.
  split.
  - rewrite Eval_n_fill, fill_batch_spec by lia. unfold batch_spec.
    rewrite HD. reflexivity.
  - split; [exact Hg'|]. split.
    + rewrite length_app, length_drop. lia.
    + intros k x Hk Hx. rewrite lookup_app_l in Hx by lia.
      rewrite Forall_lookup in Hxs. exact (Hxs k x Hx).
Qed.

Lemma Perm_is_permutation_witness :
  let G := generator Long32 Method1 in
  let g : gen_state G := method1_instance 1 in
  let perm := replicate 6 9 in
  let R := replicate 20 (S754_zero false) in
  0 <= 5 <= INT_MAX /\ 5 <= Z.of_nat (length perm) /\ length R = 20%nat /\
  unit_generator G (good_state Long32 Method1) /\ good_state Long32 Method1 g /\
  exists perm' g',
    Perm G 5 perm R g = Some (perm', g') /\ good_state Long32 Method1 g' /\
    take (Z.to_nat 5) perm' ≡ₚ seqZ 0 5 /\
    drop (Z.to_nat 5) perm' = drop (Z.to_nat 5) perm.
Proof.
  intros G g perm R.
  assert (H1 : 0 <= 5 <= INT_MAX) by (unfold INT_MAX; lia).
  assert (H2 : 5 <= Z.of_nat (length perm)) by (cbn; lia).
  assert (H3 : length R = 20%nat) by reflexivity.
  assert (H4 : good_state Long32 Method1 g).
  { cbn [good_state]. split; [reflexivity|]. split; [cbn; unfold RandGen_1.M1; lia|].
    intros k x Hk Hx. cbn [method1_instance g RandGen_1.shuffle] in Hx.
    apply lookup_replicate in Hx. destruct Hx as [-> _]. unfold RandGen_1.M1. lia. }
  repeat (split; [first [assumption | apply unit_generator_1]|]).
  exact (proj2 (Perm_is_permutation G (good_state Long32 Method1) 5 perm R g H1 H2 H3)
           (unit_generator_1 Long32) H4).
Defined.

(** ** Method 3: the states form cycles *)

Section Method3_cycle.
Variable dm : long_model.

Lemma gcd_P3_A3 : Z.gcd RandGen_3.P3 RandGen_3.A3 = 1.
Proof. vm_compute. reflexivity. Qed.

Lemma mul_A3_mod_zero (x : Z) :
  (RandGen_3.A3 * x) mod RandGen_3.P3 = 0 -> x mod RandGen_3.P3 = 0.
Proof.
  intros H. apply Z.mod_divide in H; [|discriminate].
  apply Z.mod_divide; [discriminate|].
  exact (Z.gauss _ _ _ H gcd_P3_A3).
Qed.

Lemma step_3_nonzero (ix : Z) :
  1 <= ix <= 2147483646 -> 1 <= RandGen_3.step dm ix <= 2147483646.
Proof.
  intros Hix. rewrite step_3_mod by lia.
  pose proof (Z.mod_pos_bound (RandGen_3.A3 * ix) RandGen_3.P3 ltac:(reflexivity)) as Hb.
  assert (Hnz : (RandGen_3.A3 * ix) mod RandGen_3.P3 <> 0).
  { intros H0. apply mul_A3_mod_zero in H0.
    unfold RandGen_3.P3 in H0. rewrite Z.mod_small in H0 by lia. lia. }
  unfold RandGen_3.P3 in *. lia.
Qed.

Lemma step_3_injective (a b : Z) :
  0 <= a <= 2147483646 -> 0 <= b <= 2147483646 ->
  RandGen_3.step dm a = RandGen_3.step dm b -> a = b.
Proof.
  intros Ha Hb. rewrite !step_3_mod by lia. intros H.
  assert (H0 : (RandGen_3.A3 * (a - b)) mod RandGen_3.P3 = 0).
  { rewrite Z.mul_sub_distr_l, Zminus_mod, H, Z.sub_diag. reflexivity. }
  apply mul_A3_mod_zero in H0.
  apply Z.mod_divide in H0; [|discriminate]. destruct H0 as [q Hq].
  unfold RandGen_3.P3 in Hq. nia.
Qed.
End Method3_cycle.

Lemma draws_3_S (dm : long_model) (N : nat) (g : RandGen_3.state) :
  draws (generator dm Method3) (S N) g =
    '(xs, g'') ← draws (generator dm Method3) N
                   {| RandGen_3.ix := RandGen_3.step dm (RandGen_3.ix g) |};
    Some (f32_of_f64 (f64_mul (f64_of_Z (RandGen_3.step dm (RandGen_3.ix g)))
                         RandGen_3.scale) :: xs, g'').
Proof. reflexivity. Qed.

(** From a seed s with 1 <= |s| <= 2^31 - 2, [ix] stays in [1, 2^31 - 2]
    through any number of calls of [RandGen_3::Eval]: the state 0, which
    [Eval] cannot leave, is never reached. *)
Theorem Eval_3_never_reaches_zero (dm : long_model) (s : Z) (N : nat)
  (g : RandGen_3.state) :
  1 <= Z.abs s <= 2147483646 ->
  exists xs g',
    draws (generator dm Method3) N (RandGen_3.Seed dm s g) = Some (xs, g') /\
    1 <= RandGen_3.ix g' <= 2147483646.
Proof.
  intros Hs.
  assert (H0 : 1 <= RandGen_3.ix (RandGen_3.Seed dm s g) <= 2147483646)
    by (cbn [RandGen_3.Seed RandGen_3.ix]; rewrite ABS_small by lia; lia).
  revert H0. generalize (RandGen_3.Seed dm s g). clear g s Hs.
  induction N as [|N IH]; intros g Hg.
  - exists [], g. split; [reflexivity|exact Hg].
  - pose proof (step_3_nonzero dm (RandGen_3.ix g) Hg) as Hstep.
    destruct (IH {| RandGen_3.ix := RandGen_3.step dm (RandGen_3.ix g) |} Hstep)
      as (xs & g' & HD & Hg').
    rewrite draws_3_S, HD. cbn [mbind option_bind].
    eexists _, g'. split; [reflexivity|exact Hg'].
Qed.

Lemma Eval_3_never_reaches_zero_witness :
  1 <= Z.abs (-7) <= 2147483646 /\
  exists xs g',
    draws (generator Long64 Method3) 5
      (RandGen_3.Seed Long64 (-7) {| RandGen_3.ix := 0 |}) = Some (xs, g') /\
    1 <= RandGen_3.ix g' <= 2147483646.
Proof.
  split; [lia|].
  apply (Eval_3_never_reaches_zero Long64 (-7) 5 {| RandGen_3.ix := 0 |}). lia.
Defined.

(** On states with [ix] in [0, 2^31 - 2], [RandGen_3::Eval] is injective:
    two different states never lead to the same state, so every state lies
    on a cycle and the sequence has no transient part. *)
Theorem Eval_3_injective (dm : long_model) (g1 g2 : RandGen_3.state) :
  0 <= RandGen_3.ix g1 <= 2147483646 -> 0 <= RandGen_3.ix g2 <= 2147483646 ->
  snd (RandGen_3.Eval dm g1) = snd (RandGen_3.Eval dm g2) -> g1 = g2.
Proof.
  intros H1 H2 HE. destruct g1 as [a], g2 as [b]. cbn [RandGen_3.ix] in *.
  unfold RandGen_3.Eval in HE. cbn [snd RandGen_3.ix] in HE.
  injection HE as HE. f_equal. exact (step_3_injective dm a b H1 H2 HE).
Qed.

Lemma Eval_3_injective_witness :
  0 <= 5 <= 2147483646 /\ 0 <= 6 <= 2147483646 /\
  (snd (RandGen_3.Eval Long32 {| RandGen_3.ix := 5 |}) =
   snd (RandGen_3.Eval Long32 {| RandGen_3.ix := 6 |}) ->
   {| RandGen_3.ix := 5 |} = {| RandGen_3.ix := 6 |}).
Proof.
  split; [lia|]. split; [lia|].
  apply (Eval_3_injective Long32 {| RandGen_3.ix := 5 |} {| RandGen_3.ix := 6 |});
    cbn; lia.
Defined.

Lemma draws_3_zero (dm : long_model) (N : nat) :
  draws (generator dm Method3) N {| RandGen_3.ix := 0 |}
  = Some (replicate N (S754_zero false), {| RandGen_3.ix := 0 |}).
Proof.
  induction N as [|N IH]; [reflexivity|].
  rewrite draws_3_S. cbn [RandGen_3.ix].
  rewrite step_3_mod by lia.
  change ((RandGen_3.A3 * 0) mod RandGen_3.P3) with 0.
  rewrite IH. reflexivity.
Qed.

(** The seeds 0, 2^31 - 1 and -(2^31 - 1) are degenerate for Method 3:
    [Seed] followed by any number of calls of [Eval] returns only 0.0. *)
Theorem Seed_3_degenerate (dm : long_model) (s : Z) (N : nat)
  (g : RandGen_3.state) :
  s = 0 \/ Z.abs s = 2147483647 ->
  seeded_draws (generator dm Method3) s N g = Some (replicate N (S754_zero false)).
Proof.
  intros Hs. unfold seeded_draws.
  change (gen_Seed (generator dm Method3) s g) with (Some (RandGen_3.Seed dm s g)).
  cbn [mbind option_bind]. unfold RandGen_3.Seed. rewrite ABS_small by lia.
  destruct Hs as [->|Hs].
  - change (Z.abs 0) with 0. rewrite draws_3_zero. reflexivity.
  - rewrite Hs. destruct N as [|N]; [reflexivity|].
    rewrite draws_3_S. cbn [RandGen_3.ix].
    rewrite step_3_mod by lia.
    change ((RandGen_3.A3 * 2147483647) mod RandGen_3.P3) with 0.
    rewrite draws_3_zero. reflexivity.
Qed.

Lemma Seed_3_degenerate_witness :
  (-2147483647 = 0 \/ Z.abs (-2147483647) = 2147483647) /\
  seeded_draws (generator Long32 Method3) (-2147483647) 3 {| RandGen_3.ix := 9 |}
  = Some (replicate 3 (S754_zero false)).
Proof.
  assert (H : -2147483647 = 0 \/ Z.abs (-2147483647) = 2147483647) by (right; reflexivity).
  split; [exact H|].
  exact (Seed_3_degenerate Long32 (-2147483647) 3 {| RandGen_3.ix := 9 |} H).
Defined.

(** ** Method 1 and Method 2: what the state keeps *)

(** On an instance of Method 1 whose member [seed] lies in [0, M1),
    [Seed(s)] for a seed s whose sum IC + |s| + 1 does not overflow,
    followed by any number of calls of [Eval], succeeds; every value
    returned lies in [0, 1), strictly below 1; and afterwards [seed] and
    the 97 active table entries are still in [0, M1). *)
Theorem Method1_table_integrity (dm : long_model) (s : Z) (N : nat)
  (g : RandGen_1.state) :
  RandGen_1.wf g -> 0 <= RandGen_1.seed g < RandGen_1.M1 ->
  RandGen_1.IC + Z.abs s + 1 <= LONG_MAX dm ->
  exists g1 xs g2,
    RandGen_1.Seed dm s g = Some g1 /\
    draws (generator dm Method1) N g1 = Some (xs, g2) /\
    Forall in_unit xs /\
    RandGen_1.wf g2 /\ 0 <= RandGen_1.seed g2 < RandGen_1.M1 /\
    forall k : nat, (1 <= k <= 97)%nat ->
      exists x, RandGen_1.shuffle g2 !! k = Some x /\ 0 <= x < RandGen_1.M1.
Proof.
  intros Hwf Hseed _.
  destruct (Seed_good dm Method1 s g (conj Hwf Hseed)) as (g1 & HS & Hg1).
  destruct (draws_good_1 dm N g1 Hg1) as (xs & g2 & HD & Hxs & _ & Hg2).
  exists g1, xs, g2. split; [exact HS|]. split; [exact HD|].
  split; [eapply Forall_impl; [exact Hxs|]; intros x Hx; apply Hx|].
  destruct Hg2 as (Hwf2 & Hseed2 & Htab).
  split; [exact Hwf2|]. split; [exact Hseed2|].
  intros k Hk. unfold RandGen_1.wf in Hwf2.
  destruct (lookup_lt_is_Some_2 (RandGen_1.shuffle g2) k ltac:(lia)) as [x Hx].
  exists x. split; [exact Hx|]. exact (Htab k x Hk Hx).
Qed.

Lemma Method1_table_integrity_witness :
  RandGen_1.wf (method1_instance 5) /\
  0 <= RandGen_1.seed (method1_instance 5) < RandGen_1.M1 /\
  RandGen_1.IC + Z.abs (-12345) + 1 <= LONG_MAX Long32 /\
  exists g1 xs g2,
    RandGen_1.Seed Long32 (-12345) (method1_instance 5) = Some g1 /\
    draws (generator Long32 Method1) 200 g1 = Some (xs, g2) /\
    Forall in_unit xs /\
    RandGen_1.wf g2 /\ 0 <= RandGen_1.seed g2 < RandGen_1.M1 /\
    forall k : nat, (1 <= k <= 97)%nat ->
      exists x, RandGen_1.shuffle g2 !! k = Some x /\ 0 <= x < RandGen_1.M1.
Proof.
  assert (Hwf : RandGen_1.wf (method1_instance 5)) by reflexivity.
  assert (Hs : 0 <= RandGen_1.seed (method1_instance 5) < RandGen_1.M1)
    by (cbn; unfold RandGen_1.M1; lia).
  assert (Hfit : RandGen_1.IC + Z.abs (-12345) + 1 <= LONG_MAX Long32)
    by (vm_compute; discriminate).
  split; [exact Hwf|]. split; [exact Hs|]. split; [exact Hfit|].
  exact (Method1_table_integrity Long32 (-12345) 200 (method1_instance 5) Hwf Hs Hfit).
Defined.

(** For Method 2 seeded with |s| <= 2833, after any number of calls of
    [Eval] the member [r] lies in [0, 9999]: the generator returns at most
    10000 different values, the products r * 1.00010001E-4. *)
Theorem Method2_r_range (dm : long_model) (s : Z) (N : nat)
  (g : RandGen_2.state) :
  Z.abs s <= 2833 ->
  0 <= RandGen_2.r (method2_after dm N (RandGen_2.Seed dm s g)) <= 9999.
Proof.
  intros Hs.
  destruct (Seed_good dm Method2 s g Hs) as (g1 & HS & Hg1).
  cbn [generator gen_Seed] in HS. injection HS as <-.
  assert (Hall : good_state dm Method2 (method2_after dm N (RandGen_2.Seed dm s g))).
  { induction N as [|k IH]; [exact Hg1|].
    unfold method2_after in *. cbn [Nat.iter]. apply step_good_2, IH. }
  apply Hall.
Qed.

Lemma Method2_r_range_witness :
  Z.abs 690 <= 2833 /\
  0 <= RandGen_2.r (method2_after Long32 6
                      (RandGen_2.Seed Long32 690
                         {| RandGen_2.r := 0; RandGen_2.m := 0; RandGen_2.i := 0;
                            RandGen_2.j := 0 |})) <= 9999.
Proof.
  split; [lia|].
  apply (Method2_r_range Long32 690 6). lia.
Defined.

(** ** What [Seed] retains of its argument *)

Lemma wrapL_id (dm : long_model) (x : Z) : is_long dm x -> wrapL dm x = x.
Proof.
  unfold is_long, LONG_MIN, LONG_MAX, wrapL, wrap.
  destruct dm; cbn [long_bits]; intros Hx; rewrite Z.mod_small; lia.
Qed.

Lemma ABS_wrap_opp (dm : long_model) (x : Z) :
  ABS dm (wrapL dm (- x)) = ABS dm (wrapL dm x).
Proof.
  unfold ABS, lneg, wrapL, wrap.
  destruct dm; cbn [long_bits];
    change (2 ^ (32 - 1)) with 2147483648; change (2 ^ 32) with 4294967296;
    change (2 ^ (64 - 1)) with 9223372036854775808;
    change (2 ^ 64) with 18446744073709551616;
    repeat match goal with
      | |- context [?a >? ?b] => destruct (Z.gtb_spec a b)
      end;
    Z.div_mod_to_equations; lia.
Qed.

Lemma ABS_opp (dm : long_model) (s : Z) :
  LONG_MIN dm < s <= LONG_MAX dm -> ABS dm (- s) = ABS dm s.
Proof.
  intros Hs.
  assert (H1 : wrapL dm (- s) = - s)
    by (apply wrapL_id; unfold is_long, LONG_MIN, LONG_MAX in *; lia).
  assert (H2 : wrapL dm s = s)
    by (apply wrapL_id; unfold is_long, LONG_MIN, LONG_MAX in *; lia).
  pose proof (ABS_wrap_opp dm s) as H. rewrite H1, H2 in H. exact H.
Qed.

Lemma ABS_lmul_opp (dm : long_model) (s c : Z) :
  ABS dm (lmul dm (- s) c) = ABS dm (lmul dm s c).
Proof.
  unfold lmul. replace (- s * c) with (- (s * c)) by lia.
  rewrite <- ABS_wrap_opp. f_equal.
  unfold wrapL, wrap.
  destruct dm; cbn [long_bits];
    change (2 ^ (32 - 1)) with 2147483648; change (2 ^ 32) with 4294967296;
    change (2 ^ (64 - 1)) with 9223372036854775808;
    change (2 ^ 64) with 18446744073709551616;
    generalize (s * c); intros y; Z.div_mod_to_equations; lia.
Qed.

(** [Seed] uses its argument only through [ABS]: for each of the three
    generators and every [long] s other than LONG_MIN, [Seed(-s)] leaves the
    instance in the same state as [Seed(s)], so both seeds give the same
    sequence. *)
Theorem Seed_ignores_sign (dm : long_model) (v : variant) (s : Z)
  (g : gen_state (generator dm v)) :
  LONG_MIN dm < s <= LONG_MAX dm ->
  gen_Seed (generator dm v) (- s) g = gen_Seed (generator dm v) s g /\
  forall N, seeded_draws (generator dm v) (- s) N g
            = seeded_draws (generator dm v) s N g.
Proof.
  intros Hs.
  assert (HS : gen_Seed (generator dm v) (- s) g = gen_Seed (generator dm v) s g).
  { destruct v; cbn [generator gen_Seed].
    - unfold RandGen_1.Seed. rewrite (ABS_opp dm s Hs). reflexivity.
    - unfold RandGen_2.Seed. rewrite (ABS_opp dm s Hs), !ABS_lmul_opp. reflexivity.
    - unfold RandGen_3.Seed. rewrite (ABS_opp dm s Hs). reflexivity. }
  split; [exact HS|]. intros N. unfold seeded_draws. rewrite HS. reflexivity.
Qed.

Lemma Seed_ignores_sign_witness :
  let g : gen_state (generator Long32 Method2) :=
    {| RandGen_2.r := 0; RandGen_2.m := 0; RandGen_2.i := 0; RandGen_2.j := 0 |} in
  LONG_MIN Long32 < 2147483647 <= LONG_MAX Long32 /\
  gen_Seed (generator Long32 Method2) (- 2147483647) g
  = gen_Seed (generator Long32 Method2) 2147483647 g.
Proof.
  intros g.
  assert (Hs : LONG_MIN Long32 < 2147483647 <= LONG_MAX Long32)
    by (unfold LONG_MIN, LONG_MAX; cbn; lia).
  split; [exact Hs|].
  exact (proj1 (Seed_ignores_sign Long32 Method2 2147483647 g Hs)).
Defined.

(** [RandGen_1::Seed] retains only |s| modulo M1 = 714025: two seeds whose
    absolute values are congruent modulo M1 (and small enough for
    IC + |s| + 1 not to overflow) leave the same state, so Method 1 has at
    most 714025 different seedings. *)
Theorem Seed_1_retains_residue (dm : long_model) (s s' : Z)
  (g : RandGen_1.state) :
  Z.abs s <= 2147332757 -> Z.abs s' <= 2147332757 ->
  Z.abs s mod RandGen_1.M1 = Z.abs s' mod RandGen_1.M1 ->
  RandGen_1.Seed dm s g = RandGen_1.Seed dm s' g.
Proof.
  intros Hs Hs' Hmod. unfold RandGen_1.Seed.
  assert (Ht : forall u, Z.abs u <= 2147332757 ->
            Z.rem (ladd dm (ladd dm RandGen_1.IC (ABS dm u)) 1) RandGen_1.M1
            = (RandGen_1.IC + 1 + Z.abs u mod RandGen_1.M1) mod RandGen_1.M1).
  { intros u Hu. unfold RandGen_1.IC, RandGen_1.M1, ladd.
    rewrite ABS_small by lia. small.
    rewrite Z.rem_mod_nonneg by lia.
    rewrite Zplus_mod_idemp_r. f_equal. lia. }
  rewrite (Ht s Hs), (Ht s' Hs'), Hmod. reflexivity.
Qed.

Lemma Seed_1_retains_residue_witness :
  Z.abs 3 <= 2147332757 /\ Z.abs (-714028) <= 2147332757 /\
  Z.abs 3 mod RandGen_1.M1 = Z.abs (-714028) mod RandGen_1.M1 /\
  RandGen_1.Seed Long64 3 (method1_instance 0)
  = RandGen_1.Seed Long64 (-714028) (method1_instance 0).
Proof.
  split; [lia|]. split; [lia|]. split; [reflexivity|].
  apply Seed_1_retains_residue; [lia|lia|reflexivity].
Defined.

(** ** Buffers: too short, and split in two *)

Lemma fill_overrun (G : RandGen) (cnt : nat) :
  forall (array : list float32) (p : nat) (g : gen_state G),
    (p <= length array < p + cnt)%nat ->
    fill G cnt array (Z.of_nat p) g = None.
Proof.
  induction cnt as [|cnt IH]; intros array p g Hp; [lia|].
  cbn [fill]. destruct (gen_Eval G g) as [[x g1]|]; [|reflexivity].
  cbn [mbind option_bind].
  destruct (decide (p = length array)) as [->|Hne].
  - unfold wr. destruct (Z.ltb_spec (Z.of_nat (length array)) (Z.of_nat (length array)));
      [lia|]. rewrite andb_false_r. reflexivity.
  - rewrite wr_Some by lia. cbn [mbind option_bind].
    replace (Z.of_nat p + 1) with (Z.of_nat (S p)) by lia.
    apply IH. rewrite length_insert. lia.
Qed.

(** The array form does not know the size of the buffer: when [array] holds
    fewer than [n] floats, [Eval(n, array)] of each generator runs past its
    end, from every state. *)
Theorem Eval_n_overruns_short_buffer (dm : long_model) (v : variant) (n : Z)
  (array : list float32) (g : gen_state (generator dm v)) :
  Z.of_nat (length array) < n ->
  gen_Eval_n (generator dm v) n array g = None.
Proof.
  intros Hn. rewrite Eval_n_fill. change 0 with (Z.of_nat 0).
  apply fill_overrun. lia.
Qed.

Lemma Eval_n_overruns_short_buffer_witness :
  let array := replicate 2 (S754_zero false) in
  let g : gen_state (generator Long32 Method3) := {| RandGen_3.ix := 1 |} in
  Z.of_nat (length array) < 3 /\
  gen_Eval_n (generator Long32 Method3) 3 array g = None.
Proof.
  intros array g.
  assert (Hn : Z.of_nat (length array) < 3) by (cbn; lia).
  split; [exact Hn|].
  exact (Eval_n_overruns_short_buffer Long32 Method3 3 array g Hn).
Defined.

Lemma draws_app (G : RandGen) (a b : nat) :
  forall g : gen_state G,
    draws G (a + b) g =
      '(xs, g1) ← draws G a g;
      '(ys, g2) ← draws G b g1;
      Some (xs ++ ys, g2).
Proof.
  induction a as [|a IH]; intros g.
  - cbn [Nat.add draws mbind option_bind].
    destruct (draws G b g) as [[ys g2]|]; reflexivity.
  - cbn [Nat.add draws].
    destruct (gen_Eval G g) as [[x g0]|]; [|reflexivity].
    cbn [mbind option_bind]. rewrite IH.
    destruct (draws G a g0) as [[xs g1]|]; [|reflexivity].
    cbn [mbind option_bind].
    destruct (draws G b g1) as [[ys g2]|]; reflexivity.
Qed.

Lemma draws_length (G : RandGen) (N : nat) :
  forall (g g' : gen_state G) (xs : list float32),
    draws G N g = Some (xs, g') -> length xs = N.
Proof.
  induction N as [|N IH]; intros g g' xs H.
  - cbn in H. injection H as <- _. reflexivity.
  - cbn [draws] in H.
    destruct (gen_Eval G g) as [[x g0]|]; [|discriminate].
    cbn [mbind option_bind] in H.
    destruct (draws G N g0) as [[ys g1]|] eqn:HD; [|discriminate].
    cbn [mbind option_bind] in H. injection H as <- _.
    cbn [length]. f_equal. eapply IH, HD.
Qed.

Lemma variants_batch_equivalent (dm : long_model) (v : variant) :
  batch_equivalent (generator dm v).
Proof.
  intros n array g Hn. rewrite Eval_n_fill. apply fill_batch_spec. exact Hn.
Qed.

(** One call of the array form for n + m values gives the same buffer and
    the same state as a call for n values followed by a call for m values on
    the part of the buffer behind them. *)
Theorem Eval_n_split (dm : long_model) (v : variant) (n m : Z)
  (array : list float32) (g : gen_state (generator dm v)) :
  0 <= n -> 0 <= m -> n + m <= Z.of_nat (length array) ->
  gen_Eval_n (generator dm v) (n + m) array g =
    '(a1, g1) ← gen_Eval_n (generator dm v) n array g;
    '(a2, g2) ← gen_Eval_n (generator dm v) m (drop (Z.to_nat n) a1) g1;
    Some (take (Z.to_nat n) a1 ++ a2, g2).
Proof.
  intros Hn Hm Hlen.
  rewrite !(variants_batch_equivalent dm v) by lia.
  unfold batch_spec at 1 2.
  rewrite Z2Nat.inj_add, draws_app by lia.
  destruct (draws (generator dm v) (Z.to_nat n) g) as [[xs g1]|] eqn:HD1;
    [|reflexivity].
  cbn [mbind option_bind].
  pose proof (draws_length _ _ _ _ _ HD1) as Hxs.
  rewrite drop_app_length' by (symmetry; exact Hxs).
  rewrite take_app_length' by (symmetry; exact Hxs).
  rewrite (variants_batch_equivalent dm v) by (rewrite length_drop; lia).
  unfold batch_spec.
  destruct (draws (generator dm v) (Z.to_nat m) g1) as [[ys g2]|]; [|reflexivity].
  cbn [mbind option_bind]. rewrite drop_drop, app_assoc. reflexivity.
Qed.

Lemma Eval_n_split_witness :
  let array := replicate 5 (S754_zero false) in
  let g : gen_state (generator Long32 Method2) :=
    {| RandGen_2.r := 1; RandGen_2.m := 100; RandGen_2.i := 10000;
       RandGen_2.j := 128000 |} in
  0 <= 2 /\ 0 <= 3 /\ 2 + 3 <= Z.of_nat (length array) /\
  gen_Eval_n (generator Long32 Method2) (2 + 3) array g =
    '(a1, g1) ← gen_Eval_n (generator Long32 Method2) 2 array g;
    '(a2, g2) ← gen_Eval_n (generator Long32 Method2) 3 (drop (Z.to_nat 2) a1) g1;
    Some (take (Z.to_nat 2) a1 ++ a2, g2).
Proof.
  intros array g.
  assert (Hlen : 2 + 3 <= Z.of_nat (length array)) by (cbn; lia).
  split; [lia|]. split; [lia|]. split; [exact Hlen|].
  exact (Eval_n_split Long32 Method2 2 3 array g ltac:(lia) ltac:(lia) Hlen).
Defined.

Lemma Perm_init_overrun (cnt : nat) :
  forall (j : nat) (perm : list Z),
    (j <= length perm < j + cnt)%nat -> Z.of_nat (j + cnt) <= INT_MAX ->
    Perm_init cnt (Z.of_nat j) perm = None.
Proof.
  unfold INT_MAX.
  induction cnt as [|cnt IH]; intros j perm Hj Hmax; [lia|].
  cbn [Perm_init].
  destruct (decide (j = length perm)) as [->|Hne].
  - unfold wr. destruct (Z.ltb_spec (Z.of_nat (length perm)) (Z.of_nat (length perm)));
      [lia|]. rewrite andb_false_r. reflexivity.
  - rewrite wr_Some by lia. cbn [mbind option_bind].
    unfold iadd. rewrite wrapI_small by (unfold is_int, INT_MIN, INT_MAX; lia).
    replace (Z.of_nat j + 1) with (Z.of_nat (S j)) by lia.
    apply IH; [rewrite length_insert; lia|lia].
Qed.

(** [Perm] does not know the size of [perm] either: when it holds fewer
    than [len] entries, the initialisation loop writes past its end, for
    every generator. *)
Theorem Perm_overruns_short_buffer (G : RandGen) (len : Z) (perm : list Z)
  (R : list float32) (g : gen_state G) :
  Z.of_nat (length perm) < len <= INT_MAX ->
  Perm G len perm R g = None.
Proof.
  intros Hlen. unfold Perm.
  assert (H : Perm_init (Z.to_nat len) 0 perm = None).
  { change 0 with (Z.of_nat 0). apply Perm_init_overrun; unfold INT_MAX in *; lia. }
  rewrite H. reflexivity.
Qed.

Lemma Perm_overruns_short_buffer_witness :
  Z.of_nat (length [7; 7]) < 3 <= INT_MAX /\
  Perm (generator Long32 Method3) 3 [7; 7] (replicate 20 (S754_zero false))
    {| RandGen_3.ix := 1 |} = None.
Proof.
  assert (H : Z.of_nat (length [7; 7]) < 3 <= INT_MAX) by (unfold INT_MAX; cbn; lia).
  split; [exact H|].
  exact (Perm_overruns_short_buffer (generator Long32 Method3) 3 [7; 7] _ _ H).
Defined.

(** ** [Perm]: the random values it uses *)

Lemma rd_agree {A} (l l' : list A) (i : Z) :
  length l = length l' -> l !! Z.to_nat i = l' !! Z.to_nat i -> rd l i = rd l' i.
Proof.
  intros Hl Hi. unfold rd. rewrite Hl, Hi. reflexivity.
Qed.

Section PermDraws.
Variable G : RandGen.
Hypothesis HB : batch_equivalent G.

Lemma refill_size (L : Z) :
  1 <= L -> 1 <= (if L <? Nmax then L else Nmax) <= 20 /\
            (if L <? Nmax then L else Nmax) <= L.
Proof. unfold Nmax. intros HL. destruct (Z.ltb_spec L 20); lia. Qed.

(** The shuffle loop leaves the generator in the state that [L] scalar
    calls reach, [L] being the number of values still to be generated. *)
Lemma Perm_loop_draws (cnt : nat) :
  forall (i L N n : Z) (R : list float32) (perm perm' : list Z)
         (g g' : gen_state G),
    length R = 20%nat -> 0 <= n <= N -> N <= 20 -> 0 <= L <= INT_MAX ->
    N - n + L = Z.of_nat cnt ->
    Perm_loop G cnt i L N n R perm g = Some (perm', g') ->
    exists xs, draws G (Z.to_nat L) g = Some (xs, g') /\ length xs = Z.to_nat L.
Proof.
  unfold INT_MAX.
  induction cnt as [|cnt IH]; intros i L N n R perm perm' g g' HR Hn HN HL Hsum H.
  - cbn [Perm_loop] in H. injection H as _ <-.
    assert (Z.to_nat L = 0%nat) as -> by lia. exists []. split; reflexivity.
  - cbn [Perm_loop] in H.
    destruct (Z.eqb_spec n N) as [Heq|Hne].
    + destruct (refill_size L ltac:(lia)) as [HN' HN'L].
      set (N' := if L <? Nmax then L else Nmax) in *.
      rewrite HB in H by lia. unfold batch_spec in H.
      destruct (draws G (Z.to_nat N') g) as [[ys g1]|] eqn:HD; [|discriminate].
      cbn [mbind option_bind] in H.
      pose proof (draws_length _ _ _ _ _ HD) as Hys.
      destruct (rd _ 0) as [Rn|]; [|discriminate]. cbn [mbind option_bind] in H.
      destruct (f32_to_int _) as [k|]; [|discriminate]. cbn [mbind option_bind] in H.
      match type of H with
      | (?sw ≫= _) = _ => destruct sw as [perm1|]; [|discriminate]
      end.
      cbn [mbind option_bind] in H.
      change (iadd 0 1) with 1 in H.
      replace (isub L N') with (L - N') in H
        by (symmetry; apply wrapI_small; unfold is_int, INT_MIN, INT_MAX; lia).
      apply IH in H; try lia;
        [|rewrite length_app, length_drop; lia].
      destruct H as (zs & HZ & Hzs).
      exists (ys ++ zs).
      replace (Z.to_nat L) with (Z.to_nat N' + Z.to_nat (L - N'))%nat by lia.
      rewrite draws_app, HD. cbn [mbind option_bind]. rewrite HZ.
      split; [reflexivity|]. rewrite length_app. lia.
    + cbn [mbind option_bind] in H.
      destruct (rd R n) as [Rn|]; [|discriminate]. cbn [mbind option_bind] in H.
      destruct (f32_to_int _) as [k|]; [|discriminate]. cbn [mbind option_bind] in H.
      match type of H with
      | (?sw ≫= _) = _ => destruct sw as [perm1|]; [|discriminate]
      end.
      cbn [mbind option_bind] in H.
      replace (iadd n 1) with (n + 1) in H
        by (symmetry; apply wrapI_small; unfold is_int, INT_MIN, INT_MAX; lia).
      apply IH in H; try lia. exact H.
Qed.

(** The contents of [R] that [Eval] has not written are never used. *)
Lemma Perm_loop_R_irrelevant (cnt : nat) :
  forall (i L N n : Z) (R R' : list float32) (perm : list Z) (g : gen_state G),
    length R = 20%nat -> length R' = 20%nat ->
    0 <= n <= N -> N <= 20 -> 0 <= L <= INT_MAX ->
    N - n + L = Z.of_nat cnt ->
    (forall k : nat, (Z.to_nat n <= k < Z.to_nat N)%nat -> R !! k = R' !! k) ->
    Perm_loop G cnt i L N n R perm g = Perm_loop G cnt i L N n R' perm g.
Proof.
  unfold INT_MAX.
  induction cnt as [|cnt IH]; intros i L N n R R' perm g HR HR' Hn HN HL Hsum Hag;
    [reflexivity|].
  cbn [Perm_loop].
  destruct (Z.eqb_spec n N) as [Heq|Hne].
  - destruct (refill_size L ltac:(lia)) as [HN' HN'L].
    set (N' := if L <? Nmax then L else Nmax) in *.
    rewrite !HB by lia. unfold batch_spec.
    destruct (draws G (Z.to_nat N') g) as [[ys g1]|] eqn:HD; [|reflexivity].
    cbn [mbind option_bind].
    pose proof (draws_length _ _ _ _ _ HD) as Hys.
    assert (Hl : length (ys ++ drop (Z.to_nat N') R) = 20%nat)
      by (rewrite length_app, length_drop; lia).
    assert (Hl' : length (ys ++ drop (Z.to_nat N') R') = 20%nat)
      by (rewrite length_app, length_drop; lia).
    rewrite (rd_agree (ys ++ drop (Z.to_nat N') R) (ys ++ drop (Z.to_nat N') R') 0)
      by (try congruence; rewrite !lookup_app_l by (cbn; lia); reflexivity).
    destruct (rd _ 0) as [Rn|]; [|reflexivity]. cbn [mbind option_bind].
    destruct (f32_to_int _) as [k|]; [|reflexivity]. cbn [mbind option_bind].
    match goal with
    | |- (?sw ≫= _) = _ => destruct sw as [perm1|]; [|reflexivity]
    end.
    cbn [mbind option_bind].
    change (iadd 0 1) with 1.
    replace (isub L N') with (L - N')
      by (symmetry; apply wrapI_small; unfold is_int, INT_MIN, INT_MAX; lia).
    apply IH; try lia; try assumption.
    intros j Hj. rewrite !lookup_app_l by lia. reflexivity.
  - cbn [mbind option_bind].
    rewrite (rd_agree R R' n) by (try congruence; apply Hag; lia).
    destruct (rd R' n) as [Rn|]; [|reflexivity]. cbn [mbind option_bind].
    destruct (f32_to_int _) as [k|]; [|reflexivity]. cbn [mbind option_bind].
    match goal with
    | |- (?sw ≫= _) = _ => destruct sw as [perm1|]; [|reflexivity]
    end.
    cbn [mbind option_bind].
    replace (iadd n 1) with (n + 1)
      by (symmetry; apply wrapI_small; unfold is_int, INT_MIN, INT_MAX; lia).
    apply IH; try lia; try assumption.
    intros j Hj. apply Hag. lia.
Qed.
End PermDraws.

Lemma wrapI_range (x : Z) : is_int (wrapI x).
Proof.
  unfold is_int, INT_MIN, INT_MAX, wrapI, wrap.
  pose proof (Z.mod_pos_bound (x + 2 ^ (32 - 1)) (2 ^ 32)). lia.
Qed.

(** For a generator whose array form agrees with its scalar form, the
    result of [Perm] does not depend on what the local buffer [R] holds on
    entry: no element of [R] is used before [Eval] has stored it. *)
Theorem Perm_ignores_initial_R (G : RandGen) (len : Z) (perm : list Z)
  (R R' : list float32) (g : gen_state G) :
  batch_equivalent G -> length R = 20%nat -> length R' = 20%nat ->
  Perm G len perm R g = Perm G len perm R' g.
Proof.
  intros HB HR HR'. unfold Perm.
  destruct (Perm_init (Z.to_nat len) 0 perm) as [perm0|]; [|reflexivity].
  cbn [mbind option_bind].
  pose proof (wrapI_range (len - 1)) as Hi. fold (isub len 1) in Hi.
  unfold is_int, INT_MIN in Hi.
  destruct (Z.le_gt_cases 0 (isub len 1)) as [Hpos|Hneg].
  - apply (Perm_loop_R_irrelevant G HB); try lia; try assumption.
  - assert (Z.to_nat (isub len 1) = 0%nat) as -> by lia. reflexivity.
Qed.

Lemma Perm_ignores_initial_R_witness :
  let G := generator Long32 Method3 in
  let R := replicate 20 (S754_zero false) in
  let R' := replicate 20 S754_nan in
  batch_equivalent G /\ length R = 20%nat /\ length R' = 20%nat /\
  Perm G 30 (replicate 30 7) R {| RandGen_3.ix := 12345 |}
  = Perm G 30 (replicate 30 7) R' {| RandGen_3.ix := 12345 |}.
Proof.
  intros G R R'.
  assert (HB : batch_equivalent G) by apply variants_batch_equivalent.
  split; [exact HB|]. split; [reflexivity|]. split; [reflexivity|].
  exact (Perm_ignores_initial_R G 30 (replicate 30 7) R R' _ HB eq_refl eq_refl).
Defined.

(** For a generator whose draws lie in [0,1) and whose array form agrees
    with its scalar form, [Perm(len, perm)] with len >= 0 leaves the
    generator in the state that len - 1 scalar calls of [Eval] reach (none
    for len <= 1): it uses len - 1 random values, whatever the batches. *)
Theorem Perm_draws_len_minus_1 (G : RandGen) (Inv : gen_state G -> Prop)
  (len : Z) (perm : list Z) (R : list float32) (g : gen_state G) :
  unit_generator G Inv -> batch_equivalent G -> Inv g ->
  0 <= len <= INT_MAX -> len <= Z.of_nat (length perm) -> length R = 20%nat ->
  exists perm' xs g',
    Perm G len perm R g = Some (perm', g') /\
    draws G (Z.to_nat (len - 1)) g = Some (xs, g') /\
    length xs = Z.to_nat (len - 1).
Proof.
  intros HG HB Hg Hlen Hperm HR.
  assert (Hinit : Perm_init (Z.to_nat len) 0 perm =
                  Some (seqZ 0 len ++ drop (Z.to_nat len) perm)).
  { change 0 with (Z.of_nat 0) at 1. rewrite Perm_init_spec by lia.
    cbn [take app Nat.add]. rewrite Z2Nat.id by lia. reflexivity. }
  assert (Hsub : isub len 1 = len - 1).
  { apply wrapI_small. unfold is_int, INT_MIN, INT_MAX in *. lia. }
  unfold Perm. rewrite Hinit. cbn [mbind option_bind]. rewrite Hsub.
  destruct (Z.eq_dec len 0) as [->|Hne].
  - cbn. exists perm, [], g. auto.
  - destruct (Perm_loop_spec G Inv HG len (proj2 Hlen) (Z.to_nat (len - 1))
                (len - 1) (len - 1) 0 0 R (seqZ 0 len ++ drop (Z.to_nat len) perm) g)
      as (perm' & g' & HL & _); try lia; try assumption.
    { rewrite length_app, length_drop, length_seqZ. lia. }
    destruct (Perm_loop_draws G HB (Z.to_nat (len - 1)) (len - 1) (len - 1) 0 0 R
                _ perm' g g' HR ltac:(lia) ltac:(lia) ltac:(lia) ltac:(lia) HL)
      as (xs & HD & Hxs).
    exists perm', xs, g'. auto.
Qed.

Lemma Perm_draws_len_minus_1_witness :
  let G := generator Long32 Method1 in
  let g : gen_state G := method1_instance 1 in
  let perm := replicate 30 9 in
  let R := replicate 20 (S754_zero false) in
  unit_generator G (good_state Long32 Method1) /\ batch_equivalent G /\
  good_state Long32 Method1 g /\
  0 <= 30 <= INT_MAX /\ 30 <= Z.of_nat (length perm) /\ length R = 20%nat /\
  exists perm' xs g',
    Perm G 30 perm R g = Some (perm', g') /\
    draws G (Z.to_nat (30 - 1)) g = Some (xs, g') /\
    length xs = Z.to_nat (30 - 1).
Proof.
  intros G g perm R.
  assert (H1 : 0 <= 30 <= INT_MAX) by (unfold INT_MAX; lia).
  assert (H2 : 30 <= Z.of_nat (length perm)) by (cbn; lia).
  assert (H3 : length R = 20%nat) by reflexivity.
  assert (H4 : good_state Long32 Method1 g).
  { cbn [good_state]. split; [reflexivity|]. split; [cbn; unfold RandGen_1.M1; lia|].
    intros k x Hk Hx. cbn [method1_instance g RandGen_1.shuffle] in Hx.
    apply lookup_replicate in Hx. destruct Hx as [-> _]. unfold RandGen_1.M1. lia. }
  assert (H5 : batch_equivalent G) by apply variants_batch_equivalent.
  repeat (split; [first [assumption | apply unit_generator_1]|]).
  exact (Perm_draws_len_minus_1 G (good_state Long32 Method1) 30 perm R g
           (unit_generator_1 Long32) H5 H4 H1 H2 H3).
Defined.

(** ** Method 1: what the sequence after [Seed] depends on *)

Section Method1_dependence.
Variable dm : long_model.

Lemma Seed_loop_agree (cnt : nat) :
  forall (k : nat) (t : Z) (sh1 sh2 : list Z),
    length sh1 = length sh2 -> (k + cnt < length sh1)%nat ->
    (forall j : nat, (1 <= j <= k)%nat -> sh1 !! j = sh2 !! j) ->
    exists t' sh1' sh2',
      RandGen_1.Seed_loop dm cnt (Z.of_nat (S k)) t sh1 = Some (t', sh1') /\
      RandGen_1.Seed_loop dm cnt (Z.of_nat (S k)) t sh2 = Some (t', sh2') /\
      length sh1' = length sh1 /\ length sh2' = length sh2 /\
      forall j : nat, (1 <= j <= k + cnt)%nat -> sh1' !! j = sh2' !! j.
Proof.
  induction cnt as [|cnt IH]; intros k t sh1 sh2 Hl Hk Hag.
  - exists t, sh1, sh2. cbn [RandGen_1.Seed_loop].
    repeat split; auto. intros j Hj. apply Hag. lia.
  - cbn [RandGen_1.Seed_loop].
    set (t1 := Z.rem _ RandGen_1.M1).
    rewrite !wr_Some by lia. cbn [mbind option_bind].
    rewrite Nat2Z.id.
    replace (Z.of_nat (S k) + 1) with (Z.of_nat (S (S k))) by lia.
    destruct (IH (S k) t1 (<[S k := ABS dm t1]> sh1) (<[S k := ABS dm t1]> sh2))
      as (t' & sh1' & sh2' & H1 & H2 & Hl1 & Hl2 & Hag');
      [rewrite !length_insert; exact Hl | rewrite length_insert; lia | |].
    { intros j Hj. destruct (decide (j = S k)) as [->|Hne].
      - rewrite !list_lookup_insert_eq by lia. reflexivity.
      - rewrite !list_lookup_insert_ne by congruence. apply Hag. lia. }
    exists t', sh1', sh2'. rewrite length_insert in Hl1, Hl2.
    repeat split; auto. intros j Hj. apply Hag'. lia.
Qed.

Lemma Seed_same_but_slot0 (s : Z) (g1 g2 : RandGen_1.state) :
  RandGen_1.wf g1 -> RandGen_1.wf g2 -> RandGen_1.seed g1 = RandGen_1.seed g2 ->
  exists h1 h2,
    RandGen_1.Seed dm s g1 = Some h1 /\ RandGen_1.Seed dm s g2 = Some h2 /\
    same_but_slot0 h1 h2.
Proof.
  intros Hw1 Hw2 Hseed. unfold RandGen_1.wf in Hw1, Hw2. unfold RandGen_1.Seed.
  set (t0 := Z.rem _ RandGen_1.M1).
  destruct (Seed_loop_agree 97 0 t0 (RandGen_1.shuffle g1) (RandGen_1.shuffle g2))
    as (t' & sh1' & sh2' & H1 & H2 & Hl1 & Hl2 & Hag); [congruence|lia|intros j Hj; lia|].
  change (Z.of_nat 1) with 1 in H1, H2. rewrite H1, H2. cbn [mbind option_bind].
  eexists _, _. split; [reflexivity|]. split; [reflexivity|].
  unfold same_but_slot0, RandGen_1.wf.
  cbn [RandGen_1.index RandGen_1.seed RandGen_1.shuffle].
  split; [reflexivity|]. split; [exact Hseed|]. split; [lia|]. split; [lia|].
  intros k Hk. destruct (Nat.le_gt_cases k 97) as [Hle|Hgt].
  - apply Hag. lia.
  - rewrite !lookup_ge_None_2 by lia. reflexivity.
Qed.

Lemma Eval_same_but_slot0 (g1 g2 : RandGen_1.state) :
  same_but_slot0 g1 g2 ->
  exists x h1 h2,
    RandGen_1.Eval dm g1 = Some (x, h1) /\ RandGen_1.Eval dm g2 = Some (x, h2) /\
    same_but_slot0 h1 h2.
Proof.
  intros (Hi & Hs & Hw1 & Hw2 & Hag).
  destruct (Eval_1_defined dm g1 Hw1) as (e1 & Hr1 & HE1).
  destruct (Eval_1_defined dm g2 Hw2) as (e2 & Hr2 & HE2).
  pose proof (offset_of_range dm (RandGen_1.index g1)) as Ho.
  rewrite <- Hi, <- Hs in *.
  set (o := RandGen_1.offset_of dm (RandGen_1.index g1)) in *.
  assert (He : e1 = e2).
  { unfold rd in Hr1, Hr2.
    destruct (_ && _) in Hr1; [|discriminate].
    destruct (_ && _) in Hr2; [|discriminate].
    rewrite Hag in Hr1 by lia. congruence. }
  subst e2. eexists _, _, _. split; [exact HE1|]. split; [exact HE2|].
  unfold same_but_slot0, RandGen_1.wf in *.
  cbn [RandGen_1.index RandGen_1.seed RandGen_1.shuffle].
  rewrite !length_insert.
  split; [reflexivity|]. split; [reflexivity|]. split; [exact Hw1|]. split; [exact Hw2|].
  intros k Hk. destruct (decide (k = Z.to_nat o)) as [->|Hne].
  - rewrite !list_lookup_insert_eq by lia. reflexivity.
  - rewrite !list_lookup_insert_ne by congruence. apply Hag. exact Hk.
Qed.

Lemma draws_same_but_slot0 (N : nat) :
  forall g1 g2 : RandGen_1.state,
    same_but_slot0 g1 g2 ->
    exists xs h1 h2,
      draws (generator dm Method1) N g1 = Some (xs, h1) /\
      draws (generator dm Method1) N g2 = Some (xs, h2) /\
      same_but_slot0 h1 h2.
Proof.
  induction N as [|N IH]; intros g1 g2 Hsim.
  - exists [], g1, g2. auto.
  - destruct (Eval_same_but_slot0 g1 g2 Hsim) as (x & h1 & h2 & HE1 & HE2 & Hsim').
    destruct (IH h1 h2 Hsim') as (xs & k1 & k2 & HD1 & HD2 & Hsim'').
    exists (x :: xs), k1, k2.
    change (draws (generator dm Method1) (S N) g1) with
      ('(x, g') ← RandGen_1.Eval dm g1;
       '(xs, g'') ← draws (generator dm Method1) N g';
       Some (x :: xs, g'')).
    change (draws (generator dm Method1) (S N) g2) with
      ('(x, g') ← RandGen_1.Eval dm g2;
       '(xs, g'') ← draws (generator dm Method1) N g';
       Some (x :: xs, g'')).
    rewrite HE1, HE2. cbn [mbind option_bind]. rewrite HD1, HD2.
    cbn [mbind option_bind]. auto.
Qed.
End Method1_dependence.

(** The sequence that Method 1 returns after [Seed(s)] depends on the
    state of the instance only through its member [seed]: two instances
    (with 98-entry tables) whose members [seed] are equal return the same
    values, whatever [index] and the table held. *)
Theorem Method1_depends_on_member_seed_only (dm : long_model) (s : Z) (N : nat)
  (g1 g2 : RandGen_1.state) :
  RandGen_1.wf g1 -> RandGen_1.wf g2 -> RandGen_1.seed g1 = RandGen_1.seed g2 ->
  exists xs,
    seeded_draws (generator dm Method1) s N g1 = Some xs /\
    seeded_draws (generator dm Method1) s N g2 = Some xs.
Proof.
  intros Hw1 Hw2 Hseed.
  destruct (Seed_same_but_slot0 dm s g1 g2 Hw1 Hw2 Hseed) as (h1 & h2 & H1 & H2 & Hsim).
  destruct (draws_same_but_slot0 dm N h1 h2 Hsim) as (xs & k1 & k2 & HD1 & HD2 & _).
  exists xs. unfold seeded_draws.
  change (gen_Seed (generator dm Method1) s g1) with (RandGen_1.Seed dm s g1).
  change (gen_Seed (generator dm Method1) s g2) with (RandGen_1.Seed dm s g2).
  rewrite H1, H2. cbn [mbind option_bind]. rewrite HD1, HD2. auto.
Qed.

Lemma Method1_depends_on_member_seed_only_witness :
  let g1 := method1_instance 7 in
  let g2 := {| RandGen_1.index := 123; RandGen_1.seed := 7;
               RandGen_1.shuffle := replicate 98 (-4) |} in
  RandGen_1.wf g1 /\ RandGen_1.wf g2 /\ RandGen_1.seed g1 = RandGen_1.seed g2 /\
  exists xs,
    seeded_draws (generator Long32 Method1) 1 50 g1 = Some xs /\
    seeded_draws (generator Long32 Method1) 1 50 g2 = Some xs.
Proof.
  intros g1 g2.
  assert (H1 : RandGen_1.wf g1) by reflexivity.
  assert (H2 : RandGen_1.wf g2) by reflexivity.
  assert (H3 : RandGen_1.seed g1 = RandGen_1.seed g2) by reflexivity.
  split; [exact H1|]. split; [exact H2|]. split; [exact H3|].
  exact (Method1_depends_on_member_seed_only Long32 1 50 g1 g2 H1 H2 H3).
Defined.

(** ** Method 1: the offset for an index of the expected range *)

(** For [index] in [0, M1) neither clamping comparison of [Eval] fires: the
    offset is 1 + (97 * index) / M1 computed without overflow, it grows
    with [index], and every slot 1..97 is the offset of some [index]. *)
Theorem offset_of_in_range (dm : long_model) (idx : Z) :
  0 <= idx < RandGen_1.M1 ->
  RandGen_1.offset_of dm idx = 1 + (97 * idx) / RandGen_1.M1 /\
  (forall idx', idx <= idx' < RandGen_1.M1 ->
     RandGen_1.offset_of dm idx <= RandGen_1.offset_of dm idx') /\
  (forall o, 1 <= o <= 97 ->
     exists i, 0 <= i < RandGen_1.M1 /\ RandGen_1.offset_of dm i = o).
Proof.
  assert (Hoff : forall i, 0 <= i < RandGen_1.M1 ->
            RandGen_1.offset_of dm i = 1 + (97 * i) / RandGen_1.M1).
  { intros i Hi. unfold RandGen_1.offset_of, RandGen_1.M1, ladd, lmul in *.
    rewrite (wrapL_small dm (97 * i)) by lia.
    rewrite Z.quot_div_nonneg by lia.
    assert (0 <= 97 * i / 714025 < 97)
      by (split; [apply Z.div_pos; lia|apply Z.div_lt_upper_bound; lia]).
    small.
    destruct (Z.gtb_spec (1 + 97 * i / 714025) 97); [lia|].
    destruct (Z.ltb_spec (1 + 97 * i / 714025) 1); [lia|reflexivity]. }
  intros Hidx. split; [apply Hoff, Hidx|]. split.
  - intros idx' Hidx'. rewrite !Hoff by (unfold RandGen_1.M1 in *; lia).
    apply Z.add_le_mono_l, Z.div_le_mono; [reflexivity|lia].
  - intros o Ho. exists ((o - 1) * 7361 + 7360).
    unfold RandGen_1.M1 in *.
    assert (Hi : 0 <= (o - 1) * 7361 + 7360 < 714025) by lia.
    split; [exact Hi|]. rewrite Hoff by exact Hi.
    unfold RandGen_1.M1.
    assert ((97 * ((o - 1) * 7361 + 7360)) / 714025 = o - 1); [|lia].
    symmetry. apply (Z.div_unique_pos _ _ _ (97 * ((o - 1) * 7361 + 7360) - 714025 * (o - 1)));
      lia.
Qed.

Lemma offset_of_in_range_witness :
  0 <= 714024 < RandGen_1.M1 /\
  RandGen_1.offset_of Long32 714024 = 1 + (97 * 714024) / RandGen_1.M1.
Proof.
  assert (H : 0 <= 714024 < RandGen_1.M1) by (unfold RandGen_1.M1; lia).
  split; [exact H|]. exact (proj1 (offset_of_in_range Long32 714024 H)).
Defined.

(** ** Method 2: every seed reaches the bounds *)

Section Method2_transient.
Variable dm : long_model.

(** [m], [i] and [j] of a state that starts at [(m0, i0, j0)]: each stays
    above its lower bound, and is either below its upper bound or has come
    down by 9864, 88082, 22294 per call. *)
Definition descending (m0 i0 j0 : Z) (k : Z) (g : RandGen_2.state) : Prop :=
  (100 <= RandGen_2.m g <= 2147409708 /\
   (RandGen_2.m g < 9973 \/ RandGen_2.m g <= m0 - 9864 * k)) /\
  (10000 <= RandGen_2.i g <= 2147409708 /\
   (RandGen_2.i g < 99991 \/ RandGen_2.i g <= i0 - 88082 * k)) /\
  (128000 <= RandGen_2.j g <= 2147409708 /\
   (RandGen_2.j g < 224729 \/ RandGen_2.j g <= j0 - 22294 * k)).

Lemma step_2_descending (m0 i0 j0 k : Z) (g : RandGen_2.state) :
  descending m0 i0 j0 k g ->
  descending m0 i0 j0 (k + 1) (RandGen_2.step dm g).
Proof.
  unfold descending, RandGen_2.step, ladd, lsub.
  destruct g as [r m i j]; cbn [RandGen_2.m RandGen_2.i RandGen_2.j].
  intros ((Hm & Hm') & (Hi & Hi') & (Hj & Hj')).
  rewrite (wrapL_small dm (m + 7)), (wrapL_small dm (i + 1907)),
    (wrapL_small dm (j + 73939)) by lia.
  repeat match goal with
    | |- context [?a >=? ?b] => destruct (Z.geb_spec a b)
    end; small; lia.
Qed.

Lemma Seed_2_descending (s : Z) (g : RandGen_2.state) :
  Z.abs s <= 165185362 ->
  let g0 := RandGen_2.Seed dm s g in
  descending (RandGen_2.m g0) (RandGen_2.i g0) (RandGen_2.j g0) 0 g0 /\
  RandGen_2.m g0 <= 7 * Z.abs s + 100 /\
  RandGen_2.i g0 <= 11 * Z.abs s + 10000 /\
  RandGen_2.j g0 <= 13 * Z.abs s + 128000.
Proof.
  intros Hs. unfold descending, RandGen_2.Seed, ladd, lmul.
  cbn [RandGen_2.m RandGen_2.i RandGen_2.j RandGen_2.r].
  rewrite (wrapL_small dm (s * 7)), (wrapL_small dm (s * 11)),
    (wrapL_small dm (s * 13)) by lia.
  rewrite !ABS_small by lia.
  repeat match goal with
    | |- context [?a <? ?b] => destruct (Z.ltb_spec a b)
    end; small; lia.
Qed.

Lemma method2_after_descending (m0 i0 j0 : Z) (k : nat) (g : RandGen_2.state) :
  descending m0 i0 j0 0 g ->
  descending m0 i0 j0 (Z.of_nat k) (method2_after dm k g).
Proof.
  intros Hg. induction k as [|k IH]; [exact Hg|].
  unfold method2_after in *. cbn [Nat.iter].
  rewrite Nat2Z.inj_succ, <- Z.add_1_r. apply step_2_descending, IH.
Qed.
End Method2_transient.

(** After [RandGen_2::Seed(s)], for every seed s with |s| <= 165185362 (the
    largest for which 13*|s| + 73939 fits a 32-bit long): m, i and j never
    fall below 100, 10000 and 128000, whatever the number k of calls
    [Eval()]; and as soon as 1000 * k >= |s| they are also below 9973, 99991
    and 224729, so the state is within the bounds of the method from then
    on. *)
Theorem Method2_bounds_eventually (dm : long_model) (s : Z) (k : nat)
  (g : RandGen_2.state) :
  Z.abs s <= 165185362 ->
  let gk := method2_after dm k (RandGen_2.Seed dm s g) in
  (100 <= RandGen_2.m gk /\ 10000 <= RandGen_2.i gk /\ 128000 <= RandGen_2.j gk) /\
  (Z.abs s <= 1000 * Z.of_nat k -> method2_bounds gk).
Proof.
  intros Hs gk.
  destruct (Seed_2_descending dm s g Hs) as (H0 & Hm0 & Hi0 & Hj0).
  cbv zeta in Hm0, Hi0, Hj0.
  pose proof (method2_after_descending dm _ _ _ k _ H0) as Hk.
  fold gk in Hk. unfold descending in Hk.
  destruct Hk as ((Hm & Hm') & (Hi & Hi') & (Hj & Hj')).
  split; [lia|]. intros Hlarge. unfold method2_bounds.
  lia.
Qed.

Lemma Method2_bounds_eventually_witness :
  Z.abs 3000 <= 165185362 /\ Z.abs 3000 <= 1000 * Z.of_nat 3 /\
  method2_bounds (method2_after Long32 3
    (RandGen_2.Seed Long32 3000 {| RandGen_2.r := 0; RandGen_2.m := 0;
                                   RandGen_2.i := 0; RandGen_2.j := 0 |})).
Proof.
  assert (H1 : Z.abs 3000 <= 165185362) by (cbn; lia).
  assert (H2 : Z.abs 3000 <= 1000 * Z.of_nat 3) by (cbn; lia).
  split; [exact H1|]. split; [exact H2|].
  exact (proj2 (Method2_bounds_eventually Long32 3000 3
    {| RandGen_2.r := 0; RandGen_2.m := 0; RandGen_2.i := 0; RandGen_2.j := 0 |}
    H1) H2).
Defined.

(** ** The width of [long] does not show in the results *)

Lemma draws_2_S (dm : long_model) (N : nat) (g : RandGen_2.state) :
  draws (generator dm Method2) (S N) g =
    '(xs, g'') ← draws (generator dm Method2) N (RandGen_2.step dm g);
    Some (f32_of_f64 (f64_mul (f64_of_Z (RandGen_2.r (RandGen_2.step dm g)))
                         RandGen_2.scale) :: xs, g'').
Proof. reflexivity. Qed.

Section Width.
Variables dm dm' : long_model.

Lemma offset_of_width (idx : Z) :
  0 <= idx < RandGen_1.M1 ->
  RandGen_1.offset_of dm idx = RandGen_1.offset_of dm' idx.
Proof.
  intros Hi. unfold RandGen_1.offset_of, RandGen_1.M1, ladd, lmul in *.
  rewrite (wrapL_small dm (97 * idx)), (wrapL_small dm' (97 * idx)) by lia.
  rewrite Z.quot_div_nonneg by lia.
  assert (0 <= 97 * idx / 714025 < 97)
    by (split; [apply Z.div_pos; lia|apply Z.div_lt_upper_bound; lia]).
  small. reflexivity.
Qed.

Lemma next_width (t : Z) :
  0 <= t < RandGen_1.M1 ->
  Z.rem (ladd dm (lmul dm RandGen_1.IA t) RandGen_1.IC) RandGen_1.M1 =
  Z.rem (ladd dm' (lmul dm' RandGen_1.IA t) RandGen_1.IC) RandGen_1.M1 /\
  0 <= Z.rem (ladd dm (lmul dm RandGen_1.IA t) RandGen_1.IC) RandGen_1.M1
    < RandGen_1.M1.
Proof.
  intros Ht. rewrite (next_t_spec dm t Ht), (next_t_spec dm' t Ht).
  split; [reflexivity|]. apply Z.mod_pos_bound. reflexivity.
Qed.

Lemma Seed_loop_width (cnt : nat) :
  forall (k t : Z) (sh : list Z),
    0 <= t < RandGen_1.M1 ->
    RandGen_1.Seed_loop dm cnt k t sh = RandGen_1.Seed_loop dm' cnt k t sh /\
    forall t' sh', RandGen_1.Seed_loop dm cnt k t sh = Some (t', sh') ->
                   0 <= t' < RandGen_1.M1.
Proof.
  induction cnt as [|cnt IH]; intros k t sh Ht.
  - cbn [RandGen_1.Seed_loop]. split; [reflexivity|]. congruence.
  - cbn [RandGen_1.Seed_loop].
    destruct (next_width t Ht) as [<- Hr].
    set (t1 := Z.rem _ RandGen_1.M1) in *.
    unfold RandGen_1.M1 in Hr.
    rewrite (ABS_small dm t1), (ABS_small dm' t1) by lia.
    destruct (wr sh k (Z.abs t1)) as [sh1|]; cbn [mbind option_bind].
    + apply IH. exact Hr.
    + split; [reflexivity|]. discriminate.
Qed.

Lemma Seed_1_width (s : Z) (g : RandGen_1.state) :
  Z.abs s <= 2147332757 ->
  RandGen_1.Seed dm s g = RandGen_1.Seed dm' s g /\
  forall g', RandGen_1.Seed dm s g = Some g' ->
             0 <= RandGen_1.index g' < RandGen_1.M1.
Proof.
  intros Hs. unfold RandGen_1.Seed.
  assert (H0 : forall d, Z.rem (ladd d (ladd d RandGen_1.IC (ABS d s)) 1) RandGen_1.M1
                 = Z.rem (RandGen_1.IC + Z.abs s + 1) RandGen_1.M1).
  { intros d. unfold RandGen_1.IC, ladd. rewrite ABS_small by lia. small.
    reflexivity. }
  rewrite (H0 dm), (H0 dm').
  set (t0 := Z.rem _ RandGen_1.M1).
  assert (Ht0 : 0 <= t0 < RandGen_1.M1).
  { subst t0. apply Z.rem_bound_pos; unfold RandGen_1.IC, RandGen_1.M1; lia. }
  destruct (Seed_loop_width 97 1 t0 (RandGen_1.shuffle g) Ht0) as [HL Hr].
  rewrite <- HL.
  destruct (RandGen_1.Seed_loop dm 97 1 t0 (RandGen_1.shuffle g)) as [[t' sh']|];
    cbn [mbind option_bind]; [|split; [reflexivity|discriminate]].
  cbv zeta.
  destruct (next_width t' (Hr t' sh' eq_refl)) as [<- Hr'].
  set (tn := Z.rem (ladd dm _ _) RandGen_1.M1) in *.
  unfold RandGen_1.M1 in Hr'.
  rewrite (ABS_small dm tn), (ABS_small dm' tn) by lia.
  split; [reflexivity|]. intros g' [= <-]. cbn [RandGen_1.index].
  unfold RandGen_1.M1. lia.
Qed.

(** The states of Method 1 that [Seed] produces and [Eval] keeps. *)
Definition in_range_1 (g : RandGen_1.state) : Prop :=
  good_state dm Method1 g /\ 0 <= RandGen_1.index g < RandGen_1.M1.

Lemma Eval_1_width (g : RandGen_1.state) :
  in_range_1 g ->
  RandGen_1.Eval dm g = RandGen_1.Eval dm' g /\
  exists x g', RandGen_1.Eval dm g = Some (x, g') /\ in_range_1 g'.
Proof.
  intros [Hg Hidx]. split.
  - destruct Hg as (_ & Hseed & _). unfold RandGen_1.Eval.
    rewrite (offset_of_width _ Hidx).
    destruct (next_width _ Hseed) as [<- _]. reflexivity.
  - destruct (Eval_good_1 dm g Hg) as (x & g' & HE & _ & _ & Hg').
    exists x, g'. split; [exact HE|]. split; [exact Hg'|].
    destruct Hg as (Hwf & _ & Htab).
    destruct (Eval_1_defined dm g Hwf) as (elem & Hrd & HE').
    rewrite HE' in HE. injection HE as _ <-. cbn [RandGen_1.index].
    pose proof (offset_of_range dm (RandGen_1.index g)) as Ho.
    apply (Htab (Z.to_nat (RandGen_1.offset_of dm (RandGen_1.index g)))); [lia|].
    unfold rd in Hrd. destruct (_ && _); [exact Hrd|discriminate].
Qed.

Lemma draws_1_width (N : nat) :
  forall g : RandGen_1.state,
    in_range_1 g ->
    draws (generator dm Method1) N g = draws (generator dm' Method1) N g.
Proof.
  induction N as [|N IH]; intros g Hg; [reflexivity|].
  change (draws (generator dm Method1) (S N) g) with
    ('(x, g') ← RandGen_1.Eval dm g;
     '(xs, g'') ← draws (generator dm Method1) N g';
     Some (x :: xs, g'')).
  change (draws (generator dm' Method1) (S N) g) with
    ('(x, g') ← RandGen_1.Eval dm' g;
     '(xs, g'') ← draws (generator dm' Method1) N g';
     Some (x :: xs, g'')).
  destruct (Eval_1_width g Hg) as (<- & x & g' & HE & Hg').
  rewrite HE. cbn [mbind option_bind]. rewrite (IH g' Hg'). reflexivity.
Qed.

Lemma step_2_width (g : RandGen_2.state) :
  good_state dm Method2 g -> RandGen_2.step dm g = RandGen_2.step dm' g.
Proof.
  cbn [good_state]. unfold RandGen_2.step, ladd, lsub, lmul.
  destruct g as [r m i j]. cbn [RandGen_2.r RandGen_2.m RandGen_2.i RandGen_2.j].
  intros (Hr & Hm & Hi & Hj).
  rewrite (wrapL_small dm (m + 7)), (wrapL_small dm (i + 1907)),
    (wrapL_small dm (j + 73939)), (wrapL_small dm' (m + 7)),
    (wrapL_small dm' (i + 1907)), (wrapL_small dm' (j + 73939)) by lia.
  assert (Hm' : forall d, (if m + 7 >=? 9973 then wrapL d (m + 7 - 9871) else m + 7)
                          = (if m + 7 >=? 9973 then m + 7 - 9871 else m + 7))
    by (intros d; destruct (Z.geb_spec (m + 7) 9973); small; reflexivity).
  assert (Hi' : forall d, (if i + 1907 >=? 99991 then wrapL d (i + 1907 - 89989)
                           else i + 1907)
                          = (if i + 1907 >=? 99991 then i + 1907 - 89989 else i + 1907))
    by (intros d; destruct (Z.geb_spec (i + 1907) 99991); small; reflexivity).
  assert (Hj' : forall d, (if j + 73939 >=? 224729 then wrapL d (j + 73939 - 96233)
                           else j + 73939)
                          = (if j + 73939 >=? 224729 then j + 73939 - 96233
                             else j + 73939))
    by (intros d; destruct (Z.geb_spec (j + 73939) 224729); small; reflexivity).
  rewrite !Hm', !Hi', !Hj'.
  set (m' := if m + 7 >=? 9973 then _ else _).
  set (i' := if i + 1907 >=? 99991 then _ else _).
  set (j' := if j + 73939 >=? 224729 then _ else _).
  assert (0 <= m' <= 19831) by (subst m'; destruct (Z.geb_spec (m + 7) 9973); lia).
  assert (0 <= i' <= 99990) by (subst i'; destruct (Z.geb_spec (i + 1907) 99991); lia).
  assert (0 <= j' <= 224728)
    by (subst j'; destruct (Z.geb_spec (j + 73939) 224729); lia).
  assert (Hrm : 0 <= r * m' <= 9999 * 19831) by nia.
  small. reflexivity.
Qed.

Lemma draws_2_width (N : nat) :
  forall g : RandGen_2.state,
    good_state dm Method2 g ->
    draws (generator dm Method2) N g = draws (generator dm' Method2) N g.
Proof.
  induction N as [|N IH]; intros g Hg; [reflexivity|].
  rewrite !draws_2_S.
  rewrite <- (step_2_width g Hg).
  rewrite (IH _ (step_good_2 dm g Hg)). reflexivity.
Qed.

Lemma draws_3_width (N : nat) :
  forall g : RandGen_3.state,
    good_state dm Method3 g ->
    draws (generator dm Method3) N g = draws (generator dm' Method3) N g.
Proof.
  induction N as [|N IH]; intros g Hg; [reflexivity|].
  rewrite !draws_3_S.
  cbn [good_state] in Hg.
  pose proof (step_3_mod dm (RandGen_3.ix g) ltac:(lia)) as H1.
  pose proof (step_3_mod dm' (RandGen_3.ix g) ltac:(lia)) as H2.
  rewrite <- H1 in H2. rewrite H2.
  assert (Hg' : good_state dm Method3 {| RandGen_3.ix := RandGen_3.step dm (RandGen_3.ix g) |}).
  { cbn [good_state RandGen_3.ix]. rewrite H1.
    pose proof (Z.mod_pos_bound (RandGen_3.A3 * RandGen_3.ix g) RandGen_3.P3
                  ltac:(reflexivity)) as Hmod.
    unfold RandGen_3.P3 in *. lia. }
  rewrite (IH _ Hg'). reflexivity.
Qed.
End Width.

(** The three methods return the same sequence whether [long] has 32 or 64
    bits, for the seeds whose arithmetic fits 32 bits: [Seed(s)] followed by
    [N] calls [Eval()] gives the same floats for Method 1 when
    |s| <= 2147332757 and the member [seed] lies in [0, M1), for Method 2
    when |s| <= 2833, and for Method 3 when |s| <= 2147483647. *)
Theorem seeded_draws_width_independent (dm dm' : long_model) (s : Z) (N : nat) :
  (forall g : RandGen_1.state,
     RandGen_1.wf g -> 0 <= RandGen_1.seed g < RandGen_1.M1 ->
     Z.abs s <= 2147332757 ->
     seeded_draws (generator dm Method1) s N g =
     seeded_draws (generator dm' Method1) s N g) /\
  (forall g : RandGen_2.state,
     Z.abs s <= 2833 ->
     seeded_draws (generator dm Method2) s N g =
     seeded_draws (generator dm' Method2) s N g) /\
  (forall g : RandGen_3.state,
     Z.abs s <= 2147483647 ->
     seeded_draws (generator dm Method3) s N g =
     seeded_draws (generator dm' Method3) s N g).
Proof.
  split; [|split].
  - intros g Hwf Hseed Hs. unfold seeded_draws.
    change (gen_Seed (generator dm Method1) s g) with (RandGen_1.Seed dm s g).
    change (gen_Seed (generator dm' Method1) s g) with (RandGen_1.Seed dm' s g).
    destruct (Seed_1_width dm dm' s g Hs) as [<- Hidx].
    destruct (Seed_good dm Method1 s g (conj Hwf Hseed)) as (g1 & HS & Hg1).
    change (gen_Seed (generator dm Method1) s g) with (RandGen_1.Seed dm s g) in HS.
    rewrite HS. cbn [mbind option_bind].
    rewrite (draws_1_width dm dm' N g1 (conj Hg1 (Hidx g1 HS))). reflexivity.
  - intros g Hs. unfold seeded_draws.
    change (gen_Seed (generator dm Method2) s g) with (Some (RandGen_2.Seed dm s g)).
    change (gen_Seed (generator dm' Method2) s g) with (Some (RandGen_2.Seed dm' s g)).
    cbn [mbind option_bind].
    destruct (Seed_good dm Method2 s g Hs) as (g1 & HS & Hg1).
    change (gen_Seed (generator dm Method2) s g) with (Some (RandGen_2.Seed dm s g)) in HS.
    injection HS as HS.
    assert (HS' : RandGen_2.Seed dm' s g = RandGen_2.Seed dm s g).
    { unfold RandGen_2.Seed, ladd, lmul.
      rewrite (wrapL_small dm (s * 7)), (wrapL_small dm (s * 11)),
        (wrapL_small dm (s * 13)), (wrapL_small dm' (s * 7)),
        (wrapL_small dm' (s * 11)), (wrapL_small dm' (s * 13)) by lia.
      rewrite !ABS_small by lia.
      repeat match goal with
        | |- context [?a <? ?b] => destruct (Z.ltb_spec a b)
        end; small; reflexivity. }
    rewrite HS', HS.
    rewrite (draws_2_width dm dm' N g1 Hg1). reflexivity.
  - intros g Hs. unfold seeded_draws.
    change (gen_Seed (generator dm Method3) s g) with (Some (RandGen_3.Seed dm s g)).
    change (gen_Seed (generator dm' Method3) s g) with (Some (RandGen_3.Seed dm' s g)).
    cbn [mbind option_bind].
    unfold RandGen_3.Seed. rewrite (ABS_small dm s), (ABS_small dm' s) by lia.
    rewrite (draws_3_width dm dm' N {| RandGen_3.ix := Z.abs s |}); [reflexivity|].
    cbn [good_state RandGen_3.ix]. lia.
Qed.

Lemma seeded_draws_width_independent_witness :
  Z.abs (-2147483647) <= 2147483647 /\
  seeded_draws (generator Long32 Method3) (-2147483647) 5 {| RandGen_3.ix := 0 |} =
  seeded_draws (generator Long64 Method3) (-2147483647) 5 {| RandGen_3.ix := 0 |}.
Proof.
  assert (H : Z.abs (-2147483647) <= 2147483647) by (cbn; lia).
  split; [exact H|].
  exact (proj2 (proj2 (seeded_draws_width_independent Long32 Long64 (-2147483647) 5))
           {| RandGen_3.ix := 0 |} H).
Defined.
